(** * Redis list and set types (t_list.c, t_set.c): a shallow embedding

    The C sources mutate a keyspace of reference-counted objects and a
    per-database registry of blocked clients.  The embedding threads one
    explicit [redisServer] state through every command.  A command that hits
    [redisPanic], a failing [redisAssert] or a NULL dereference yields [None].

    Pointers into the keyspace are represented by the key they were looked up
    under: an object is re-read from the keyspace where the C code
    dereferences the pointer, so two pointers obtained from the same key
    alias, as they do in C.  Reference counts and the [dirty] flag of
    literals only manage memory and are not modelled. *)

From stdpp Require Import gmap strings list fin_maps fin_sets sorting.
From Stdlib Require Import ZArith DecimalString DecimalZ DecimalPos Lia.

(** ** Value objects (object.c, util.c: not part of the two files) *)

(** A string object is REDIS_ENCODING_RAW (an sds string) or
    REDIS_ENCODING_INT (a long stored in the pointer). *)
Inductive sobj :=
  | Raw (s : string)
  | IntEnc (n : Z).

#[global] Instance sobj_eq_dec : EqDecision sobj.
Proof. solve_decision. Defined.

Definition LLONG_MIN : Z := (- 2 ^ 63)%Z.
Definition LLONG_MAX : Z := (2 ^ 63 - 1)%Z.

(** Modelled from the spec: ll2string, the decimal text of an integer
    ("decode: materialize the byte-string form"). *)
Definition ll2string (n : Z) : string :=
  NilZero.string_of_int (Z.to_int n).

(** Modelled from the spec: the test "the textual content is an integer in
    range".  As in util.c the text must be the canonical decimal form of a
    long long: parsing and printing again gives the same bytes. *)
Definition string2ll (s : string) : option Z :=
  match NilZero.int_of_string s with
  | Some d =>
      let n := Z.of_int d in
      if bool_decide (ll2string n = s ∧ (LLONG_MIN ≤ n ≤ LLONG_MAX)%Z)
      then Some n else None
  | None => None
  end.

(** Modelled from the spec: getDecodedObject, the byte-string form. *)
Definition getDecodedObject (o : sobj) : string :=
  match o with
  | Raw s => s
  | IntEnc n => ll2string n
  end.

(** Modelled from the spec: tryObjectEncoding ("try-encode-integer:
    substitute a small-integer form when the textual content is an integer
    in range"). *)
Definition tryObjectEncoding (o : sobj) : sobj :=
  match o with
  | Raw s => match string2ll s with Some n => IntEnc n | None => Raw s end
  | IntEnc n => IntEnc n
  end.

(** Modelled from the spec: isObjectRepresentableAsLongLong. *)
Definition isObjectRepresentableAsLongLong (o : sobj) : option Z :=
  match o with
  | Raw s => string2ll s
  | IntEnc n => Some n
  end.

(** Modelled from the spec: "Equality between two values is byte-equality of
    their decoded forms". *)
Definition equalStringObjects (a b : sobj) : bool :=
  bool_decide (getDecodedObject a = getDecodedObject b).

Definition createStringObject (s : string) : sobj := Raw s.
Definition createStringObjectFromLongLong (n : Z) : sobj := IntEnc n.

(** ** Literals (the rlit type of redis.h)

    Modelled from the spec: a literal is a borrow of bytes inside a packed
    container, an integer, or a value object; as-integer is
    [litGetLongLong], as-object is [litGetObject]. *)
Inductive rlit :=
  | LitBuffer (s : string)
  | LitLongLong (n : Z)
  | LitObject (o : sobj).

Definition litFromBuffer (s : string) : rlit := LitBuffer s.
Definition litFromLongLong (n : Z) : rlit := LitLongLong n.
Definition litFromObject (o : sobj) : rlit := LitObject o.

Definition litGetLongLong (l : rlit) : option Z :=
  match l with
  | LitBuffer s => string2ll s
  | LitLongLong n => Some n
  | LitObject o => isObjectRepresentableAsLongLong o
  end.

Definition litGetObject (l : rlit) : sobj :=
  match l with
  | LitBuffer s => createStringObject s
  | LitLongLong n => createStringObjectFromLongLong n
  | LitObject o => o
  end.

(** ** The packed list primitive (ziplist.c)

    Modelled from the spec: the packed list contract of section 6.2.  An
    entry is a byte string or an integer; a cursor is a position, the
    position [length zl] being the end marker. *)
Inductive zlentry :=
  | ZStr (s : string)
  | ZInt (n : Z).

#[global] Instance zlentry_eq_dec : EqDecision zlentry.
Proof. solve_decision. Defined.

Inductive zlwhere := ZIPLIST_HEAD | ZIPLIST_TAIL.

Definition zipEntry (s : string) : zlentry :=
  match string2ll s with Some n => ZInt n | None => ZStr s end.

Definition ziplistLen (zl : list zlentry) : nat := length zl.

Definition ziplistPush (zl : list zlentry) (s : string) (pos : zlwhere)
  : list zlentry :=
  match pos with
  | ZIPLIST_HEAD => zipEntry s :: zl
  | ZIPLIST_TAIL => zl ++ [zipEntry s]
  end.

(** index(signed i): the cursor of the i-th entry, counted from the tail
    when negative; NULL when out of range.  adlist's listIndex follows the
    same rule, so one function serves both. *)
Definition seqIndex (len : nat) (index : Z) : option nat :=
  if bool_decide (0 ≤ index)%Z
  then (if bool_decide (index < Z.of_nat len)%Z
        then Some (Z.to_nat index) else None)
  else (if bool_decide (- index ≤ Z.of_nat len)%Z
        then Some (Z.to_nat (Z.of_nat len + index)) else None).

Definition ziplistIndex (zl : list zlentry) (index : Z) : option nat :=
  seqIndex (length zl) index.

Definition ziplistGet (zl : list zlentry) (p : option nat) : option zlentry :=
  match p with
  | Some i => zl !! i
  | None => None
  end.

Definition ziplistNext (zl : list zlentry) (p : nat) : option nat :=
  if bool_decide (S p < length zl) then Some (S p) else None.

Definition ziplistInsert (zl : list zlentry) (p : nat) (s : string)
  : list zlentry :=
  take p zl ++ zipEntry s :: drop p zl.

(** Deleting leaves the cursor on the entry that followed (possibly the end
    marker). *)
Definition ziplistDelete (zl : list zlentry) (p : nat) : list zlentry :=
  delete p zl.

Definition ziplistDeleteRange (zl : list zlentry) (index : Z) (num : nat)
  : list zlentry :=
  match ziplistIndex zl index with
  | Some p => take p zl ++ drop (p + num) zl
  | None => zl
  end.

(** compare(cursor, bytes), on the entry under the cursor: a string entry
    is compared byte by byte, an integer entry with the integer the bytes
    encode. *)
Definition ziplistCompare (e : zlentry) (s : string) : bool :=
  match e with
  | ZStr x => bool_decide (x = s)
  | ZInt n => bool_decide (string2ll s = Some n)
  end.

(** ** The doubly linked list primitive (adlist.c) as a list of objects *)

Definition listIndex (l : list sobj) (index : Z) : option nat :=
  seqIndex (length l) index.

Inductive aldirection := AL_START_HEAD | AL_START_TAIL.

(** listInsertNode(list, old_node, value, after): AL_START_TAIL (1) inserts
    after the node, AL_START_HEAD (0) before it. *)
Definition listInsertNode (l : list sobj) (p : nat) (v : sobj)
  (after : aldirection) : list sobj :=
  match after with
  | AL_START_TAIL => take (S p) l ++ v :: drop (S p) l
  | AL_START_HEAD => take p l ++ v :: drop p l
  end.

(** listDelNode(l, listSearchKey(l, c)): delete the first node holding [c];
    the search returning NULL makes listDelNode dereference NULL. *)
Fixpoint listDelFirst (c : nat) (l : list nat) : option (list nat) :=
  match l with
  | [] => None
  | x :: l' =>
      if bool_decide (x = c) then Some l'
      else match listDelFirst c l' with
           | Some r => Some (x :: r)
           | None => None
           end
  end.

(** ** List API (t_list.c, lines 7-173) *)

Inductive encoding :=
  | REDIS_ENCODING_RAW
  | REDIS_ENCODING_INT
  | REDIS_ENCODING_HT
  | REDIS_ENCODING_ZIPMAP
  | REDIS_ENCODING_LINKEDLIST
  | REDIS_ENCODING_ZIPLIST
  | REDIS_ENCODING_INTSET.

#[global] Instance encoding_eq_dec : EqDecision encoding.
Proof. solve_decision. Defined.

Inductive lwhere := REDIS_HEAD | REDIS_TAIL.

#[global] Instance lwhere_eq_dec : EqDecision lwhere.
Proof. solve_decision. Defined.

(** A list object: its encoding tag together with the payload the tag
    selects. *)
Inductive tlist :=
  | Ziplist (zl : list zlentry)
  | Linkedlist (l : list sobj).

Definition tlistEncoding (lobj : tlist) : encoding :=
  match lobj with
  | Ziplist _ => REDIS_ENCODING_ZIPLIST
  | Linkedlist _ => REDIS_ENCODING_LINKEDLIST
  end.

(** The configuration knobs of the server structure. *)
Record config := mkConfig {
  list_max_ziplist_entries : nat;
  list_max_ziplist_value : nat;
  set_max_intset_entries : nat
}.

(** tlistInitIterator / tlistNext: the literals produced until tlistNext
    returns 0. *)
Definition zlentryLit (e : zlentry) : rlit :=
  match e with
  | ZStr s => litFromBuffer s
  | ZInt n => litFromLongLong n
  end.

Definition tlistLiterals (lobj : tlist) : list rlit :=
  match lobj with
  | Ziplist zl => zlentryLit <$> zl
  | Linkedlist l => litFromObject <$> l
  end.

Definition tlistConvert (lobj : tlist) (enc : encoding) : option tlist :=
  if bool_decide (tlistEncoding lobj = enc) then Some lobj
  else match lobj with
       | Ziplist zl =>
           if bool_decide (enc ≠ REDIS_ENCODING_LINKEDLIST) then None
           else Some (Linkedlist (litGetObject <$> tlistLiterals (Ziplist zl)))
       | Linkedlist _ => None
       end.

Definition tlistTryConversion (cf : config) (subject : tlist) (value : sobj)
  : option tlist :=
  match subject with
  | Linkedlist _ => Some subject
  | Ziplist _ =>
      match value with
      | Raw s =>
          if bool_decide (list_max_ziplist_value cf < String.length s)
          then tlistConvert subject REDIS_ENCODING_LINKEDLIST
          else Some subject
      | IntEnc _ => Some subject
      end
  end.

Definition tlistPush (cf : config) (subject : tlist) (value : sobj)
  (whr : lwhere) : option tlist :=
  subject ← tlistTryConversion cf subject value;
  subject ← match subject with
            | Ziplist zl =>
                if bool_decide (list_max_ziplist_entries cf ≤ ziplistLen zl)
                then tlistConvert subject REDIS_ENCODING_LINKEDLIST
                else Some subject
            | Linkedlist _ => Some subject
            end;
  match subject with
  | Ziplist zl =>
      let pos := match whr with
                 | REDIS_HEAD => ZIPLIST_HEAD
                 | REDIS_TAIL => ZIPLIST_TAIL
                 end in
      Some (Ziplist (ziplistPush zl (getDecodedObject value) pos))
  | Linkedlist l =>
      Some (Linkedlist (match whr with
                        | REDIS_HEAD => value :: l
                        | REDIS_TAIL => l ++ [value]
                        end))
  end.

(** tlistPop returns the popped object (NULL for an empty list) and leaves
    the shortened list in the subject. *)
Definition tlistPop (subject : tlist) (whr : lwhere)
  : tlist * option sobj :=
  match subject with
  | Ziplist zl =>
      let pos := match whr with REDIS_HEAD => 0%Z | REDIS_TAIL => (-1)%Z end in
      let p := ziplistIndex zl pos in
      match p, ziplistGet zl p with
      | Some i, Some (ZStr s) =>
          (Ziplist (ziplistDelete zl i), Some (createStringObject s))
      | Some i, Some (ZInt n) =>
          (Ziplist (ziplistDelete zl i),
           Some (createStringObjectFromLongLong n))
      | _, _ => (subject, None)
      end
  | Linkedlist l =>
      match whr with
      | REDIS_HEAD =>
          match l with
          | v :: l' => (Linkedlist l', Some v)
          | [] => (subject, None)
          end
      | REDIS_TAIL =>
          match last l with
          | Some v => (Linkedlist (removelast l), Some v)
          | None => (subject, None)
          end
      end
  end.

Definition tlistLength (lobj : tlist) : nat :=
  match lobj with
  | Ziplist zl => ziplistLen zl
  | Linkedlist l => length l
  end.

(** The list iterator (t_list.c, lines 91-140): the encoding tag, the
    container iterated and the cursor into it ([eptr] or [ln]). *)
Inductive iterlist :=
  | IterZiplist (zl : list zlentry) (eptr : option nat)
  | IterLinkedlist (l : list sobj) (ln : option nat).

(** adlist's listFirst and listNextNode, on positions. *)
Definition listFirst (l : list sobj) : option nat :=
  match l with
  | [] => None
  | _ :: _ => Some 0
  end.

Definition listNextNode (l : list sobj) (p : nat) : option nat :=
  if bool_decide (S p < length l) then Some (S p) else None.

Definition tlistInitIterator (lobj : tlist) : iterlist :=
  match lobj with
  | Ziplist zl => IterZiplist zl (ziplistIndex zl 0)
  | Linkedlist l => IterLinkedlist l (listFirst l)
  end.

(** tlistNext: [Some None] is the return value 0, [Some (Some (it, ele))]
    the return value 1 with the advanced iterator and the literal;
    [None] is the failing redisAssert(ziplistGet(...)) or a dangling
    node. *)
Definition tlistNext (it : iterlist) : option (option (iterlist * rlit)) :=
  match it with
  | IterZiplist zl eptr =>
      match eptr with
      | None => Some None
      | Some p =>
          match ziplistGet zl (Some p) with
          | Some e =>
              Some (Some (IterZiplist zl (ziplistNext zl p), zlentryLit e))
          | None => None
          end
      end
  | IterLinkedlist l ln =>
      match ln with
      | None => Some None
      | Some p =>
          match l !! p with
          | Some v =>
              Some (Some (IterLinkedlist l (listNextNode l p),
                          litFromObject v))
          | None => None
          end
      end
  end.

(** The loop [while (tlistNext(&it,&ele))] collecting the literals; [fuel]
    bounds the number of calls of tlistNext. *)
Fixpoint tlistIterate (fuel : nat) (it : iterlist) : option (list rlit) :=
  match fuel with
  | O => None
  | S fuel =>
      match tlistNext it with
      | None => None
      | Some None => Some []
      | Some (Some (it', ele)) =>
          rest ← tlistIterate fuel it'; Some (ele :: rest)
      end
  end.

(** ** The sorted integer array primitive (intset.c)

    Modelled from the spec: "sorted array of distinct integers" with
    add / remove / find / get / length. *)
Fixpoint intsetInsert (n : Z) (ints : list Z) : list Z :=
  match ints with
  | [] => [n]
  | x :: r => if bool_decide (n < x)%Z then n :: ints else x :: intsetInsert n r
  end.

Definition intsetFind (ints : list Z) (n : Z) : bool :=
  bool_decide (n ∈ ints).

Definition intsetAdd (ints : list Z) (n : Z) : list Z * bool :=
  if intsetFind ints n then (ints, false) else (intsetInsert n ints, true).

Definition intsetRemove (ints : list Z) (n : Z) : list Z * bool :=
  if intsetFind ints n then (filter (λ x, x ≠ n) ints, true)
  else (ints, false).

Definition intsetLen (ints : list Z) : nat := length ints.

(** ** The hash table primitive (dict.c) used as a set

    Modelled from the spec: "hash set of refcounted byte-string values".
    The set dictionary compares keys by their decoded bytes, so the table is
    the finite set of those bytes; its traversal order is [elements]. *)
Definition dictAdd (d : gset string) (o : sobj) : option (gset string) :=
  if bool_decide (getDecodedObject o ∈ d) then None
  else Some ({[getDecodedObject o]} ∪ d).

Definition dictDelete (d : gset string) (o : sobj) : option (gset string) :=
  if bool_decide (getDecodedObject o ∈ d)
  then Some (d ∖ {[getDecodedObject o]}) else None.

Definition dictFind (d : gset string) (o : sobj) : bool :=
  bool_decide (getDecodedObject o ∈ d).

(** ** Set API (t_set.c, lines 7-220) *)

Inductive tset :=
  | Intset (ints : list Z)
  | Hashtable (d : gset string).

Definition tsetEncoding (s : tset) : encoding :=
  match s with
  | Intset _ => REDIS_ENCODING_INTSET
  | Hashtable _ => REDIS_ENCODING_HT
  end.

Definition createIntsetObject : tset := Intset [].
Definition createSetObject : tset := Hashtable ∅.

Definition setTypeCreate (value : sobj) : tset :=
  match isObjectRepresentableAsLongLong value with
  | Some _ => createIntsetObject
  | None => createSetObject
  end.

(** tsetInitIterator / tsetNext: the literals produced until tsetNext
    returns 0. *)
Definition tsetLiterals (s : tset) : list rlit :=
  match s with
  | Intset ints => litFromLongLong <$> ints
  | Hashtable d => (λ e, litFromObject (Raw e)) <$> elements d
  end.

(** The conversion loop: every element is added to the fresh dict under
    redisAssert(dictAdd(...) == DICT_OK). *)
Fixpoint tsetConvertLoop (lits : list rlit) (d : gset string)
  : option (gset string) :=
  match lits with
  | [] => Some d
  | ele :: rest =>
      match dictAdd d (litGetObject ele) with
      | Some d' => tsetConvertLoop rest d'
      | None => None
      end
  end.

Definition tsetConvert (s : tset) (enc : encoding) : option tset :=
  match s with
  | Intset ints =>
      if bool_decide (enc ≠ REDIS_ENCODING_HT) then None
      else d ← tsetConvertLoop (tsetLiterals (Intset ints)) ∅;
           Some (Hashtable d)
  | Hashtable _ => None
  end.

Definition tsetAddLiteral (cf : config) (s : tset) (elelit : rlit)
  : option (tset * bool) :=
  match s with
  | Intset ints =>
      match litGetLongLong elelit with
      | Some llval =>
          let '(ints', success) := intsetAdd ints llval in
          if success then
            if bool_decide (set_max_intset_entries cf < intsetLen ints')
            then s' ← tsetConvert (Intset ints') REDIS_ENCODING_HT;
                 Some (s', true)
            else Some (Intset ints', true)
          else Some (Intset ints', false)
      | None =>
          s' ← tsetConvert (Intset ints) REDIS_ENCODING_HT;
          match s' with
          | Hashtable d =>
              d' ← dictAdd d (litGetObject elelit);
              Some (Hashtable d', true)
          | Intset _ => None
          end
      end
  | Hashtable d =>
      match dictAdd d (litGetObject elelit) with
      | Some d' => Some (Hashtable d', true)
      | None => Some (Hashtable d, false)
      end
  end.

Definition tsetAddObject (cf : config) (s : tset) (eleobj : sobj)
  : option (tset * bool) :=
  tsetAddLiteral cf s (litFromObject eleobj).

Definition tsetRemoveLiteral (s : tset) (elelit : rlit) : tset * bool :=
  match s with
  | Intset ints =>
      match litGetLongLong elelit with
      | Some llval =>
          let '(ints', success) := intsetRemove ints llval in
          (Intset ints', success)
      | None => (Intset ints, false)
      end
  | Hashtable d =>
      match dictDelete d (litGetObject elelit) with
      | Some d' => (Hashtable d', true)
      | None => (Hashtable d, false)
      end
  end.

Definition tsetRemoveObject (s : tset) (eleobj : sobj) : tset * bool :=
  tsetRemoveLiteral s (litFromObject eleobj).

Definition tsetSize (s : tset) : nat :=
  match s with
  | Intset ints => intsetLen ints
  | Hashtable d => size d
  end.

Definition tsetFindLiteral (s : tset) (elelit : rlit) : bool :=
  match s with
  | Intset ints =>
      match litGetLongLong elelit with
      | Some llval => intsetFind ints llval
      | None => false
      end
  | Hashtable d => dictFind d (litGetObject elelit)
  end.

Definition tsetFindObject (s : tset) (eleobj : sobj) : bool :=
  tsetFindLiteral s (litFromObject eleobj).

(** Modelled from the spec: random-element, "for IntSet, pick a uniformly
    random index; for HashSet, pick a uniformly random bucket entry".  [r]
    is the number the random source returns; drawing from an empty
    container divides by zero or yields a NULL entry: [None]. *)
Definition tsetRandomElement (s : tset) (r : nat) : option rlit :=
  match s with
  | Intset ints =>
      if bool_decide (intsetLen ints = 0) then None
      else litFromLongLong <$> ints !! (r mod intsetLen ints)
  | Hashtable d =>
      if bool_decide (size d = 0) then None
      else (λ e, litFromObject (Raw e)) <$> elements d !! (r mod size d)
  end.

(** The set iterator (t_set.c, lines 142-186): the intset with the index
    [ii], or the entry [de] under the dict iterator with the entries the
    iterator has still to return. *)
Inductive iterset :=
  | IterIntset (ints : list Z) (ii : nat)
  | IterHt (de : option string) (di : list string).

(** dict.c: dictNext returns the next entry of the traversal, NULL at its
    end. *)
Definition dictNext (di : list string) : option string * list string :=
  match di with
  | [] => (None, [])
  | e :: rest => (Some e, rest)
  end.

Definition tsetInitIterator (s : tset) : iterset :=
  match s with
  | Intset ints => IterIntset ints 0
  | Hashtable d =>
      let '(de, di) := dictNext (elements d) in IterHt de di
  end.

(** tsetNext: [None] is the return value 0. *)
Definition tsetNext (it : iterset) : option (iterset * rlit) :=
  match it with
  | IterIntset ints ii =>
      match ints !! ii with
      | Some ll => Some (IterIntset ints (S ii), litFromLongLong ll)
      | None => None
      end
  | IterHt de di =>
      match de with
      | Some e =>
          let '(de', di') := dictNext di in
          Some (IterHt de' di', litFromObject (Raw e))
      | None => None
      end
  end.

(** The loop [while (tsetNext(&it,&ele))] collecting the literals. *)
Fixpoint tsetIterate (fuel : nat) (it : iterset) : option (list rlit) :=
  match fuel with
  | O => None
  | S fuel =>
      match tsetNext it with
      | None => Some []
      | Some (it', ele) => rest ← tsetIterate fuel it'; Some (ele :: rest)
      end
  end.

(** ** Keyspace objects, replies, clients and the server state *)

Inductive rtype :=
  | REDIS_STRING | REDIS_LIST | REDIS_SET | REDIS_ZSET | REDIS_HASH.

#[global] Instance rtype_eq_dec : EqDecision rtype.
Proof. solve_decision. Defined.

(** A keyspace object.  Sorted sets and hashes are opaque to the two
    files. *)
Inductive robj :=
  | OString (o : sobj)
  | OList (l : tlist)
  | OSet (s : tset)
  | OZset
  | OHash.

Definition objType (o : robj) : rtype :=
  match o with
  | OString _ => REDIS_STRING
  | OList _ => REDIS_LIST
  | OSet _ => REDIS_SET
  | OZset => REDIS_ZSET
  | OHash => REDIS_HASH
  end.

(** The shared reply singletons (the [shared] structure). *)
Inductive sharedReply :=
  | cone | czero | cnegone | ok | nullbulk | nullmultibulk | emptymultibulk
  | wrongtypeerr | nokeyerr | outofrangeerr | syntaxerr.

(** One call of the reply encoder. *)
Inductive reply :=
  | RShared (r : sharedReply)             (* addReply(c, shared.x) *)
  | RMultiBulkLen (n : Z)                 (* addReplyMultiBulkLen *)
  | RBulk (o : sobj)                      (* addReplyBulk *)
  | RBulkCBuffer (s : string)             (* addReplyBulkCBuffer *)
  | RBulkLongLong (n : Z)                 (* addReplyBulkLongLong *)
  | RBulkLiteral (l : rlit)               (* addReplyBulkLiteral *)
  | RLongLong (n : Z)                     (* addReplyLongLong *)
  | RError (msg : string).                (* addReplyError *)

(** The bytes a bulk reply carries on the wire. *)
Definition bulkPayload (r : reply) : option string :=
  match r with
  | RBulk o => Some (getDecodedObject o)
  | RBulkCBuffer s => Some s
  | RBulkLongLong n => Some (ll2string n)
  | RBulkLiteral l => Some (getDecodedObject (litGetObject l))
  | _ => None
  end.

(** Client flags (redis.h). *)
Definition REDIS_MULTI : Z := 8.
Definition REDIS_BLOCKED : Z := 16.
Definition REDIS_UNBLOCKED : Z := 256.

(** The part of a client structure the two files touch: its flags, the
    blocking state [bpop] and the replies queued for it (oldest first). *)
Record redisClient := mkClient {
  flags : Z;
  bpop_keys : option (list string);
  bpop_timeout : Z;
  bpop_target : option string;
  replies : list reply
}.

(** The server and the database the clients have selected.  A client and a
    blocked client it serves always share their database, so one database is
    modelled.  [signalled] records the keys passed to signalModifiedKey and
    [unixtime] is what time(NULL) returns. *)
Record redisServer := mkServer {
  db : gmap string robj;
  blocking_keys : gmap string (list nat);
  clients : gmap nat redisClient;
  dirty : Z;
  bpop_blocked_clients : Z;
  unblocked_clients : list nat;
  signalled : list string;
  conf : config;
  unixtime : Z
}.

Definition setDb (f : gmap string robj → gmap string robj) (st : redisServer)
  : redisServer :=
  mkServer (f (db st)) (blocking_keys st) (clients st) (dirty st)
    (bpop_blocked_clients st) (unblocked_clients st) (signalled st)
    (conf st) (unixtime st).

Definition setBlockingKeys (bk : gmap string (list nat)) (st : redisServer)
  : redisServer :=
  mkServer (db st) bk (clients st) (dirty st)
    (bpop_blocked_clients st) (unblocked_clients st) (signalled st)
    (conf st) (unixtime st).

Definition setClients (f : gmap nat redisClient → gmap nat redisClient)
  (st : redisServer) : redisServer :=
  mkServer (db st) (blocking_keys st) (f (clients st)) (dirty st)
    (bpop_blocked_clients st) (unblocked_clients st) (signalled st)
    (conf st) (unixtime st).

Definition incrDirty (st : redisServer) : redisServer :=
  mkServer (db st) (blocking_keys st) (clients st) (dirty st + 1)%Z
    (bpop_blocked_clients st) (unblocked_clients st) (signalled st)
    (conf st) (unixtime st).

Definition signalModifiedKey (key : string) (st : redisServer) : redisServer :=
  mkServer (db st) (blocking_keys st) (clients st) (dirty st)
    (bpop_blocked_clients st) (unblocked_clients st) (signalled st ++ [key])
    (conf st) (unixtime st).

Definition addReply (c : nat) (r : reply) (st : redisServer) : redisServer :=
  setClients
    (alter (λ cl, mkClient (flags cl) (bpop_keys cl) (bpop_timeout cl)
                    (bpop_target cl) (replies cl ++ [r])) c) st.

Definition addReplyBulk (c : nat) (o : sobj) := addReply c (RBulk o).
Definition addReplyLongLong (c : nat) (n : Z) := addReply c (RLongLong n).
Definition addReplyMultiBulkLen (c : nat) (n : Z) :=
  addReply c (RMultiBulkLen n).

(** The replies queued for a client. *)
Definition clientReplies (c : nat) (st : redisServer) : list reply :=
  match clients st !! c with
  | Some cl => replies cl
  | None => []
  end.

(** db.c: lookupKeyRead / lookupKeyWrite are [db st !! key]; dbAdd asserts
    the key is new; dbDelete tells whether the key existed. *)
Definition dbAdd (key : string) (o : robj) (st : redisServer)
  : option redisServer :=
  match db st !! key with
  | Some _ => None
  | None => Some (setDb (insert key o) st)
  end.

Definition dbDelete (key : string) (st : redisServer) : redisServer :=
  setDb (delete key) st.

(** Writing through a pointer to the list or set stored under [key]. *)
Definition storeList (key : string) (l : tlist) (st : redisServer)
  : redisServer :=
  setDb (insert key (OList l)) st.

Definition storeSet (key : string) (s : tset) (st : redisServer)
  : redisServer :=
  setDb (insert key (OSet s)) st.

(** Dereferencing a pointer to a list object: the list now stored under the
    key it was looked up under. *)
Definition derefList (key : string) (st : redisServer) : option tlist :=
  match db st !! key with
  | Some (OList l) => Some l
  | _ => None
  end.

(** ** Blocking operations: the registry of waiting clients
    (t_list.c, lines 705-836) *)

Fixpoint blockForKeysLoop (c : nat) (keys : list string)
  (bk : gmap string (list nat)) : gmap string (list nat) :=
  match keys with
  | [] => bk
  | k :: rest =>
      let l := match bk !! k with Some l => l | None => [] end in
      blockForKeysLoop c rest (<[k := l ++ [c]]> bk)
  end.

Definition blockForKeys (c : nat) (keys : list string) (timeout : Z)
  (target : option string) (st : redisServer) : redisServer :=
  mkServer (db st)
    (blockForKeysLoop c keys (blocking_keys st))
    (alter (λ cl, mkClient (Z.lor (flags cl) REDIS_BLOCKED) (Some keys)
                    timeout target (replies cl)) c (clients st))
    (dirty st) (bpop_blocked_clients st + 1)%Z (unblocked_clients st)
    (signalled st) (conf st) (unixtime st).

(** The loop of unblockClientWaitingData over the keys the client waits
    for.  A key without an entry fails redisAssert(de != NULL). *)
Fixpoint unblockKeysLoop (c : nat) (keys : list string)
  (bk : gmap string (list nat)) : option (gmap string (list nat)) :=
  match keys with
  | [] => Some bk
  | k :: rest =>
      match bk !! k with
      | None => None
      | Some l =>
          match listDelFirst c l with
          | None => None
          | Some l' =>
              unblockKeysLoop c rest
                (if bool_decide (length l' = 0) then delete k bk
                 else <[k := l']> bk)
          end
      end
  end.

Definition unblockClientWaitingData (c : nat) (st : redisServer)
  : option redisServer :=
  cl ← clients st !! c;
  keys ← bpop_keys cl;
  bk ← unblockKeysLoop c keys (blocking_keys st);
  Some (mkServer (db st) bk
          (<[c := mkClient
                    (Z.lor (Z.land (flags cl) (Z.lnot REDIS_BLOCKED))
                       REDIS_UNBLOCKED)
                    None (bpop_timeout cl) None (replies cl)]> (clients st))
          (dirty st) (bpop_blocked_clients st - 1)%Z
          (unblocked_clients st ++ [c])
          (signalled st) (conf st) (unixtime st)).

Definition createZiplistObject : tlist := Ziplist [].

(** tlistPush on the list object stored under [key]. *)
Definition pushTo (key : string) (value : sobj) (whr : lwhere)
  (st : redisServer) : option redisServer :=
  lobj ← derefList key st;
  lobj' ← tlistPush (conf st) lobj value whr;
  Some (storeList key lobj' st).

(** rpoplpushHandlePush (lines 632-647), open in the function it calls back:
    handleClientsWaitingListPush. *)
Definition rpoplpushHandlePushWith
  (handle : nat → string → sobj → redisServer
            → option (bool * redisServer))
  (c : nat) (dstkey : string) (dstobj : option robj) (value : sobj)
  (st : redisServer) : option redisServer :=
  '(served, st) ← handle c dstkey value st;
  st ← (if (served : bool) then Some st
        else
          st ← match dstobj with
               | None => dbAdd dstkey (OList createZiplistObject) st
               | Some _ => Some (incrDirty (signalModifiedKey dstkey st))
               end;
          pushTo dstkey value REDIS_HEAD st);
  Some (addReplyBulk c value st).

(** The loop [while (numclients--)] of handleClientsWaitingListPush.
    [clients] is the list stored under [key]; unblocking deletes that list
    when it gets empty, so reading its head then is a failing assertion.
    redisAssert(ln != listFirst(clients)) holds exactly when unblocking
    removed the head node, that is when the list got shorter. *)
Fixpoint waitingLoop
  (handle : nat → string → sobj → redisServer
            → option (bool * redisServer))
  (key : string) (ele : sobj) (numclients : nat) (st : redisServer)
  : option (bool * redisServer) :=
  match numclients with
  | O => Some (false, st)
  | S numclients =>
      match blocking_keys st !! key with
      | Some (receiver :: waiting) =>
          rc ← clients st !! receiver;
          let dstkey := bpop_target rc in
          st ← unblockClientWaitingData receiver st;
          if bool_decide (length (default [] (blocking_keys st !! key))
                          < length (receiver :: waiting)) then
            match dstkey with
            | None =>
                Some (true,
                      addReplyBulk receiver ele
                        (addReplyBulk receiver (Raw key)
                           (addReplyMultiBulkLen receiver 2 st)))
            | Some dstkey =>
                let dstobj := db st !! dstkey in
                match dstobj with
                | None | Some (OList _) =>
                    st ← rpoplpushHandlePushWith handle receiver dstkey
                           dstobj ele st;
                    Some (true, st)
                | Some _ =>
                    waitingLoop handle key ele numclients
                      (addReply receiver (RShared wrongtypeerr) st)
                end
            end
          else None
      | _ => None
      end
  end.

(** handleClientsWaitingListPush (lines 786-836).  It calls itself through
    rpoplpushHandlePush; every such call comes after a client was unblocked,
    and [fuel] bounds the depth of the calls. *)
Fixpoint handleClientsWaitingListPush (fuel : nat) (c : nat) (key : string)
  (ele : sobj) (st : redisServer) : option (bool * redisServer) :=
  match fuel with
  | O => None
  | S fuel =>
      match blocking_keys st !! key with
      | None => Some (false, st)
      | Some waiting =>
          waitingLoop (handleClientsWaitingListPush fuel) key ele
            (length waiting) st
      end
  end.

Definition rpoplpushHandlePush (fuel : nat) :=
  rpoplpushHandlePushWith (handleClientsWaitingListPush fuel).

(** ** List commands (t_list.c, lines 179-670) *)

(** Lines 200-203 of pushGenericCommand. *)
Definition pushGenericStore (c : nat) (key : string) (ele : sobj)
  (whr : lwhere) (st : redisServer) : option redisServer :=
  st ← pushTo key ele whr st;
  lobj ← derefList key st;
  Some (incrDirty
          (signalModifiedKey key
             (addReplyLongLong c (Z.of_nat (tlistLength lobj)) st))).

Definition pushGenericCommand (fuel : nat) (c : nat) (key : string)
  (val : sobj) (whr : lwhere) (st : redisServer) : option redisServer :=
  let lobj := db st !! key in
  let ele := tryObjectEncoding val in
  match lobj with
  | None =>
      '(served, st) ← handleClientsWaitingListPush fuel c key ele st;
      if (served : bool) then Some (addReply c (RShared cone) st)
      else
        st ← dbAdd key (OList createZiplistObject) st;
        pushGenericStore c key ele whr st
  | Some (OList _) =>
      '(served, st) ← handleClientsWaitingListPush fuel c key ele st;
      if (served : bool)
      then Some (addReply c (RShared cone) (signalModifiedKey key st))
      else pushGenericStore c key ele whr st
  | Some _ => Some (addReply c (RShared wrongtypeerr) st)
  end.

Definition lpushCommand (fuel c : nat) (key : string) (val : sobj) :=
  pushGenericCommand fuel c key val REDIS_HEAD.

Definition rpushCommand (fuel c : nat) (key : string) (val : sobj) :=
  pushGenericCommand fuel c key val REDIS_TAIL.

Definition popGenericCommand (c : nat) (key : string) (whr : lwhere)
  (st : redisServer) : redisServer :=
  match db st !! key with
  | None => addReply c (RShared nullbulk) st
  | Some (OList o) =>
      match tlistPop o whr with
      | (_, None) => addReply c (RShared nullbulk) st
      | (o', Some value) =>
          let st := addReplyBulk c value (storeList key o' st) in
          let st := if bool_decide (tlistLength o' = 0) then dbDelete key st
                    else st in
          incrDirty (signalModifiedKey key st)
      end
  | Some _ => addReply c (RShared wrongtypeerr) st
  end.

Definition lpopCommand (c : nat) (key : string) :=
  popGenericCommand c key REDIS_HEAD.

Definition rpopCommand (c : nat) (key : string) :=
  popGenericCommand c key REDIS_TAIL.

(** rpoplpushCommand (lines 649-670). *)
Definition rpoplpushCommand (fuel : nat) (c : nat) (src dst : string)
  (st : redisServer) : option redisServer :=
  match db st !! src with
  | None => Some (addReply c (RShared nullbulk) st)
  | Some (OList sobj0) =>
      if bool_decide (tlistLength sobj0 = 0)
      then Some (addReply c (RShared nullbulk) st)
      else
        let dobj := db st !! dst in
        match dobj with
        | None | Some (OList _) =>
            match tlistPop sobj0 REDIS_TAIL with
            | (_, None) => None
            | (sobj1, Some value) =>
                st ← rpoplpushHandlePush fuel c dst dobj value
                       (storeList src sobj1 st);
                sobj2 ← derefList src st;
                let st := if bool_decide (tlistLength sobj2 = 0)
                          then dbDelete src st else st in
                Some (incrDirty (signalModifiedKey src st))
            end
        | Some _ => Some (addReply c (RShared wrongtypeerr) st)
        end
  | Some _ => Some (addReply c (RShared wrongtypeerr) st)
  end.

(** The C type int: a 32-bit two's complement value. *)
Definition INT_MIN : Z := (- 2 ^ 31)%Z.
Definition INT_MAX : Z := (2 ^ 31 - 1)%Z.

Definition toInt (z : Z) : Z := ((z + 2 ^ 31) mod 2 ^ 32 - 2 ^ 31)%Z.

(** The index normalisation shared by LRANGE and LTRIM (lines 443-454 and
    499-511): [None] is the empty range, otherwise the resolved start and
    end. *)
Definition normalizeRange (llen start end_ : Z) : option (Z * Z) :=
  let start := if bool_decide (start < 0)%Z then toInt (llen + start)
               else start in
  let end_ := if bool_decide (end_ < 0)%Z then toInt (llen + end_)
              else end_ in
  let start := if bool_decide (start < 0)%Z then 0%Z else start in
  if bool_decide (end_ < start ∨ llen ≤ start)%Z then None
  else
    let end_ := if bool_decide (llen ≤ end_)%Z then toInt (llen - 1)
                else end_ in
    Some (start, end_).

Definition addReplies (c : nat) (rs : list reply) (st : redisServer)
  : redisServer :=
  foldl (λ st r, addReply c r st) st rs.

Definition zlentryReply (e : zlentry) : reply :=
  match e with
  | ZStr s => RBulkCBuffer s
  | ZInt n => RBulkLongLong n
  end.

(** [while (rangelen--)] over a ziplist: reading at a NULL cursor is
    undefined. *)
Fixpoint lrangeZiplistLoop (zl : list zlentry) (rangelen : nat)
  (p : option nat) : option (list reply) :=
  match rangelen with
  | O => Some []
  | S n =>
      match p with
      | Some i =>
          match zl !! i with
          | Some e =>
              rest ← lrangeZiplistLoop zl n (ziplistNext zl i);
              Some (zlentryReply e :: rest)
          | None => None
          end
      | None => None
      end
  end.

(** The same loop over a linked list, [ln = ln->next]. *)
Fixpoint lrangeListLoop (l : list sobj) (rangelen : nat) (ln : option nat)
  : option (list reply) :=
  match rangelen with
  | O => Some []
  | S n =>
      match ln with
      | Some i =>
          match l !! i with
          | Some v =>
              rest ← lrangeListLoop l n
                       (if bool_decide (S i < length l) then Some (S i)
                        else None);
              Some (RBulk v :: rest)
          | None => None
          end
      | None => None
      end
  end.

(** lrangeCommand (lines 432-484); [start] and [end_] are the values of
    atoi on the two arguments.  [while(rangelen--)] with a negative count
    would walk past the end of the list: [None]. *)
Definition lrangeCommand (c : nat) (key : string) (start end_ : Z)
  (st : redisServer) : option redisServer :=
  match db st !! key with
  | None => Some (addReply c (RShared emptymultibulk) st)
  | Some (OList o) =>
      let llen := toInt (Z.of_nat (tlistLength o)) in
      match normalizeRange llen start end_ with
      | None => Some (addReply c (RShared emptymultibulk) st)
      | Some (start, end_) =>
          let rangelen := toInt (toInt (end_ - start) + 1) in
          if bool_decide (rangelen < 0)%Z then None
          else
            let st := addReplyMultiBulkLen c rangelen st in
            rs ← match o with
                 | Ziplist zl =>
                     lrangeZiplistLoop zl (Z.to_nat rangelen)
                       (ziplistIndex zl start)
                 | Linkedlist l =>
                     lrangeListLoop l (Z.to_nat rangelen) (listIndex l start)
                 end;
            Some (addReplies c rs st)
      end
  | Some _ => Some (addReply c (RShared wrongtypeerr) st)
  end.

(** The trimming of ltrimCommand (lines 499-532) on the list object. *)
Definition ltrimList (o : tlist) (start end_ : Z) : tlist :=
  let llen := toInt (Z.of_nat (tlistLength o)) in
  let '(ltrim, rtrim) :=
    match normalizeRange llen start end_ with
    | None => (llen, 0%Z)
    | Some (start, end_) => (start, toInt (toInt (llen - end_) - 1))
    end in
  match o with
  | Ziplist zl =>
      let zl := ziplistDeleteRange zl 0 (Z.to_nat ltrim) in
      Ziplist (ziplistDeleteRange zl (- rtrim) (Z.to_nat rtrim))
  | Linkedlist l =>
      let l := drop (Z.to_nat ltrim) l in
      Linkedlist (take (length l - Z.to_nat rtrim) l)
  end.

Definition ltrimCommand (c : nat) (key : string) (start end_ : Z)
  (st : redisServer) : redisServer :=
  match db st !! key with
  | None => addReply c (RShared ok) st
  | Some (OList o) =>
      let o' := ltrimList o start end_ in
      let st := storeList key o' st in
      let st := if bool_decide (tlistLength o' = 0) then dbDelete key st
                else st in
      addReply c (RShared ok) (incrDirty (signalModifiedKey key st))
  | Some _ => addReply c (RShared wrongtypeerr) st
  end.

(** The scan of lremCommand (lines 563-582 and 593-606) from the head:
    entries equal to the element are deleted while fewer than [toremove]
    were removed ([toremove = 0] removes all).  The scan from the tail is
    this scan on the reversed sequence.  The ziplist branch compares with
    the bytes of the argument as received, the linked list branch with
    the argument after tryObjectEncoding. *)
Fixpoint lremScan {A} (eq : A → bool) (toremove removed : Z) (l : list A)
  : list A * Z :=
  match l with
  | [] => ([], removed)
  | x :: rest =>
      if bool_decide (toremove = 0 ∨ removed < toremove)%Z then
        if eq x then lremScan eq toremove (removed + 1)%Z rest
        else let '(r, n) := lremScan eq toremove removed rest in (x :: r, n)
      else (l, removed)
  end.

Definition lremList (o : tlist) (toremove : Z) (ele : sobj) : tlist * Z :=
  let reverse := bool_decide (toremove < 0)%Z in
  let toremove := if reverse then toInt (- toremove) else toremove in
  let scan {A} (eq : A → bool) (l : list A) :=
    if reverse
    then (let '(r, n) := lremScan eq toremove 0 (rev l) in (rev r, n))
    else lremScan eq toremove 0 l in
  match o with
  | Ziplist zl =>
      let '(zl', n) :=
        scan (λ e, ziplistCompare e (getDecodedObject ele)) zl in
      (Ziplist zl', n)
  | Linkedlist l =>
      let '(l', n) :=
        scan (λ v, equalStringObjects v (tryObjectEncoding ele)) l in
      (Linkedlist l', n)
  end.

Definition lremCommand (c : nat) (key : string) (toremove : Z) (ele : sobj)
  (st : redisServer) : redisServer :=
  match db st !! key with
  | None => addReply c (RShared czero) st
  | Some (OList lobj) =>
      let '(lobj', removed) := lremList lobj toremove ele in
      let st := storeList key lobj' st in
      let st := Nat.iter (Z.to_nat removed) incrDirty st in
      let st := if bool_decide (tlistLength lobj' = 0) then dbDelete key st
                else st in
      let st := addReplyLongLong c removed st in
      if bool_decide (removed ≠ 0%Z) then signalModifiedKey key st else st
  | Some _ => addReply c (RShared wrongtypeerr) st
  end.

(** The store of lsetCommand (lines 376-405) on the list object: the list
    after the call and whether the index addressed an element. *)
Definition lsetList (cf : config) (o : tlist) (index : Z) (value : sobj)
  : option (tlist * bool) :=
  o ← tlistTryConversion cf o value;
  match o with
  | Ziplist zl =>
      match ziplistIndex zl index with
      | None => Some (o, false)
      | Some p =>
          Some (Ziplist (ziplistInsert (ziplistDelete zl p) p
                           (getDecodedObject value)), true)
      end
  | Linkedlist l =>
      match listIndex l index with
      | None => Some (o, false)
      | Some p => Some (Linkedlist (<[p := value]> l), true)
      end
  end.

Definition lsetCommand (c : nat) (key : string) (index : Z) (val : sobj)
  (st : redisServer) : option redisServer :=
  match db st !! key with
  | None => Some (addReply c (RShared nokeyerr) st)
  | Some (OList o) =>
      let value := tryObjectEncoding val in
      '(o', found) ← lsetList (conf st) o index value;
      let st := storeList key o' st in
      if (found : bool)
      then Some (incrDirty (signalModifiedKey key (addReply c (RShared ok) st)))
      else Some (addReply c (RShared outofrangeerr) st)
  | Some _ => Some (addReply c (RShared wrongtypeerr) st)
  end.

(** The insertion of pushxGenericCommand next to a pivot (lines 225-289) on
    the list object: the list after the call and whether the pivot was
    found. *)
Definition linsertList (cf : config) (lobj : tlist) (refval val : sobj)
  (whr : lwhere) : option (tlist * bool) :=
  match refval with
  | IntEnc _ => None
  | Raw pivot =>
      lobj ← tlistTryConversion cf lobj val;
      match lobj with
      | Ziplist zl =>
          let rawval := getDecodedObject val in
          match list_find (λ e, ziplistCompare e pivot = true) zl with
          | Some (p, _) =>
              let zl' :=
                match whr with
                | REDIS_TAIL =>
                    match ziplistNext zl p with
                    | Some q => ziplistInsert zl q rawval
                    | None => ziplistPush zl rawval ZIPLIST_TAIL
                    end
                | REDIS_HEAD => ziplistInsert zl p rawval
                end in
              lobj' ← (if bool_decide (list_max_ziplist_entries cf
                                       < ziplistLen zl')
                       then tlistConvert (Ziplist zl') REDIS_ENCODING_LINKEDLIST
                       else Some (Ziplist zl'));
              Some (lobj', true)
          | None => Some (lobj, false)
          end
      | Linkedlist l =>
          match list_find (λ v, equalStringObjects v refval = true) l with
          | Some (p, _) =>
              Some (Linkedlist
                      (listInsertNode l p val
                         (match whr with
                          | REDIS_TAIL => AL_START_TAIL
                          | REDIS_HEAD => AL_START_HEAD
                          end)), true)
          | None => Some (lobj, false)
          end
      end
  end.

(** pushxGenericCommand (lines 214-305): LPUSHX / RPUSHX pass no pivot,
    LINSERT passes one. *)
Definition pushxGenericCommand (c : nat) (key : string)
  (refval : option sobj) (val : sobj) (whr : lwhere) (st : redisServer)
  : option redisServer :=
  match db st !! key with
  | None => Some (addReply c (RShared czero) st)
  | Some (OList lobj) =>
      match refval with
      | Some refval =>
          '(lobj', inserted) ← linsertList (conf st) lobj refval val whr;
          let st := storeList key lobj' st in
          if (inserted : bool)
          then Some (addReplyLongLong c (Z.of_nat (tlistLength lobj'))
                       (incrDirty (signalModifiedKey key st)))
          else Some (addReply c (RShared cnegone) st)
      | None =>
          lobj' ← tlistPush (conf st) lobj val whr;
          Some (addReplyLongLong c (Z.of_nat (tlistLength lobj'))
                  (incrDirty (signalModifiedKey key (storeList key lobj' st))))
      end
  | Some _ => Some (addReply c (RShared wrongtypeerr) st)
  end.

Definition lpushxCommand (c : nat) (key : string) (val : sobj) :=
  pushxGenericCommand c key None (tryObjectEncoding val) REDIS_HEAD.

Definition rpushxCommand (c : nat) (key : string) (val : sobj) :=
  pushxGenericCommand c key None (tryObjectEncoding val) REDIS_TAIL.

(** libc: a C string ends at its first NUL byte; tolower in the C locale;
    [strcaseeq a b] is [strcasecmp(a, b) == 0]. *)
Fixpoint cstring (s : string) : string :=
  match s with
  | EmptyString => EmptyString
  | String a rest =>
      if bool_decide (a = Ascii.zero) then EmptyString
      else String a (cstring rest)
  end.

Definition tolower (a : Ascii.ascii) : Ascii.ascii :=
  let n := Ascii.nat_of_ascii a in
  if bool_decide (65 ≤ n ≤ 90) then Ascii.ascii_of_nat (n + 32) else a.

Fixpoint strcaseeqLoop (a b : string) : bool :=
  match a, b with
  | EmptyString, EmptyString => true
  | String x a', String y b' =>
      bool_decide (tolower x = tolower y) && strcaseeqLoop a' b'
  | _, _ => false
  end.

Definition strcaseeq (a b : string) : bool :=
  strcaseeqLoop (cstring a) (cstring b).

(** linsertCommand (lines 317-326): argv[2] is the direction word, argv[3]
    the pivot and argv[4] the value. *)
Definition linsertCommand (c : nat) (key direction : string)
  (pivot val : sobj) (st : redisServer) : option redisServer :=
  let val := tryObjectEncoding val in
  if strcaseeq direction "after"
  then pushxGenericCommand c key (Some pivot) val REDIS_TAIL st
  else if strcaseeq direction "before"
  then pushxGenericCommand c key (Some pivot) val REDIS_HEAD st
  else Some (addReply c (RShared syntaxerr) st).

Definition llenCommand (c : nat) (key : string) (st : redisServer)
  : redisServer :=
  match db st !! key with
  | None => addReply c (RShared czero) st
  | Some (OList o) => addReplyLongLong c (Z.of_nat (tlistLength o)) st
  | Some _ => addReply c (RShared wrongtypeerr) st
  end.

(** lindexCommand (lines 334-368); [index] is the value of atoi on the
    argument. *)
Definition lindexCommand (c : nat) (key : string) (index : Z)
  (st : redisServer) : option redisServer :=
  match db st !! key with
  | None => Some (addReply c (RShared nullbulk) st)
  | Some (OList o) =>
      match o with
      | Ziplist zl =>
          match ziplistGet zl (ziplistIndex zl index) with
          | Some (ZStr s) => Some (addReplyBulk c (createStringObject s) st)
          | Some (ZInt n) =>
              Some (addReplyBulk c (createStringObjectFromLongLong n) st)
          | None => Some (addReply c (RShared nullbulk) st)
          end
      | Linkedlist l =>
          match listIndex l index with
          | Some p => value ← l !! p; Some (addReplyBulk c value st)
          | None => Some (addReply c (RShared nullbulk) st)
          end
      end
  | Some _ => Some (addReply c (RShared wrongtypeerr) st)
  end.

(** ** Blocking pops (t_list.c, lines 838-954) *)

(** Modelled from the spec: getLongFromObject, "integer seconds". *)
Definition getLongFromObject (o : sobj) : option Z :=
  isObjectRepresentableAsLongLong o.

(** [inl] carries the state after the error reply, [inr] the deadline. *)
Definition getTimeoutFromObjectOrReply (c : nat) (object : sobj)
  (st : redisServer) : redisServer + Z :=
  match getLongFromObject object with
  | None =>
      inl (addReply c (RError "timeout is not an integer or out of range") st)
  | Some tval =>
      if bool_decide (tval < 0)%Z
      then inl (addReply c (RError "timeout is negative") st)
      else inr (if bool_decide (0 < tval)%Z then (tval + unixtime st)%Z
                else tval)
  end.

(** The loop of blockingPopGenericCommand over the keys (lines 865-904):
    [Some] is the state when the loop returned from the command, [None]
    means the loop ran to its end. *)
Fixpoint blockingPopScan (c : nat) (keys : list string) (whr : lwhere)
  (st : redisServer) : option redisServer :=
  match keys with
  | [] => None
  | k :: rest =>
      match db st !! k with
      | None => blockingPopScan c rest whr st
      | Some (OList o) =>
          if bool_decide (tlistLength o ≠ 0) then
            Some (popGenericCommand c k whr
                    (addReplyBulk c (Raw k) (addReplyMultiBulkLen c 2 st)))
          else blockingPopScan c rest whr st
      | Some _ => Some (addReply c (RShared wrongtypeerr) st)
      end
  end.

Definition blockingPopGenericCommand (c : nat) (keys : list string)
  (timeoutArg : sobj) (whr : lwhere) (st : redisServer)
  : option redisServer :=
  match getTimeoutFromObjectOrReply c timeoutArg st with
  | inl st' => Some st'
  | inr timeout =>
      match blockingPopScan c keys whr st with
      | Some st' => Some st'
      | None =>
          cl ← clients st !! c;
          if bool_decide (Z.land (flags cl) REDIS_MULTI ≠ 0%Z)
          then Some (addReply c (RShared nullmultibulk) st)
          else Some (blockForKeys c keys timeout None st)
      end
  end.

Definition blpopCommand (c : nat) (keys : list string) (timeoutArg : sobj) :=
  blockingPopGenericCommand c keys timeoutArg REDIS_HEAD.


Definition brpoplpushCommand (fuel : nat) (c : nat) (src dst : string)
  (timeoutArg : sobj) (st : redisServer) : option redisServer :=
  match getTimeoutFromObjectOrReply c timeoutArg st with
  | inl st' => Some st'
  | inr timeout =>
      match db st !! src with
      | None =>
          cl ← clients st !! c;
          if bool_decide (Z.land (flags cl) REDIS_MULTI ≠ 0%Z)
          then Some (addReply c (RShared nullbulk) st)
          else Some (blockForKeys c [src] timeout (Some dst) st)
      | Some (OList o) =>
          if bool_decide (0 < tlistLength o)
          then rpoplpushCommand fuel c src dst st
          else None
      | Some _ => Some (addReply c (RShared wrongtypeerr) st)
      end
  end.

(** ** Set commands (t_set.c, lines 226-584) *)

Definition derefSet (key : string) (st : redisServer) : option tset :=
  match db st !! key with
  | Some (OSet s) => Some s
  | _ => None
  end.

(** Lines 240-246 of saddCommand. *)
Definition saddStore (c : nat) (key : string) (ele : sobj)
  (st : redisServer) : option redisServer :=
  s ← derefSet key st;
  '(s', added) ← tsetAddObject (conf st) s ele;
  let st := storeSet key s' st in
  if (added : bool)
  then Some (addReply c (RShared cone)
               (incrDirty (signalModifiedKey key st)))
  else Some (addReply c (RShared czero) st).

Definition saddCommand (c : nat) (key : string) (val : sobj)
  (st : redisServer) : option redisServer :=
  let set := db st !! key in
  let ele := tryObjectEncoding val in
  match set with
  | None =>
      st ← dbAdd key (OSet (setTypeCreate ele)) st;
      saddStore c key ele st
  | Some (OSet _) => saddStore c key ele st
  | Some _ => Some (addReply c (RShared wrongtypeerr) st)
  end.

Definition sremCommand (c : nat) (key : string) (val : sobj)
  (st : redisServer) : redisServer :=
  match db st !! key with
  | None => addReply c (RShared czero) st
  | Some (OSet set) =>
      let ele := tryObjectEncoding val in
      match tsetRemoveObject set ele with
      | (set', true) =>
          let st := storeSet key set' st in
          let st := if bool_decide (tsetSize set' = 0) then dbDelete key st
                    else st in
          addReply c (RShared cone) (incrDirty (signalModifiedKey key st))
      | (_, false) => addReply c (RShared czero) st
      end
  | Some _ => addReply c (RShared wrongtypeerr) st
  end.

(** smoveCommand (lines 266-310).  [srcset == dstset] compares two pointers
    into the keyspace; distinct keys hold distinct objects, so the pointers
    are equal exactly when both keys are the same key. *)
Definition smoveCommand (c : nat) (src dst : string) (val : sobj)
  (st : redisServer) : option redisServer :=
  let srcset := db st !! src in
  let dstset := db st !! dst in
  let ele := tryObjectEncoding val in
  match srcset with
  | None => Some (addReply c (RShared czero) st)
  | Some (OSet s) =>
      match dstset with
      | None | Some (OSet _) =>
          if bool_decide (src = dst)
          then Some (addReply c (RShared cone) st)
          else
            match tsetRemoveObject s ele with
            | (_, false) => Some (addReply c (RShared czero) st)
            | (s', true) =>
                let st := storeSet src s' st in
                let st := if bool_decide (tsetSize s' = 0)
                          then dbDelete src st else st in
                let st := incrDirty (signalModifiedKey dst
                                       (signalModifiedKey src st)) in
                st ← match dstset with
                     | None => dbAdd dst (OSet (setTypeCreate ele)) st
                     | Some _ => Some st
                     end;
                d ← derefSet dst st;
                '(d', added) ← tsetAddObject (conf st) d ele;
                let st := storeSet dst d' st in
                let st := if (added : bool) then incrDirty st else st in
                Some (addReply c (RShared cone) st)
            end
      | Some _ => Some (addReply c (RShared wrongtypeerr) st)
      end
  | Some _ => Some (addReply c (RShared wrongtypeerr) st)
  end.

Definition sismemberCommand (c : nat) (key : string) (val : sobj)
  (st : redisServer) : redisServer :=
  match db st !! key with
  | None => addReply c (RShared czero) st
  | Some (OSet set) =>
      if tsetFindObject set val then addReply c (RShared cone) st
      else addReply c (RShared czero) st
  | Some _ => addReply c (RShared wrongtypeerr) st
  end.

Definition scardCommand (c : nat) (key : string) (st : redisServer)
  : redisServer :=
  match db st !! key with
  | None => addReply c (RShared czero) st
  | Some (OSet o) => addReplyLongLong c (Z.of_nat (tsetSize o)) st
  | Some _ => addReply c (RShared wrongtypeerr) st
  end.

(** spopCommand (lines 333-369).  [argv0] is the command name the client
    sent and [r] the number drawn by the random source.  The result carries
    the argument vector the command leaves in the client for replication:
    SREM key element. *)
Definition spopCommand (c : nat) (argv0 key : string) (r : nat)
  (st : redisServer) : option (redisServer * option (list sobj)) :=
  match db st !! key with
  | None => Some (addReply c (RShared nullbulk) st, None)
  | Some (OSet sobj0) =>
      elelit ← tsetRandomElement sobj0 r;
      let eleobj := litGetObject elelit in
      match tsetRemoveLiteral sobj0 elelit with
      | (_, false) => None
      | (sobj1, true) =>
          if bool_decide (String.length argv0 = 4) then
            let st := storeSet key sobj1 st in
            let st := addReplyBulk c eleobj st in
            let st := if bool_decide (tsetSize sobj1 = 0)
                      then dbDelete key st else st in
            Some (incrDirty (signalModifiedKey key st),
                  Some [Raw "SREM"; Raw key; eleobj])
          else None
      end
  | Some _ => Some (addReply c (RShared wrongtypeerr) st, None)
  end.

Definition srandmemberCommand (c : nat) (key : string) (r : nat)
  (st : redisServer) : option redisServer :=
  match db st !! key with
  | None => Some (addReply c (RShared nullbulk) st)
  | Some (OSet sobj0) =>
      elelit ← tsetRandomElement sobj0 r;
      Some (addReply c (RBulkLiteral elelit) st)
  | Some _ => Some (addReply c (RShared wrongtypeerr) st)
  end.

(** The outcome of the lookup loop of sinterGenericCommand (lines
    395-417). *)
Inductive sinterLookupResult :=
  | SinterMissing
  | SinterWrongType
  | SinterSets (sets : list tset).

Fixpoint sinterLookup (d : gmap string robj) (setkeys : list string)
  : sinterLookupResult :=
  match setkeys with
  | [] => SinterSets []
  | k :: rest =>
      match d !! k with
      | None => SinterMissing
      | Some (OSet s) =>
          match sinterLookup d rest with
          | SinterSets sets => SinterSets (s :: sets)
          | r => r
          end
      | Some _ => SinterWrongType
      end
  end.

(** qsort with qsortCompareSetsByCardinality: ascending cardinality.  The C
    library leaves the order of sets of equal cardinality open; the merge
    sort is one such order. *)
Definition cardinalityLe (a b : tset) : Prop := tsetSize a ≤ tsetSize b.

#[global] Instance cardinalityLe_dec : RelDecision cardinalityLe.
Proof. intros a b. unfold cardinalityLe. apply _. Defined.

Definition sortSetsByCardinality (sets : list tset) : list tset :=
  merge_sort cardinalityLe sets.

(** The scan of the smallest set (lines 438-458) when storing: elements
    found in all other sets are added to [dstset]. *)
Fixpoint sinterStoreLoop (cf : config) (others : list tset)
  (lits : list rlit) (dstset : tset) : option tset :=
  match lits with
  | [] => Some dstset
  | ele :: rest =>
      if forallb (λ s, tsetFindLiteral s ele) others
      then '(dstset', _) ← tsetAddLiteral cf dstset ele;
           sinterStoreLoop cf others rest dstset'
      else sinterStoreLoop cf others rest dstset
  end.

(** The same scan when replying: the elements to send, in order. *)
Definition sinterReplyLoop (others : list tset) (lits : list rlit)
  : list rlit :=
  filter (λ ele, forallb (λ s, tsetFindLiteral s ele) others = true) lits.

(** Lines 460-472 and 553-565: storing a result set under [dstkey]. *)
Definition storeResult (c : nat) (dstkey : string) (dstset : tset)
  (st : redisServer) : option redisServer :=
  let st := dbDelete dstkey st in
  st ← (if bool_decide (0 < tsetSize dstset)
        then st ← dbAdd dstkey (OSet dstset) st;
             Some (addReplyLongLong c (Z.of_nat (tsetSize dstset)) st)
        else Some (addReply c (RShared czero) st));
  Some (incrDirty (signalModifiedKey dstkey st)).

Definition sinterGenericCommand (c : nat) (setkeys : list string)
  (dstkey : option string) (st : redisServer) : option redisServer :=
  match sinterLookup (db st) setkeys with
  | SinterMissing =>
      match dstkey with
      | Some dstkey =>
          let st := match db st !! dstkey with
                    | Some _ =>
                        incrDirty (signalModifiedKey dstkey
                                     (dbDelete dstkey st))
                    | None => st
                    end in
          Some (addReply c (RShared czero) st)
      | None => Some (addReply c (RShared emptymultibulk) st)
      end
  | SinterWrongType => Some (addReply c (RShared wrongtypeerr) st)
  | SinterSets sets =>
      match sortSetsByCardinality sets with
      | [] => None
      | smallest :: others =>
          match dstkey with
          | None =>
              let eles := sinterReplyLoop others (tsetLiterals smallest) in
              Some (addReplies c
                      (RMultiBulkLen (Z.of_nat (length eles))
                       :: (RBulkLiteral <$> eles)) st)
          | Some dstkey =>
              dstset ← sinterStoreLoop (conf st) others
                         (tsetLiterals smallest) createIntsetObject;
              storeResult c dstkey dstset st
          end
      end
  end.

Definition sinterCommand (c : nat) (setkeys : list string) :=
  sinterGenericCommand c setkeys None.

Definition sinterstoreCommand (c : nat) (dstkey : string)
  (setkeys : list string) :=
  sinterGenericCommand c setkeys (Some dstkey).

Inductive setOp := REDIS_OP_UNION | REDIS_OP_DIFF | REDIS_OP_INTER.

#[global] Instance setOp_eq_dec : EqDecision setOp.
Proof. solve_decision. Defined.

(** The lookup loop of sunionDiffGenericCommand (lines 498-511): [None] is
    a source of the wrong type, a missing source is a NULL entry. *)
Fixpoint sunionDiffLookup (d : gmap string robj) (setkeys : list string)
  : option (list (option tset)) :=
  match setkeys with
  | [] => Some []
  | k :: rest =>
      match d !! k with
      | None => sets ← sunionDiffLookup d rest; Some (None :: sets)
      | Some (OSet s) =>
          sets ← sunionDiffLookup d rest; Some (Some s :: sets)
      | Some _ => None
      end
  end.

(** The loop over the elements of one source (lines 525-538); [first] says
    [j == 0]. *)
Fixpoint sunionDiffElements (cf : config) (op : setOp) (first : bool)
  (lits : list rlit) (dstset : tset) (cardinality : Z)
  : option (tset * Z) :=
  match lits with
  | [] => Some (dstset, cardinality)
  | ele :: rest =>
      if bool_decide (op = REDIS_OP_UNION) || first then
        '(dstset', added) ← tsetAddLiteral cf dstset ele;
        sunionDiffElements cf op first rest dstset'
          (if (added : bool) then (cardinality + 1)%Z else cardinality)
      else if bool_decide (op = REDIS_OP_DIFF) then
        let '(dstset', removed) := tsetRemoveLiteral dstset ele in
        sunionDiffElements cf op first rest dstset'
          (if (removed : bool) then (cardinality - 1)%Z else cardinality)
      else None
  end.

(** The loop over the sources (lines 520-543). *)
Fixpoint sunionDiffSources (cf : config) (op : setOp) (first : bool)
  (sets : list (option tset)) (dstset : tset) (cardinality : Z)
  : option (tset * Z) :=
  match sets with
  | [] => Some (dstset, cardinality)
  | None :: rest =>
      if bool_decide (op = REDIS_OP_DIFF) && first
      then Some (dstset, cardinality)
      else sunionDiffSources cf op false rest dstset cardinality
  | Some s :: rest =>
      '(dstset', cardinality') ←
        sunionDiffElements cf op first (tsetLiterals s) dstset cardinality;
      if bool_decide (op = REDIS_OP_DIFF ∧ cardinality' = 0%Z)
      then Some (dstset', cardinality')
      else sunionDiffSources cf op false rest dstset' cardinality'
  end.

Definition sunionDiffGenericCommand (c : nat) (setkeys : list string)
  (dstkey : option string) (op : setOp) (st : redisServer)
  : option redisServer :=
  match sunionDiffLookup (db st) setkeys with
  | None => Some (addReply c (RShared wrongtypeerr) st)
  | Some sets =>
      '(dstset, cardinality) ←
        sunionDiffSources (conf st) op true sets createIntsetObject 0%Z;
      match dstkey with
      | None =>
          Some (addReplies c
                  (RMultiBulkLen cardinality
                   :: (RBulkLiteral <$> tsetLiterals dstset)) st)
      | Some dstkey => storeResult c dstkey dstset st
      end
  end.

Definition sunionCommand (c : nat) (setkeys : list string) :=
  sunionDiffGenericCommand c setkeys None REDIS_OP_UNION.

Definition sunionstoreCommand (c : nat) (dstkey : string)
  (setkeys : list string) :=
  sunionDiffGenericCommand c setkeys (Some dstkey) REDIS_OP_UNION.

Definition sdiffCommand (c : nat) (setkeys : list string) :=
  sunionDiffGenericCommand c setkeys None REDIS_OP_DIFF.

Definition sdiffstoreCommand (c : nat) (dstkey : string)
  (setkeys : list string) :=
  sunionDiffGenericCommand c setkeys (Some dstkey) REDIS_OP_DIFF.

(** * Notions used in the statements, and sample states *)

(** A value of the C type long long. *)
Definition isLongLong (n : Z) : Prop := (LLONG_MIN ≤ n ≤ LLONG_MAX)%Z.

(** A list under "src" and a string under "dst". *)
Definition stWrongTypeDst : redisServer :=
  mkServer
    (<["src" := OList (Linkedlist [Raw "a"; Raw "b"])]>
       (<["dst" := OString (Raw "text")]> ∅))
    ∅ (<[1 := mkClient 0 None 0 None []]> ∅) 0 0 [] []
    (mkConfig 128 64 512) 0.

(** A key that cannot serve a blocking pop: missing, or an empty list. *)
Definition nothingToPop (st : redisServer) (k : string) : Prop :=
  db st !! k = None ∨ ∃ l, db st !! k = Some (OList l) ∧ tlistLength l = 0.

(** A client inside MULTI, and a client with no flag set. *)
Definition clMulti : redisClient := mkClient REDIS_MULTI None 0 None [].
Definition clPlain : redisClient := mkClient 0 None 0 None [].

(** A string under "s" and a one-element list under "l". *)
Definition stScan : redisServer :=
  mkServer
    (<["s" := OString (Raw "text")]>
       (<["l" := OList (Ziplist [ZStr "a"])]> ∅))
    ∅ (<[1 := clPlain]> ∅) 0 0 [] [] (mkConfig 128 64 512) 1000.

(** Client 1 is inside MULTI; "e" holds an empty list. *)
Definition stMulti : redisServer :=
  mkServer (<["e" := OList (Linkedlist [])]> ∅)
    ∅ (<[1 := clMulti]> ∅) 0 0 [] [] (mkConfig 128 64 512) 1000.

(** The bulk replies LRANGE sends for the elements of a list, in list
    order. *)
Definition tlistBulks (o : tlist) : list reply :=
  match o with
  | Ziplist zl => zlentryReply <$> zl
  | Linkedlist l => RBulk <$> l
  end.

(** A signed index after "negative means from the tail". *)
Definition resolveIndex (len i : Z) : Z :=
  if bool_decide (i < 0)%Z then (len + i)%Z else i.

(** A value of the C type int. *)
Definition isInt (z : Z) : Prop := (INT_MIN ≤ z ≤ INT_MAX)%Z.

(** A packed list of four elements under "k". *)
Definition stRange : redisServer :=
  mkServer
    (<["k" := OList (Ziplist [ZStr "a"; ZInt 7; ZStr "c"; ZStr "d"])]> ∅)
    ∅ (<[1 := clPlain]> ∅) 0 0 [] [] (mkConfig 128 64 512) 0.

(** The clients waiting for a key, oldest first. *)
Definition waiters (bk : gmap string (list nat)) (k : string) : list nat :=
  default [] (bk !! k).

(** How often [x] occurs in [l]. *)
Definition occurrences {A} `{EqDecision A} (x : A) (l : list A) : nat :=
  length (filter (λ y, y = x) l).

(** The registry is consistent for client [w] waiting for the keys [ks]:
    [w] is queued under a key as often as the key occurs in [ks]. *)
Definition registeredFor (bk : gmap string (list nat)) (w : nat)
  (ks : list string) : Prop :=
  ∀ k, occurrences k ks = occurrences w (waiters bk k).

(** The client structure of a plain BLPOP / BRPOP waiter after a push
    served it: unblocked, and the two-element reply queued. *)
Definition servedClient (rc : redisClient) (key : string) (ele : sobj)
  : redisClient :=
  mkClient (Z.lor (Z.land (flags rc) (Z.lnot REDIS_BLOCKED)) REDIS_UNBLOCKED)
    None (bpop_timeout rc) None
    (replies rc ++ [RMultiBulkLen 2; RBulk (Raw key); RBulk ele]).

(** An empty keyspace, nobody blocked, clients 1, 2, 3 and 9 connected. *)
Definition stEmpty : redisServer :=
  mkServer ∅ ∅
    (<[1 := clPlain]> (<[2 := clPlain]> (<[3 := clPlain]>
       (<[9 := clPlain]> ∅))))
    0 0 [] [] (mkConfig 128 64 512) 1000.

(** Clients 1, 2 and 3 block on the missing key "k", in that order. *)
Definition stThreeWaiters : redisServer :=
  blockForKeys 3 ["k"] 0 None
    (blockForKeys 2 ["k"] 0 None (blockForKeys 1 ["k"] 0 None stEmpty)).

(** Some client has [k] as the target of its blocking request
    (BRPOPLPUSH ... k). *)
Definition isTarget (st : redisServer) (k : string) : Prop :=
  ∃ w rc, clients st !! w = Some rc ∧ bpop_target rc = Some k.

(** What a delivery may change between [st] and [st']: the keyspace only at
    keys that are targets, and not at all when nothing was delivered;
    no client gets a new target and no client structure disappears. *)
Definition deliveryFrame (st st' : redisServer) (served : bool) : Prop :=
  (∀ k, ¬ isTarget st k → db st' !! k = db st !! k)
  ∧ (∀ k, isTarget st' k → isTarget st k)
  ∧ (served = false → db st' = db st)
  ∧ (∀ x, is_Some (clients st !! x) → is_Some (clients st' !! x)).

(** Self-referential BRPOPLPUSH: client 1 waits for "k" with target "k". *)
Definition stSelfTarget : redisServer :=
  blockForKeys 1 ["k"] 0 (Some "k") stEmpty.

(** The invariant of the blocking registry: every queued client has a
    client structure with the keys it waits for; a client is queued under a
    key as often as it waits for it; a client with a target (BRPOPLPUSH)
    waits for distinct keys. *)
Definition registryOk (st : redisServer) : Prop :=
  (∀ k w, w ∈ waiters (blocking_keys st) k →
     ∃ rc ks, clients st !! w = Some rc ∧ bpop_keys rc = Some ks)
  ∧ (∀ w rc ks, clients st !! w = Some rc → bpop_keys rc = Some ks →
       registeredFor (blocking_keys st) w ks
       ∧ (is_Some (bpop_target rc) → NoDup ks)).

(** The clients that are blocked: those with keys to wait for. *)
Definition blockedClients (st : redisServer) : gset nat :=
  dom (filter (λ p, is_Some (bpop_keys p.2)) (clients st)).

(** Two states with the same registry and the same blocking state in every
    client. *)
Definition sameRegistry (st st' : redisServer) : Prop :=
  blocking_keys st' = blocking_keys st
  ∧ ∀ w, (λ rc, (bpop_keys rc, bpop_target rc)) <$> (clients st' !! w)
         = (λ rc, (bpop_keys rc, bpop_target rc)) <$> (clients st !! w).

(** Every way the two files change a list object in place, with the
    configuration in force at that moment. *)
Inductive tlistOp :=
  | OpPush (value : sobj) (whr : lwhere)
  | OpPop (whr : lwhere)
  | OpTryConversion (value : sobj)
  | OpConvert (enc : encoding)
  | OpInsert (refval val : sobj) (whr : lwhere)
  | OpSet (index : Z) (value : sobj)
  | OpTrim (start end_ : Z)
  | OpRem (toremove : Z) (ele : sobj).

Definition applyListOp (cf : config) (op : tlistOp) (o : tlist)
  : option tlist :=
  match op with
  | OpPush value whr => tlistPush cf o value whr
  | OpPop whr => Some (tlistPop o whr).1
  | OpTryConversion value => tlistTryConversion cf o value
  | OpConvert enc => tlistConvert o enc
  | OpInsert refval val whr => fst <$> linsertList cf o refval val whr
  | OpSet index value => fst <$> lsetList cf o index value
  | OpTrim start end_ => Some (ltrimList o start end_)
  | OpRem toremove ele => Some (lremList o toremove ele).1
  end.

Fixpoint runListOps (ops : list (config * tlistOp)) (o : tlist)
  : option tlist :=
  match ops with
  | [] => Some o
  | (cf, op) :: rest =>
      match applyListOp cf op o with
      | Some o' => runListOps rest o'
      | None => None
      end
  end.

(** Every way the two files change a set object in place. *)
Inductive tsetOp :=
  | OpAdd (ele : rlit)
  | OpRemove (ele : rlit)
  | OpSetConvert (enc : encoding).

Definition applySetOp (cf : config) (op : tsetOp) (s : tset) : option tset :=
  match op with
  | OpAdd ele => fst <$> tsetAddLiteral cf s ele
  | OpRemove ele => Some (tsetRemoveLiteral s ele).1
  | OpSetConvert enc => tsetConvert s enc
  end.

Fixpoint runSetOps (ops : list (config * tsetOp)) (s : tset) : option tset :=
  match ops with
  | [] => Some s
  | (cf, op) :: rest =>
      match applySetOp cf op s with
      | Some s' => runSetOps rest s'
      | None => None
      end
  end.

(** The representation invariant of a set object: an intset holds distinct
    64-bit integers. *)
Definition tsetWf (s : tset) : Prop :=
  match s with
  | Intset ints => NoDup ints ∧ Forall isLongLong ints
  | Hashtable _ => True
  end.

(** The members of a set object, as the byte strings clients see. *)
Definition tsetContent (s : tset) : gset string :=
  match s with
  | Intset ints => list_to_set (ll2string <$> ints)
  | Hashtable d => d
  end.

(** The bytes of a literal. *)
Definition litBytes (l : rlit) : string := getDecodedObject (litGetObject l).

(** A literal carries a 64-bit integer when it carries an integer. *)
Definition litWf (l : rlit) : Prop :=
  match l with
  | LitLongLong n | LitObject (IntEnc n) => isLongLong n
  | _ => True
  end.

(** The members of the set under a key; a missing key is the empty set. *)
Definition keyContent (st : redisServer) (k : string) : gset string :=
  match db st !! k with
  | Some (OSet s) => tsetContent s
  | _ => ∅
  end.

(** A source key of a set command: missing, or a well-formed set. *)
Definition setSource (st : redisServer) (k : string) : Prop :=
  db st !! k = None ∨ ∃ s, db st !! k = Some (OSet s) ∧ tsetWf s.

(** The members of a looked-up source; a NULL entry is the empty set. *)
Definition sourceContent (o : option tset) : gset string :=
  match o with
  | Some s => tsetContent s
  | None => ∅
  end.

(** A looked-up source is well formed. *)
Definition sourceWf (o : option tset) : Prop :=
  match o with
  | Some s => tsetWf s
  | None => True
  end.

(** An intset under "a", a hash table set under "h", a string under
    "dst". *)
Definition stSets : redisServer :=
  mkServer
    (<["a" := OSet (Intset [1; 2; 3]%Z)]>
       (<["h" := OSet (Hashtable {["2"; "x"]})]>
          (<["dst" := OString (Raw "text")]> ∅)))
    ∅ (<[1 := clPlain]> ∅) 0 0 [] [] (mkConfig 128 64 512) 0.

(** The three commands that store a computed set under a destination
    key. *)
Inductive storeCommand := SINTERSTORE | SUNIONSTORE | SDIFFSTORE.

Definition runStoreCommand (cmd : storeCommand) (c : nat) (dstkey : string)
  (setkeys : list string) (st : redisServer) : option redisServer :=
  match cmd with
  | SINTERSTORE => sinterstoreCommand c dstkey setkeys st
  | SUNIONSTORE => sunionstoreCommand c dstkey setkeys st
  | SDIFFSTORE => sdiffstoreCommand c dstkey setkeys st
  end.

(** The destination was replaced: whatever was stored under [dst] is gone,
    the result set is stored there when it is not empty, and the client was
    sent its cardinality. *)
Definition storedOutcome (c : nat) (dst : string) (st st' : redisServer)
  : Prop :=
  ∃ result : tset,
    db st' = (if bool_decide (0 < tsetSize result)
              then <[dst := OSet result]> (delete dst (db st))
              else delete dst (db st))
    ∧ clients st'
      = clients (addReply c
                   (if bool_decide (0 < tsetSize result)
                    then RLongLong (Z.of_nat (tsetSize result))
                    else RShared czero) st).

(** Some source key holds a value that is not a set. *)
Definition wrongTypeSource (st : redisServer) (keys : list string) : Prop :=
  ∃ k o, k ∈ keys ∧ db st !! k = Some o ∧ objType o ≠ REDIS_SET.

(** The set {1} under "s". *)
Definition stOneSet : redisServer :=
  mkServer (<["s" := OSet (Intset [1%Z])]> ∅)
    ∅ (<[1 := clPlain]> ∅) 0 0 [] [] (mkConfig 128 64 512) 0.

(** The bytes of a packed entry. *)
Definition zlentryBytes (e : zlentry) : string :=
  match e with
  | ZStr s => s
  | ZInt n => ll2string n
  end.

(** The elements of a list object as the byte strings clients see, head
    first. *)
Definition tlistValues (o : tlist) : list string :=
  match o with
  | Ziplist zl => zlentryBytes <$> zl
  | Linkedlist l => getDecodedObject <$> l
  end.

(** The elements of the list under a key; a missing key counts as the
    empty list. *)
Definition keyValues (st : redisServer) (k : string) : list string :=
  match db st !! k with
  | Some (OList o) => tlistValues o
  | _ => []
  end.

(** An integer entry of a packed list holds a long long. *)
Definition zlentryWf (e : zlentry) : Prop :=
  match e with
  | ZInt n => isLongLong n
  | ZStr _ => True
  end.

(** The representation invariant of a list object. *)
Definition tlistWf (o : tlist) : Prop :=
  match o with
  | Ziplist zl => Forall zlentryWf zl
  | Linkedlist _ => True
  end.

(** An integer-encoded string object holds a long. *)
Definition sobjWf (o : sobj) : Prop :=
  match o with
  | IntEnc n => isLongLong n
  | Raw _ => True
  end.

(** A list with the elements a, b, a, c under "k". *)
Definition stRem : redisServer :=
  mkServer
    (<["k" := OList (Ziplist [ZStr "a"; ZStr "b"; ZStr "a"; ZStr "c"])]> ∅)
    ∅ (<[1 := clPlain]> ∅) 0 0 [] [] (mkConfig 128 64 512) 0.

(** The direction word LINSERT expects for an insertion point. *)
Definition directionWord (whr : lwhere) : string :=
  match whr with
  | REDIS_HEAD => "before"
  | REDIS_TAIL => "after"
  end.

(** The list a, b, c under "src" and the list x under "dst"; nobody is
    blocked. *)
Definition stTwoLists : redisServer :=
  mkServer
    (<["src" := OList (Linkedlist [Raw "a"; Raw "b"; Raw "c"])]>
       (<["dst" := OList (Ziplist [ZStr "x"])]> ∅))
    ∅ (<[1 := clPlain]> ∅) 0 0 [] [] (mkConfig 128 64 512) 0.

(** No key of the registry holds an empty list of waiting clients. *)
Definition noEmptyQueue (bk : gmap string (list nat)) : Prop :=
  ∀ k, bk !! k ≠ Some [].

(** The client structure after blockForKeys. *)
Definition blockedClient (cl : redisClient) (keys : list string)
  (timeout : Z) (target : option string) : redisClient :=
  mkClient (Z.lor (flags cl) REDIS_BLOCKED) (Some keys) timeout target
    (replies cl).

(** Clients 1 and 2 wait for "k": client 1 with BRPOPLPUSH k t, where "t"
    holds a string, client 2 with a plain blocking pop. *)
Definition stBadTarget : redisServer :=
  blockForKeys 2 ["k"] 0 None
    (blockForKeys 1 ["k"] 0 (Some "t")
       (setDb (insert "t" (OString (Raw "text"))) stEmpty)).

(** The client structure of a waiter after it was unblocked and sent the
    replies [rs]. *)
Definition unblockedClient (rc : redisClient) (rs : list reply)
  : redisClient :=
  mkClient (Z.lor (Z.land (flags rc) (Z.lnot REDIS_BLOCKED)) REDIS_UNBLOCKED)
    None (bpop_timeout rc) None (replies rc ++ rs).

(** Client 1 waits for "k" with BRPOPLPUSH k t; "t" is missing. *)
Definition stTargetWaiter : redisServer :=
  blockForKeys 1 ["k"] 0 (Some "t") stEmpty.

(** What SINTERSTORE, SUNIONSTORE and SDIFFSTORE with the source keys
    [k0 :: ks] compute: whether [x] belongs to the result. *)
Definition storeMember (cmd : storeCommand) (st : redisServer)
  (k0 : string) (ks : list string) (x : string) : Prop :=
  match cmd with
  | SINTERSTORE => ∀ k, k ∈ k0 :: ks → x ∈ keyContent st k
  | SUNIONSTORE => ∃ k, k ∈ k0 :: ks ∧ x ∈ keyContent st k
  | SDIFFSTORE => x ∈ keyContent st k0 ∧ ∀ k, k ∈ ks → x ∉ keyContent st k
  end.

(** A key that holds a well-formed set. *)
Definition setKey (st : redisServer) (k : string) : Prop :=
  ∃ s, db st !! k = Some (OSet s) ∧ tsetWf s.

(** * Proofs *)

#[local] Set Warnings "-clear-no-such-hyp".

(** ** Integer-encoded objects keep their bytes *)

Lemma string2ll_Some s n :
  string2ll s = Some n → s = ll2string n ∧ isLongLong n.
Proof.
  unfold string2ll. destruct (NilZero.int_of_string s) as [d|]; [|done].
  simpl. case_bool_decide as H; [|done]. intros [= <-].
  by destruct H.
Qed.

Lemma tryObjectEncoding_decoded o :
  getDecodedObject (tryObjectEncoding o) = getDecodedObject o.
Proof.
  destruct o as [s|n]; simpl; [|done].
  destruct (string2ll s) as [n|] eqn:Hs; [|done].
  apply string2ll_Some in Hs as [-> _]. done.
Qed.

(** ** Replies leave the keyspace and the registry alone *)

Lemma db_addReply c r st : db (addReply c r st) = db st.
Proof. reflexivity. Qed.

Lemma blocking_keys_addReply c r st :
  blocking_keys (addReply c r st) = blocking_keys st.
Proof. reflexivity. Qed.

Lemma clients_addReply_flags c c' r st :
  flags <$> (clients (addReply c r st) !! c') = flags <$> (clients st !! c').
Proof.
  unfold addReply, setClients; simpl.
  destruct (decide (c = c')) as [->|Hne].
  - rewrite lookup_alter_eq. by destruct (clients st !! c').
  - by rewrite lookup_alter_ne.
Qed.

Lemma clientReplies_addReply c r st :
  is_Some (clients st !! c) →
  clientReplies c (addReply c r st) = clientReplies c st ++ [r].
Proof.
  intros [cl Hcl]. unfold clientReplies, addReply, setClients; simpl.
  rewrite lookup_alter_eq, Hcl. reflexivity.
Qed.

(** ** C3: RPOPLPUSH with a destination of the wrong type *)

(** C3. For every src key holding a non-empty list and every dst key that
    exists but holds a value that is not a list, RPOPLPUSH replies the shared
    wrong-type error and performs no mutation: the state after the command
    is the state before it with that one reply queued, so the keyspace, and
    the list under src in particular, are unchanged. *)
Theorem rpoplpush_wrongtype_dst_unchanged
  (fuel c : nat) (src dst : string) (l : tlist) (o : robj)
  (st : redisServer) :
  db st !! src = Some (OList l) →
  tlistLength l ≠ 0 →
  db st !! dst = Some o →
  objType o ≠ REDIS_LIST →
  ∃ st',
    rpoplpushCommand fuel c src dst st = Some st'
    ∧ st' = addReply c (RShared wrongtypeerr) st
    ∧ db st' = db st
    ∧ db st' !! src = Some (OList l)
    ∧ blocking_keys st' = blocking_keys st
    ∧ dirty st' = dirty st
    ∧ signalled st' = signalled st.
Proof.
  intros Hsrc Hlen Hdst Hty.
  exists (addReply c (RShared wrongtypeerr) st).
  split; [|by repeat split].
  unfold rpoplpushCommand. rewrite Hsrc.
  rewrite bool_decide_eq_false_2 by done.
  rewrite Hdst. by destruct o.
Qed.

Lemma rpoplpush_wrongtype_dst_unchanged_witness :
  ∃ st',
    rpoplpushCommand 1 1 "src" "dst" stWrongTypeDst = Some st'
    ∧ st' = addReply 1 (RShared wrongtypeerr) stWrongTypeDst
    ∧ db st' = db stWrongTypeDst
    ∧ db st' !! "src" = Some (OList (Linkedlist [Raw "a"; Raw "b"]))
    ∧ blocking_keys st' = blocking_keys stWrongTypeDst
    ∧ dirty st' = dirty stWrongTypeDst
    ∧ signalled st' = signalled stWrongTypeDst.
Proof.
  apply (rpoplpush_wrongtype_dst_unchanged 1 1 "src" "dst"
           (Linkedlist [Raw "a"; Raw "b"]) (OString (Raw "text"))
           stWrongTypeDst).
  - reflexivity.
  - simpl. lia.
  - reflexivity.
  - simpl. discriminate.
Defined.

(** ** Blocking pops that do not block (C10, C5) *)

Lemma getTimeout_valid c o st tval :
  getLongFromObject o = Some tval → (0 ≤ tval)%Z →
  ∃ t, getTimeoutFromObjectOrReply c o st = inr t.
Proof.
  intros Hp Hge. unfold getTimeoutFromObjectOrReply. rewrite Hp.
  rewrite bool_decide_eq_false_2 by lia. eauto.
Qed.

Lemma blockingPopScan_nothing c keys whr st :
  Forall (nothingToPop st) keys →
  blockingPopScan c keys whr st = None.
Proof.
  induction 1 as [|k keys Hk _ IH]; [done|]. simpl.
  destruct Hk as [->|(l & -> & Hl)]; [done|].
  by rewrite bool_decide_eq_false_2 by (intros ?; done).
Qed.

Lemma blockingPopScan_wrongtype c pre k post whr st o :
  Forall (nothingToPop st) pre →
  db st !! k = Some o → objType o ≠ REDIS_LIST →
  blockingPopScan c (pre ++ k :: post) whr st
  = Some (addReply c (RShared wrongtypeerr) st).
Proof.
  intros Hpre Hk Hty.
  induction Hpre as [|k' pre Hk' _ IH]; simpl.
  - rewrite Hk. by destruct o.
  - destruct Hk' as [->|(l & -> & Hl)]; [done|].
    by rewrite bool_decide_eq_false_2 by (intros ?; done).
Qed.

(** C10. BLPOP and BRPOP (with a valid timeout argument) look at their keys
    in argument order; when the keys before [k] are missing or hold empty
    lists and [k] holds a value that is not a list, the command replies the
    shared wrong-type error, whatever the later keys [post] hold: the state
    afterwards is the state before with that reply queued, so nothing was
    popped and the client was not registered as blocked. *)
Theorem blockingPop_aborts_on_first_wrongtype
  (c : nat) (pre post : list string) (k : string) (o : robj)
  (timeoutArg : sobj) (tval : Z) (whr : lwhere) (st : redisServer) :
  getLongFromObject timeoutArg = Some tval → (0 ≤ tval)%Z →
  Forall (nothingToPop st) pre →
  db st !! k = Some o →
  objType o ≠ REDIS_LIST →
  ∃ st',
    blockingPopGenericCommand c (pre ++ k :: post) timeoutArg whr st
    = Some st'
    ∧ st' = addReply c (RShared wrongtypeerr) st
    ∧ db st' = db st
    ∧ blocking_keys st' = blocking_keys st
    ∧ bpop_blocked_clients st' = bpop_blocked_clients st
    ∧ flags <$> (clients st' !! c) = flags <$> (clients st !! c).
Proof.
  intros Hp Hge Hpre Hk Hty.
  exists (addReply c (RShared wrongtypeerr) st).
  split; [|repeat split; apply clients_addReply_flags].
  unfold blockingPopGenericCommand.
  destruct (getTimeout_valid c timeoutArg st tval Hp Hge) as [t ->].
  by rewrite (blockingPopScan_wrongtype c pre k post whr st o).
Qed.

Lemma blockingPop_aborts_on_first_wrongtype_witness :
  ∃ st',
    blockingPopGenericCommand 1 (["missing"] ++ "s" :: ["l"]) (Raw "0")
      REDIS_HEAD stScan = Some st'
    ∧ st' = addReply 1 (RShared wrongtypeerr) stScan
    ∧ db st' = db stScan
    ∧ blocking_keys st' = blocking_keys stScan
    ∧ bpop_blocked_clients st' = bpop_blocked_clients stScan
    ∧ flags <$> (clients st' !! 1) = flags <$> (clients stScan !! 1).
Proof.
  apply (blockingPop_aborts_on_first_wrongtype 1 ["missing"] ["l"] "s"
           (OString (Raw "text")) (Raw "0") 0 REDIS_HEAD stScan).
  - reflexivity.
  - lia.
  - constructor; [left; reflexivity | constructor].
  - reflexivity.
  - simpl. discriminate.
Defined.

(** C5, as the claim states it, fails for BRPOPLPUSH: inside MULTI, with the
    source key missing, the reply is the nil bulk and not the nil
    multi-bulk. *)
Lemma brpoplpush_multi_replies_nil_bulk :
  clients stMulti !! 1 = Some clMulti
  ∧ Z.land (flags clMulti) REDIS_MULTI ≠ 0%Z
  ∧ db stMulti !! "missing" = None
  ∧ clientReplies 1 <$> brpoplpushCommand 1 1 "missing" "e" (Raw "0") stMulti
    = Some [RShared nullbulk]
  ∧ brpoplpushCommand 1 1 "missing" "e" (Raw "0") stMulti
    ≠ Some (addReply 1 (RShared nullmultibulk) stMulti).
Proof.
  repeat split; try reflexivity; discriminate.
Qed.

(** C5, amended. Inside MULTI and with a valid timeout argument (0
    included): BLPOP and BRPOP reply the nil multi-bulk at once when every
    key is missing or holds an empty list; BRPOPLPUSH replies the nil bulk
    at once when its source key is missing.  In both cases the state
    afterwards is the state before with that reply queued: the client is not
    registered as blocked. *)
Theorem blocking_pop_inside_multi
  (c : nat) (cl : redisClient) (timeoutArg : sobj) (tval : Z)
  (st : redisServer) :
  clients st !! c = Some cl →
  Z.land (flags cl) REDIS_MULTI ≠ 0%Z →
  getLongFromObject timeoutArg = Some tval → (0 ≤ tval)%Z →
  (∀ keys whr, Forall (nothingToPop st) keys →
     ∃ st', blockingPopGenericCommand c keys timeoutArg whr st = Some st'
       ∧ st' = addReply c (RShared nullmultibulk) st
       ∧ db st' = db st
       ∧ blocking_keys st' = blocking_keys st
       ∧ bpop_blocked_clients st' = bpop_blocked_clients st
       ∧ flags <$> (clients st' !! c) = Some (flags cl))
  ∧ (∀ fuel src dst, db st !! src = None →
     ∃ st', brpoplpushCommand fuel c src dst timeoutArg st = Some st'
       ∧ st' = addReply c (RShared nullbulk) st
       ∧ db st' = db st
       ∧ blocking_keys st' = blocking_keys st
       ∧ bpop_blocked_clients st' = bpop_blocked_clients st
       ∧ flags <$> (clients st' !! c) = Some (flags cl)).
Proof.
  intros Hcl Hmulti Hp Hge.
  destruct (getTimeout_valid c timeoutArg st tval Hp Hge) as [t Ht].
  split.
  - intros keys whr Hkeys. eexists. split; [|repeat split].
    + unfold blockingPopGenericCommand. rewrite Ht.
      rewrite (blockingPopScan_nothing c keys whr st Hkeys).
      rewrite Hcl; simpl. by rewrite bool_decide_eq_true_2.
    + by rewrite clients_addReply_flags, Hcl.
  - intros fuel src dst Hsrc. eexists. split; [|repeat split].
    + unfold brpoplpushCommand. rewrite Ht, Hsrc, Hcl; simpl.
      by rewrite bool_decide_eq_true_2.
    + by rewrite clients_addReply_flags, Hcl.
Qed.

Lemma blocking_pop_inside_multi_witness :
  (∃ st', blockingPopGenericCommand 1 ["missing"; "e"] (Raw "0") REDIS_TAIL
            stMulti = Some st'
       ∧ st' = addReply 1 (RShared nullmultibulk) stMulti
       ∧ db st' = db stMulti
       ∧ blocking_keys st' = blocking_keys stMulti
       ∧ bpop_blocked_clients st' = bpop_blocked_clients stMulti
       ∧ flags <$> (clients st' !! 1) = Some (flags clMulti))
  ∧ (∃ st', brpoplpushCommand 1 1 "missing" "e" (Raw "0") stMulti = Some st'
       ∧ st' = addReply 1 (RShared nullbulk) stMulti
       ∧ db st' = db stMulti
       ∧ blocking_keys st' = blocking_keys stMulti
       ∧ bpop_blocked_clients st' = bpop_blocked_clients stMulti
       ∧ flags <$> (clients st' !! 1) = Some (flags clMulti)).
Proof.
  assert (Hm : Z.land (flags clMulti) REDIS_MULTI ≠ 0%Z)
    by (vm_compute; discriminate).
  destruct (blocking_pop_inside_multi 1 clMulti (Raw "0") 0 stMulti
              eq_refl Hm eq_refl (Z.le_refl 0)) as [Hpop Hpush].
  split.
  - apply Hpop. apply Forall_cons; split; [by left|].
    apply Forall_cons; split; [right; by eexists|apply Forall_nil_2].
  - apply Hpush. reflexivity.
Defined.

(** ** LRANGE (C7) *)

Section lrange.
  Local Open Scope Z_scope.

Lemma toInt_id z : isInt z → toInt z = z.
Proof.
  unfold isInt, INT_MIN, INT_MAX, toInt. intros H.
  rewrite Z.mod_small; lia.
Qed.

Lemma normalizeRange_spec len start end_ :
  0 ≤ len ≤ INT_MAX → isInt start → isInt end_ →
  let s := Z.max 0 (resolveIndex len start) in
  let e0 := resolveIndex len end_ in
  normalizeRange len start end_
  = if bool_decide (e0 < s ∨ len ≤ s) then None
    else Some (s, Z.min e0 (len - 1)).
Proof.
  unfold isInt, INT_MIN, INT_MAX. intros Hlen Hs He.
  unfold normalizeRange, resolveIndex.
  repeat (case_bool_decide; simpl);
    rewrite ?toInt_id in * by (unfold isInt, INT_MIN, INT_MAX; lia);
    try lia; try (f_equal; f_equal; lia).
Qed.

End lrange.

Lemma lrangeZiplistLoop_spec zl : ∀ n i p,
  i + n ≤ length zl → (n ≠ 0 → p = Some i) →
  lrangeZiplistLoop zl n p = Some (zlentryReply <$> take n (drop i zl)).
Proof.
  induction n as [|n IH]; intros i p Hlen Hp; [done|].
  rewrite Hp by done. simpl.
  destruct (lookup_lt_is_Some_2 zl i) as [e He]; [lia|].
  rewrite He. rewrite (IH (S i)); [|lia|].
  - simpl. by rewrite (drop_S _ _ _ He).
  - intros Hn. unfold ziplistNext. rewrite bool_decide_eq_true_2; [done|lia].
Qed.

Lemma lrangeListLoop_spec l : ∀ n i p,
  i + n ≤ length l → (n ≠ 0 → p = Some i) →
  lrangeListLoop l n p = Some (RBulk <$> take n (drop i l)).
Proof.
  induction n as [|n IH]; intros i p Hlen Hp; [done|].
  rewrite Hp by done. simpl.
  destruct (lookup_lt_is_Some_2 l i) as [e He]; [lia|].
  rewrite He. rewrite (IH (S i)); [|lia|].
  - simpl. by rewrite (drop_S _ _ _ He).
  - intros Hn. rewrite bool_decide_eq_true_2; [done|lia].
Qed.

Lemma seqIndex_nonneg len (i : Z) :
  (0 ≤ i < Z.of_nat len)%Z → seqIndex len i = Some (Z.to_nat i).
Proof.
  intros H. unfold seqIndex.
  rewrite bool_decide_eq_true_2 by lia.
  by rewrite bool_decide_eq_true_2 by lia.
Qed.

(** The general form of C7: what lrangeCommand replies for a list of length
    [len] and any two int arguments. *)
Lemma lrangeCommand_range c key o start end_ st :
  db st !! key = Some (OList o) →
  (Z.of_nat (tlistLength o) ≤ INT_MAX)%Z → isInt start → isInt end_ →
  let len := Z.of_nat (tlistLength o) in
  let s := Z.max 0 (resolveIndex len start) in
  let e0 := resolveIndex len end_ in
  let e := Z.min e0 (len - 1) in
  lrangeCommand c key start end_ st
  = if bool_decide (e0 < s ∨ len ≤ s)%Z
    then Some (addReply c (RShared emptymultibulk) st)
    else Some (addReplies c
                 (RMultiBulkLen (e - s + 1)
                  :: take (Z.to_nat (e - s + 1))
                       (drop (Z.to_nat s) (tlistBulks o))) st).
Proof.
  intros Hk Hlen Hs He len s e0 e.
  unfold lrangeCommand. rewrite Hk.
  assert (Hl : toInt (Z.of_nat (tlistLength o)) = len)
    by (apply toInt_id; unfold isInt, INT_MIN, INT_MAX in *; lia).
  rewrite Hl.
  rewrite normalizeRange_spec by (done || lia).
  fold s e0. case_bool_decide as Hempty; [done|].
  fold e.
  assert (Hb : (0 ≤ s ∧ s ≤ e ∧ e < len ∧ len ≤ INT_MAX)%Z) by lia.
  rewrite (toInt_id (e - s)) by (unfold isInt, INT_MIN, INT_MAX in *; lia).
  rewrite (toInt_id (e - s + 1))
    by (unfold isInt, INT_MIN, INT_MAX in *; lia).
  rewrite bool_decide_eq_false_2 by lia.
  destruct o as [zl|l]; simpl in len, Hlen |- *.
  - unfold ziplistIndex.
    rewrite seqIndex_nonneg by (unfold ziplistLen in *; lia).
    rewrite (lrangeZiplistLoop_spec zl _ (Z.to_nat s));
      [|unfold ziplistLen in *; lia|done].
    simpl. by rewrite fmap_take, fmap_drop.
  - unfold listIndex. rewrite seqIndex_nonneg by lia.
    rewrite (lrangeListLoop_spec l _ (Z.to_nat s)); [|lia|done].
    simpl. by rewrite fmap_take, fmap_drop.
Qed.

(** C7. For every list of length [len] and all int arguments start and end
    given to LRANGE: negative indices are resolved by adding [len], then
    start is clamped to 0; the reply is the empty multi-bulk when
    start > end or start >= len; otherwise end is clamped to [len - 1] and
    the reply is a multi-bulk header of end - start + 1 followed by exactly
    that many bulks, the elements at positions start..end in list order.
    So LRANGE key 0 -1 replies the full list for every length (the empty
    multi-bulk for the empty list). *)
Theorem lrange_reply
  (c : nat) (key : string) (o : tlist) (start end_ : Z) (st : redisServer) :
  db st !! key = Some (OList o) →
  (Z.of_nat (tlistLength o) ≤ INT_MAX)%Z → isInt start → isInt end_ →
  let len := Z.of_nat (tlistLength o) in
  let s := Z.max 0 (resolveIndex len start) in
  let e0 := resolveIndex len end_ in
  let e := Z.min e0 (len - 1) in
  (((e0 < s)%Z ∨ (len ≤ s)%Z) →
     lrangeCommand c key start end_ st
     = Some (addReply c (RShared emptymultibulk) st))
  ∧ (¬ ((e0 < s)%Z ∨ (len ≤ s)%Z) →
     ∃ elems,
       lrangeCommand c key start end_ st
       = Some (addReplies c (RMultiBulkLen (e - s + 1) :: elems) st)
       ∧ Z.of_nat (length elems) = (e - s + 1)%Z
       ∧ elems = take (Z.to_nat (e - s + 1))
                   (drop (Z.to_nat s) (tlistBulks o))
       ∧ ∀ i, i < length elems →
           elems !! i = tlistBulks o !! (Z.to_nat s + i))
  ∧ (start = 0%Z → end_ = (-1)%Z →
     lrangeCommand c key start end_ st
     = if bool_decide (len = 0%Z)
       then Some (addReply c (RShared emptymultibulk) st)
       else Some (addReplies c (RMultiBulkLen len :: tlistBulks o) st)).
Proof.
  intros Hk Hlen Hs He len s e0 e.
  pose proof (lrangeCommand_range c key o start end_ st Hk Hlen Hs He) as H.
  simpl in H. fold len s e0 e in H.
  assert (Hbulks : length (tlistBulks o) = tlistLength o).
  { destruct o; simpl; by rewrite length_fmap. }
  split; [|split].
  - intros Hempty. rewrite H. rewrite bool_decide_eq_true_2; [done|lia].
  - intros Hne. rewrite H. rewrite bool_decide_eq_false_2 by lia.
    eexists. split; [reflexivity|].
    assert (Hb : (0 ≤ s ∧ s ≤ e ∧ e < len)%Z) by lia.
    split; [|split; [done|]].
    + rewrite length_take, length_drop, Hbulks. lia.
    + intros i Hi. rewrite length_take in Hi.
      rewrite lookup_take_lt by lia.
      by rewrite lookup_drop.
  - intros -> ->. rewrite H.
    assert (Hs0 : s = 0%Z).
    { subst s. unfold resolveIndex. rewrite bool_decide_eq_false_2; lia. }
    assert (He0 : e0 = (len - 1)%Z).
    { subst e0. unfold resolveIndex. rewrite bool_decide_eq_true_2; lia. }
    assert (He1 : e = (len - 1)%Z) by lia.
    rewrite Hs0, He0, He1.
    destruct (decide (len = 0%Z)) as [H0|H0].
    + rewrite !bool_decide_eq_true_2; [done|done|lia].
    + rewrite !bool_decide_eq_false_2 by lia.
      simpl drop.
      replace (len - 1 - 0 + 1)%Z with len by lia.
      rewrite take_ge; [done|].
      change (Z.to_nat 0) with 0. rewrite drop_0, Hbulks. lia.
Qed.

Lemma lrange_reply_witness :
  db stRange !! "k"
  = Some (OList (Ziplist [ZStr "a"; ZInt 7; ZStr "c"; ZStr "d"]))
  ∧ isInt 1 ∧ isInt (-2)
  ∧ lrangeCommand 1 "k" 1 (-2) stRange
    = Some (addReplies 1
              [RMultiBulkLen 2; RBulkLongLong 7; RBulkCBuffer "c"] stRange).
Proof.
  assert (H1 : isInt 1) by (unfold isInt, INT_MIN, INT_MAX; lia).
  assert (H2 : isInt (-2)) by (unfold isInt, INT_MIN, INT_MAX; lia).
  assert (H3 : (Z.of_nat
                  (tlistLength (Ziplist [ZStr "a"; ZInt 7; ZStr "c"; ZStr "d"]))
                ≤ INT_MAX)%Z) by (unfold INT_MAX; simpl; lia).
  split; [reflexivity|]. split; [exact H1|]. split; [exact H2|].
  destruct (lrange_reply 1 "k" (Ziplist [ZStr "a"; ZInt 7; ZStr "c"; ZStr "d"])
              1 (-2) stRange eq_refl H3 H1 H2) as (_ & Hrange & _).
  destruct Hrange as (elems & Hcmd & _ & Helems & _).
  - simpl. unfold resolveIndex. simpl. lia.
  - rewrite Hcmd, Helems. reflexivity.
Defined.

(** ** Delivery to the oldest waiter (C1) *)

Section registry.

Lemma occurrences_cons_eq {A} `{EqDecision A} (x : A) l :
  occurrences x (x :: l) = S (occurrences x l).
Proof. unfold occurrences. by rewrite filter_cons_True. Qed.

Lemma occurrences_cons_ne {A} `{EqDecision A} (x y : A) l :
  y ≠ x → occurrences x (y :: l) = occurrences x l.
Proof. intros. unfold occurrences. by rewrite filter_cons_False. Qed.

Lemma occurrences_zero_filter (c : nat) l :
  occurrences c l = 0 → filter (λ x, x ≠ c) l = l.
Proof.
  induction l as [|x l IH]; [done|].
  destruct (decide (x = c)) as [->|Hne].
  - by rewrite occurrences_cons_eq.
  - rewrite occurrences_cons_ne by done. intros H.
    rewrite filter_cons_True by done. by rewrite IH.
Qed.

Lemma filter_ne_notin (c : nat) (l : list nat) :
  c ∉ l → filter (λ x, x ≠ c) l = l.
Proof.
  induction l as [|x l IH]; [done|].
  intros [Hx Hl]%not_elem_of_cons.
  rewrite filter_cons_True by done. by rewrite IH.
Qed.

Lemma occurrences_pos_elem (c : nat) l : 0 < occurrences c l → c ∈ l.
Proof.
  induction l as [|x l IH]; [unfold occurrences; simpl; lia|].
  destruct (decide (x = c)) as [->|Hne]; [intros; left|].
  rewrite occurrences_cons_ne by done. intros. right. auto.
Qed.

Lemma listDelFirst_spec c l :
  c ∈ l →
  ∃ l', listDelFirst c l = Some l'
    ∧ filter (λ x, x ≠ c) l' = filter (λ x, x ≠ c) l
    ∧ S (occurrences c l') = occurrences c l
    ∧ length l' < length l.
Proof.
  induction l as [|x l IH]; [by intros ?%elem_of_nil|].
  intros Hin. simpl. case_bool_decide as Hx.
  - subst x. exists l. split; [done|].
    rewrite filter_cons_False by (intros ?; done).
    rewrite occurrences_cons_eq. simpl. auto with lia.
  - apply elem_of_cons in Hin as [->|Hin]; [done|].
    destruct (IH Hin) as (l' & -> & Hf & Ho & Hl).
    exists (x :: l'). split; [done|].
    rewrite !filter_cons_True by done.
    rewrite !occurrences_cons_ne by done. simpl.
    split; [by rewrite Hf|]. split; [done|lia].
Qed.

(** The registry after one step of the unblocking loop. *)
Lemma waiters_step bk k0 (l' : list nat) k :
  waiters (if bool_decide (length l' = 0) then delete k0 bk
           else <[k0 := l']> bk) k
  = if decide (k0 = k) then l' else waiters bk k.
Proof.
  unfold waiters. case_bool_decide as Hl; case_decide as Hk; subst.
  - rewrite lookup_delete_eq. by destruct l'.
  - by rewrite lookup_delete_ne.
  - by rewrite lookup_insert_eq.
  - by rewrite lookup_insert_ne.
Qed.

(** Unblocking a consistently registered client succeeds and removes
    exactly its nodes: every queue keeps its other clients, in order. *)
Lemma unblockKeysLoop_spec c ks : ∀ bk,
  registeredFor bk c ks →
  ∃ bk', unblockKeysLoop c ks bk = Some bk'
    ∧ ∀ k, waiters bk' k = filter (λ x, x ≠ c) (waiters bk k).
Proof.
  induction ks as [|k0 ks IH]; intros bk Hreg.
  - exists bk. split; [done|]. intros k.
    symmetry. apply occurrences_zero_filter. by rewrite <- Hreg.
  - simpl.
    assert (Hin : c ∈ waiters bk k0).
    { apply occurrences_pos_elem. rewrite <- Hreg.
      rewrite occurrences_cons_eq. lia. }
    unfold waiters in Hin.
    destruct (bk !! k0) as [l|] eqn:Hl; [|by apply elem_of_nil in Hin].
    simpl in Hin.
    destruct (listDelFirst_spec c l Hin) as (l' & -> & Hf & Ho & _).
    destruct (IH (if bool_decide (length l' = 0) then delete k0 bk
                  else <[k0 := l']> bk)) as (bk' & -> & Hbk').
    + intros k. rewrite waiters_step. case_decide as Hk.
      * subst k. specialize (Hreg k0).
        rewrite occurrences_cons_eq in Hreg.
        unfold waiters in Hreg. rewrite Hl in Hreg. simpl in Hreg. lia.
      * specialize (Hreg k).
        by rewrite (occurrences_cons_ne k k0 ks Hk) in Hreg.
    + exists bk'. split; [done|]. intros k.
      rewrite Hbk', waiters_step.
      destruct (decide (k0 = k)) as [<-|Hk]; [|done].
      unfold waiters. by rewrite Hl.
Qed.

End registry.

Section delivery.

Lemma flags_unblocked (f : Z) :
  Z.land (Z.lor (Z.land f (Z.lnot REDIS_BLOCKED)) REDIS_UNBLOCKED)
    REDIS_BLOCKED = 0%Z.
Proof.
  apply Z.bits_inj'. intros n Hn.
  change REDIS_BLOCKED with (2 ^ 4)%Z.
  change REDIS_UNBLOCKED with (2 ^ 8)%Z.
  rewrite Z.land_spec, Z.lor_spec, Z.land_spec, Z.lnot_spec by done.
  rewrite !Z.pow2_bits_eqb by lia. rewrite Z.bits_0.
  destruct (Z.eqb_spec 4 n) as [<-|Hne]; simpl;
    [by rewrite andb_false_r|by rewrite andb_false_r].
Qed.

(** A client that blocks is queued behind the clients already waiting. *)
Lemma blockForKeysLoop_waiters c keys : ∀ bk k,
  waiters (blockForKeysLoop c keys bk) k
  = waiters bk k ++ replicate (occurrences k keys) c.
Proof.
  induction keys as [|k0 keys IH]; intros bk k; simpl.
  - by rewrite app_nil_r.
  - rewrite IH. unfold waiters at 1.
    destruct (decide (k0 = k)) as [->|Hne].
    + rewrite lookup_insert_eq, occurrences_cons_eq. simpl.
      unfold waiters. rewrite <- app_assoc. by destruct (bk !! k).
    + rewrite lookup_insert_ne by done.
      by rewrite occurrences_cons_ne.
Qed.

Lemma unblockClientWaitingData_spec w rc ks st :
  clients st !! w = Some rc →
  bpop_keys rc = Some ks →
  registeredFor (blocking_keys st) w ks →
  ∃ bk',
    unblockClientWaitingData w st
    = Some (mkServer (db st) bk'
              (<[w := mkClient
                        (Z.lor (Z.land (flags rc) (Z.lnot REDIS_BLOCKED))
                           REDIS_UNBLOCKED)
                        None (bpop_timeout rc) None (replies rc)]>
                 (clients st))
              (dirty st) (bpop_blocked_clients st - 1)%Z
              (unblocked_clients st ++ [w])
              (signalled st) (conf st) (unixtime st))
    ∧ ∀ k, waiters bk' k
           = filter (λ x, x ≠ w) (waiters (blocking_keys st) k).
Proof.
  intros Hrc Hks Hreg.
  destruct (unblockKeysLoop_spec w ks _ Hreg) as (bk' & Hloop & Hbk').
  exists bk'. split; [|done].
  unfold unblockClientWaitingData. rewrite Hrc; simpl.
  rewrite Hks; simpl. by rewrite Hloop.
Qed.

End delivery.

(** C1. For every key with a blocked waiter queued first whose request is a
    plain BLPOP / BRPOP (no target), and any pushed value: delivery serves
    that oldest waiter.  It is unblocked and gets the two-element reply
    (key, value), the value with the bytes that were pushed; the keyspace is
    unchanged, so the value is not inserted into the list; every queue keeps
    its other waiters in their order, so for waiters w1, w2, w3 the first
    push serves w1 and leaves w2, w3.  LPUSH and RPUSH on a key that is
    missing or holds a list reply 1 and do the same.  A client that blocks
    later is queued behind the waiters (FIFO by block time). *)
Theorem push_serves_oldest_waiter
  (c w : nat) (key : string) (val : sobj) (whr : lwhere) (rest : list nat)
  (rc : redisClient) (ks : list string) (st : redisServer) :
  blocking_keys st !! key = Some (w :: rest) →
  clients st !! w = Some rc →
  bpop_keys rc = Some ks →
  bpop_target rc = None →
  registeredFor (blocking_keys st) w ks →
  let ele := tryObjectEncoding val in
  ∃ st1,
    (∀ fuel,
       handleClientsWaitingListPush (S fuel) c key ele st = Some (true, st1))
    ∧ db st1 = db st
    ∧ clients st1 = <[w := servedClient rc key ele]> (clients st)
    ∧ bulkPayload (RBulk ele) = Some (getDecodedObject val)
    ∧ Z.land (flags (servedClient rc key ele)) REDIS_BLOCKED = 0%Z
    ∧ unblocked_clients st1 = unblocked_clients st ++ [w]
    ∧ (∀ k, waiters (blocking_keys st1) k
            = filter (λ x, x ≠ w) (waiters (blocking_keys st) k))
    ∧ waiters (blocking_keys st1) key = filter (λ x, x ≠ w) rest
    ∧ (w ∉ rest → waiters (blocking_keys st1) key = rest)
    ∧ (∀ fuel,
         db st !! key = None ∨ (∃ l, db st !! key = Some (OList l)) →
         ∃ st',
           pushGenericCommand (S fuel) c key val whr st = Some st'
           ∧ db st' = db st
           ∧ blocking_keys st' = blocking_keys st1
           ∧ clients st' = clients (addReply c (RShared cone) st1))
    ∧ (∀ c' keys' timeout target,
         waiters (blocking_keys (blockForKeys c' keys' timeout target st)) key
         = (w :: rest) ++ replicate (occurrences key keys') c').
Proof.
  intros Hkey Hrc Hks Htarget Hreg ele.
  destruct (unblockClientWaitingData_spec w rc ks st Hrc Hks Hreg)
    as (bk' & Hunblock & Hbk').
  assert (Hq : waiters bk' key = filter (λ x, x ≠ w) rest).
  { rewrite Hbk'. unfold waiters. rewrite Hkey. simpl.
    by rewrite filter_cons_False by (intros ?; done). }
  set (stu := mkServer (db st) bk'
                (<[w := mkClient
                          (Z.lor (Z.land (flags rc) (Z.lnot REDIS_BLOCKED))
                             REDIS_UNBLOCKED)
                          None (bpop_timeout rc) None (replies rc)]>
                   (clients st))
                (dirty st) (bpop_blocked_clients st - 1)%Z
                (unblocked_clients st ++ [w])
                (signalled st) (conf st) (unixtime st)) in *.
  set (st1 := addReplyBulk w ele
                (addReplyBulk w (Raw key) (addReplyMultiBulkLen w 2 stu))).
  assert (Hdeliver : ∀ fuel,
    handleClientsWaitingListPush (S fuel) c key ele st = Some (true, st1)).
  { intros fuel. simpl. rewrite Hkey. simpl. rewrite Hkey, Hrc. simpl.
    rewrite Hunblock. simpl. rewrite Htarget.
    rewrite bool_decide_eq_true_2; [done|].
    fold (waiters bk' key). rewrite Hq.
    pose proof (length_filter (λ x, x ≠ w) rest). simpl. lia. }
  exists st1. split; [exact Hdeliver|].
  split; [done|]. split.
  { unfold st1, addReplyBulk, addReplyMultiBulkLen, addReply, setClients, stu.
    simpl. rewrite !alter_insert_eq. simpl.
    unfold servedClient. by rewrite <- !app_assoc. }
  split; [simpl; f_equal; apply tryObjectEncoding_decoded|].
  split; [apply flags_unblocked|]. split; [done|].
  split; [exact Hbk'|]. split; [exact Hq|]. split.
  { intros Hnotin. change (blocking_keys st1) with bk'. rewrite Hq.
    by apply filter_ne_notin. }
  split.
  - intros fuel Hdb. unfold pushGenericCommand. fold ele.
    destruct Hdb as [->|(l & ->)]; rewrite Hdeliver; simpl; eauto.
  - intros c' keys' timeout target. simpl.
    rewrite blockForKeysLoop_waiters. unfold waiters. by rewrite Hkey.
Qed.

Lemma push_serves_oldest_waiter_witness :
  blocking_keys stThreeWaiters !! "k" = Some [1; 2; 3]
  ∧ ∃ st',
      lpushCommand 1 9 "k" (Raw "hi") stThreeWaiters = Some st'
      ∧ db st' = db stThreeWaiters
      ∧ waiters (blocking_keys st') "k" = [2; 3]
      ∧ clientReplies 1 st'
        = [RMultiBulkLen 2; RBulk (Raw "k"); RBulk (Raw "hi")]
      ∧ clientReplies 9 st' = [RShared cone].
Proof.
  split; [reflexivity|].
  assert (Hreg : registeredFor (blocking_keys stThreeWaiters) 1 ["k"]).
  { intros k. replace (blocking_keys stThreeWaiters)
      with (<["k" := [1; 2; 3]]> (∅ : gmap string (list nat)))
      by (vm_compute; reflexivity).
    unfold waiters. destruct (decide (k = "k")) as [->|Hne].
    - reflexivity.
    - rewrite lookup_insert_ne, lookup_empty by done.
      unfold occurrences. by rewrite filter_cons_False. }
  destruct (push_serves_oldest_waiter 9 1 "k" (Raw "hi") REDIS_HEAD [2; 3]
              (mkClient 16 (Some ["k"]) 0 None []) ["k"] stThreeWaiters
              eq_refl eq_refl eq_refl eq_refl Hreg)
    as (st1 & _ & _ & Hcl & _ & _ & _ & _ & _ & Hrest & Hpush & _).
  destruct (Hpush 0 (or_introl eq_refl)) as (st' & Hcmd & Hdb & Hbk & Hcl').
  exists st'. split; [exact Hcmd|]. split; [exact Hdb|]. split.
  - rewrite Hbk. apply Hrest.
    by intros [?|[?|?%elem_of_nil]%elem_of_cons]%elem_of_cons.
  - unfold clientReplies. rewrite Hcl'. simpl. rewrite Hcl.
    split; vm_compute; reflexivity.
Defined.

(** ** What a delivery may change in the keyspace (C2) *)

Section frame.

Lemma deliveryFrame_refl st b : deliveryFrame st st b.
Proof. by repeat split. Qed.

(** A step that keeps the keyspace, followed by a delivery. *)
Lemma deliveryFrame_step st st1 st' b :
  db st1 = db st →
  (∀ k, isTarget st1 k → isTarget st k) →
  (∀ x, is_Some (clients st !! x) → is_Some (clients st1 !! x)) →
  deliveryFrame st1 st' b → deliveryFrame st st' b.
Proof.
  intros Hdb Ht Hc (F1 & F2 & F3 & F4). repeat split.
  - intros k Hk. rewrite F1, Hdb; [done|]. intros ?. apply Hk. auto.
  - auto.
  - intros ->. by rewrite F3.
  - auto.
Qed.

Lemma isTarget_addReply c r st k :
  isTarget (addReply c r st) k → isTarget st k.
Proof.
  intros (w & rc & Hw & Ht). unfold addReply, setClients in Hw; simpl in Hw.
  destruct (decide (c = w)) as [->|Hne].
  - rewrite lookup_alter_eq in Hw.
    destruct (clients st !! w) as [rc0|] eqn:Hrc0; [|done].
    simpl in Hw. injection Hw as <-. by exists w, rc0.
  - rewrite lookup_alter_ne in Hw by done. by exists w, rc.
Qed.

Lemma clients_addReply_is_Some c r st x :
  is_Some (clients st !! x) → is_Some (clients (addReply c r st) !! x).
Proof.
  intros [rc Hrc]. unfold addReply, setClients; simpl.
  destruct (decide (c = x)) as [->|Hne].
  - rewrite lookup_alter_eq, Hrc. by eexists.
  - rewrite lookup_alter_ne by done. by eexists.
Qed.

Lemma deliveryFrame_addReply st st' b c r :
  deliveryFrame st st' b → deliveryFrame st (addReply c r st') b.
Proof.
  intros (F1 & F2 & F3 & F4). repeat split; simpl; auto.
  - intros k Hk%isTarget_addReply. auto.
  - intros x Hx. apply clients_addReply_is_Some. auto.
Qed.

Lemma unblock_frame w st st' :
  unblockClientWaitingData w st = Some st' →
  db st' = db st
  ∧ (∀ k, isTarget st' k → isTarget st k)
  ∧ (∀ x, is_Some (clients st !! x) → is_Some (clients st' !! x)).
Proof.
  unfold unblockClientWaitingData. intros H.
  destruct (clients st !! w) as [rc|] eqn:Hrc; [|done]. simpl in H.
  destruct (bpop_keys rc) as [ks|]; [|done]. simpl in H.
  destruct (unblockKeysLoop w ks (blocking_keys st)) as [bk|]; [|done].
  injection H as <-. simpl. split; [done|]. split.
  - intros k (x & rx & Hx & Ht). simpl in Hx.
    destruct (decide (w = x)) as [->|Hne].
    + rewrite lookup_insert_eq in Hx. by injection Hx as <-.
    + rewrite lookup_insert_ne in Hx by done. by exists x, rx.
  - intros x Hx. destruct (decide (w = x)) as [->|Hne].
    + rewrite lookup_insert_eq. by eexists.
    + by rewrite lookup_insert_ne.
Qed.

(** Pushing onto the target changes the keyspace at the target only. *)
Lemma pushTo_db key value whr st st' k :
  pushTo key value whr st = Some st' → k ≠ key →
  db st' !! k = db st !! k.
Proof.
  unfold pushTo. intros H Hne.
  destruct (derefList key st) as [l|]; [|done]. simpl in H.
  destruct (tlistPush (conf st) l value whr) as [l'|]; [|done].
  injection H as <-. simpl. by rewrite lookup_insert_ne.
Qed.

Lemma pushTo_clients key value whr st st' :
  pushTo key value whr st = Some st' → clients st' = clients st.
Proof.
  unfold pushTo. intros H.
  destruct (derefList key st) as [l|]; [|done]. simpl in H.
  destruct (tlistPush (conf st) l value whr) as [l'|]; [|done].
  by injection H as <-.
Qed.

Lemma dbAdd_db key o st st' k :
  dbAdd key o st = Some st' → k ≠ key → db st' !! k = db st !! k.
Proof.
  unfold dbAdd. intros H Hne. destruct (db st !! key); [done|].
  injection H as <-. simpl. by rewrite lookup_insert_ne.
Qed.

Lemma dbAdd_clients key o st st' :
  dbAdd key o st = Some st' → clients st' = clients st.
Proof.
  unfold dbAdd. intros H. destruct (db st !! key); [done|].
  by injection H as <-.
Qed.

Section loop.
  Variable handle :
    nat → string → sobj → redisServer → option (bool * redisServer).
  Hypothesis handle_frame : ∀ c key ele st b st',
    handle c key ele st = Some (b, st') → deliveryFrame st st' b.

Lemma rpoplpushHandlePushWith_frame c dstkey dstobj value st st' :
  rpoplpushHandlePushWith handle c dstkey dstobj value st = Some st' →
  (∀ k, k ≠ dstkey → ¬ isTarget st k → db st' !! k = db st !! k)
  ∧ (∀ k, isTarget st' k → isTarget st k)
  ∧ (∀ x, is_Some (clients st !! x) → is_Some (clients st' !! x)).
Proof.
  unfold rpoplpushHandlePushWith. intros H.
  destruct (handle c dstkey value st) as [[served st1]|] eqn:Hh;
    [|done]. simpl in H.
  destruct (handle_frame _ _ _ _ _ _ Hh) as (F1 & F2 & F3 & F4).
  destruct served.
  - injection H as <-. repeat split.
    + intros k _ Hk. simpl. auto.
    + intros k Hk%isTarget_addReply. auto.
    + intros x Hx. apply clients_addReply_is_Some. auto.
  - simpl in H.
    destruct (match dstobj with
              | Some _ => Some (incrDirty (signalModifiedKey dstkey st1))
              | None => dbAdd dstkey (OList createZiplistObject) st1
              end) as [st2|] eqn:Hst2; [|done]. simpl in H.
    destruct (pushTo dstkey value REDIS_HEAD st2) as [st3|] eqn:Hst3;
      [|done]. injection H as <-.
    assert (H2 : (∀ k, k ≠ dstkey → db st2 !! k = db st1 !! k)
                 ∧ clients st2 = clients st1).
    { destruct dstobj.
      - injection Hst2 as <-. by split.
      - split; [|by eapply dbAdd_clients].
        intros k Hk. by eapply dbAdd_db. }
    destruct H2 as [H2 H2c].
    pose proof (pushTo_clients _ _ _ _ _ Hst3) as H3c.
    repeat split.
    + intros k Hne Hk. simpl.
      rewrite (pushTo_db _ _ _ _ _ k Hst3 Hne).
      rewrite H2 by done. auto.
    + intros k Hk%isTarget_addReply. apply F2.
      destruct Hk as (x & rx & Hx & Ht). exists x, rx.
      by rewrite <- H2c, <- H3c.
    + intros x Hx. apply clients_addReply_is_Some.
      rewrite H3c, H2c. auto.
Qed.

Lemma waitingLoop_frame key ele : ∀ n st b st',
  waitingLoop handle key ele n st = Some (b, st') →
  deliveryFrame st st' b.
Proof.
  induction n as [|n IH]; intros st b st' H; simpl in H.
  { injection H as <- <-. apply deliveryFrame_refl. }
  destruct (blocking_keys st !! key) as [[|receiver waiting]|]; try done.
  destruct (clients st !! receiver) as [rc|] eqn:Hrc; [|done].
  simpl in H.
  destruct (unblockClientWaitingData receiver st) as [stu|] eqn:Hu;
    [|done]. simpl in H.
  destruct (unblock_frame _ _ _ Hu) as (Udb & Ut & Uc).
  case_bool_decide; [|done].
  destruct (bpop_target rc) as [dstkey|] eqn:Htarget.
  - assert (Hrun :
      (∃ st2, rpoplpushHandlePushWith handle receiver dstkey
                (db stu !! dstkey) ele stu = Some st2
              ∧ b = true ∧ st' = st2)
      ∨ waitingLoop handle key ele n
          (addReply receiver (RShared wrongtypeerr) stu) = Some (b, st')).
    { destruct (db stu !! dstkey) as [[]|]; auto;
        left;
        (destruct (rpoplpushHandlePushWith _ _ _ _ _ _) as [st2|];
         [|done]); injection H as <- <-; eauto. }
    destruct Hrun as [(st2 & Hpush & -> & ->)|Hloop].
    + apply rpoplpushHandlePushWith_frame in Hpush as (P1 & P2 & P3).
      repeat split.
      * intros k Hk. rewrite P1, Udb; [done| |].
        -- intros ->. apply Hk. by exists receiver, rc.
        -- intros ?. apply Hk. auto.
      * auto.
      * done.
      * auto.
    + apply IH in Hloop.
      eapply deliveryFrame_step; [| | |exact Hloop]; simpl.
      * done.
      * intros k Hk%isTarget_addReply. auto.
      * intros x Hx. apply clients_addReply_is_Some. auto.
  - injection H as <- <-.
    eapply deliveryFrame_step; [exact Udb|exact Ut|exact Uc|].
    do 3 apply deliveryFrame_addReply. apply deliveryFrame_refl.
Qed.

End loop.

Lemma handleClientsWaitingListPush_frame : ∀ fuel c key ele st b st',
  handleClientsWaitingListPush fuel c key ele st = Some (b, st') →
  deliveryFrame st st' b.
Proof.
  induction fuel as [|fuel IH]; intros c key ele st b st' H; [done|].
  simpl in H. destruct (blocking_keys st !! key) as [waiting|].
  - eapply waitingLoop_frame; [|exact H]. intros. eapply IH. eassumption.
  - injection H as <- <-. apply deliveryFrame_refl.
Qed.

End frame.

(** C2, as the claim states it, fails when the waiter served is a
    BRPOPLPUSH whose target is the pushed key itself (client 1 ran
    BRPOPLPUSH k k 0): the delivery succeeds and pushes the value onto "k",
    so a list is created under the key. *)
Lemma push_self_target_creates_list :
  brpoplpushCommand 1 1 "k" "k" (Raw "0") stEmpty = Some stSelfTarget
  ∧ db stSelfTarget !! "k" = None
  ∧ (∃ st1, handleClientsWaitingListPush 2 9 "k"
              (tryObjectEncoding (Raw "v")) stSelfTarget = Some (true, st1))
  ∧ ∃ st', lpushCommand 2 9 "k" (Raw "v") stSelfTarget = Some st'
      ∧ db st' !! "k" = Some (OList (Ziplist [ZStr "v"]))
      ∧ clientReplies 1 st' = [RBulk (Raw "v")]
      ∧ clientReplies 9 st' = [RShared cone].
Proof.
  split; [vm_compute; reflexivity|]. split; [reflexivity|].
  split; [eexists; vm_compute; reflexivity|].
  eexists. split; [vm_compute; reflexivity|].
  repeat split; vm_compute; reflexivity.
Qed.

(** C2, amended. For every push (LPUSH/RPUSH) onto a key absent from the
    keyspace, if delivery to a blocked waiter succeeds, the command replies
    the integer 1 to the pushing client and does nothing else after the
    delivery: it creates no list itself.  The keyspace is unchanged at every
    key that is not the BRPOPLPUSH target of some client, so it is unchanged
    at the pushed key when no client has that key as its target. *)
Theorem push_missing_key_delivered
  (fuel c : nat) (key : string) (val : sobj) (whr : lwhere)
  (st st1 : redisServer) :
  db st !! key = None →
  handleClientsWaitingListPush fuel c key (tryObjectEncoding val) st
  = Some (true, st1) →
  ∃ st',
    pushGenericCommand fuel c key val whr st = Some st'
    ∧ st' = addReply c (RShared cone) st1
    ∧ db st' = db st1
    ∧ (is_Some (clients st !! c) →
       clientReplies c st' = clientReplies c st1 ++ [RShared cone])
    ∧ (∀ k, ¬ isTarget st k → db st' !! k = db st !! k)
    ∧ (¬ isTarget st key → db st' !! key = None).
Proof.
  intros Hdb Hdeliver.
  destruct (handleClientsWaitingListPush_frame _ _ _ _ _ _ _ Hdeliver)
    as (F1 & _ & _ & F4).
  exists (addReply c (RShared cone) st1).
  split; [|split; [done|split; [done|split; [|split]]]].
  - unfold pushGenericCommand. by rewrite Hdb, Hdeliver.
  - intros Hc. apply clientReplies_addReply. auto.
  - intros k Hk. simpl. auto.
  - intros Hk. simpl. by rewrite F1.
Qed.

Lemma push_missing_key_delivered_witness :
  db stThreeWaiters !! "k" = None
  ∧ ¬ isTarget stThreeWaiters "k"
  ∧ ∃ st1 st',
      handleClientsWaitingListPush 1 9 "k" (tryObjectEncoding (Raw "hi"))
        stThreeWaiters
      = Some (true, st1)
      ∧ rpushCommand 1 9 "k" (Raw "hi") stThreeWaiters = Some st'
      ∧ clientReplies 9 st' = clientReplies 9 st1 ++ [RShared cone]
      ∧ db st' !! "k" = None.
Proof.
  split; [reflexivity|].
  assert (Hclients : clients stThreeWaiters
            = <[1 := mkClient 16 (Some ["k"]) 0 None []]>
                (<[2 := mkClient 16 (Some ["k"]) 0 None []]>
                   (<[3 := mkClient 16 (Some ["k"]) 0 None []]>
                      (<[9 := clPlain]> ∅))))
    by (vm_compute; reflexivity).
  assert (Hnt : ¬ isTarget stThreeWaiters "k").
  { intros (w & rc & Hw & Ht). rewrite Hclients in Hw.
    repeat (apply lookup_insert_Some in Hw as [[_ <-]|[_ Hw]]; [done|]).
    by rewrite lookup_empty in Hw. }
  split; [exact Hnt|].
  eexists.
  destruct (push_missing_key_delivered 1 9 "k" (Raw "hi") REDIS_TAIL
              stThreeWaiters _
              eq_refl ltac:(vm_compute; reflexivity))
    as (st' & Hcmd & _ & _ & Hreply & _ & Hkey).
  exists st'. split; [reflexivity|]. split; [exact Hcmd|].
  split; [apply Hreply; by eexists|apply Hkey, Hnt].
Defined.

(** ** Delivery returns and keeps the registry consistent *)

Section termination.

Lemma elem_of_blockedClients st w :
  w ∈ blockedClients st
  ↔ ∃ rc, clients st !! w = Some rc ∧ is_Some (bpop_keys rc).
Proof.
  unfold blockedClients. rewrite elem_of_dom. split.
  - intros [rc [Hrc Hp]%map_lookup_filter_Some]. by exists rc.
  - intros (rc & Hrc & Hp). exists rc. by apply map_lookup_filter_Some.
Qed.

Lemma sameRegistry_refl st : sameRegistry st st.
Proof. by split. Qed.

Lemma sameRegistry_trans st1 st2 st3 :
  sameRegistry st1 st2 → sameRegistry st2 st3 → sameRegistry st1 st3.
Proof.
  intros [B1 C1] [B2 C2]. split; [congruence|].
  intros w. by rewrite C2, C1.
Qed.

Lemma sameRegistry_addReply c r st : sameRegistry st (addReply c r st).
Proof.
  split; [done|]. intros w. unfold addReply, setClients. simpl.
  destruct (decide (c = w)) as [->|Hne].
  - rewrite lookup_alter_eq. by destruct (clients st !! w).
  - by rewrite lookup_alter_ne.
Qed.

Lemma sameRegistry_clients st st' :
  blocking_keys st' = blocking_keys st → clients st' = clients st →
  sameRegistry st st'.
Proof. intros Hb Hc. split; [done|]. intros w. by rewrite Hc. Qed.

Lemma sameRegistry_lookup st st' w rc' :
  sameRegistry st st' → clients st' !! w = Some rc' →
  ∃ rc, clients st !! w = Some rc ∧ bpop_keys rc = bpop_keys rc'
        ∧ bpop_target rc = bpop_target rc'.
Proof.
  intros [_ HC] Hw. specialize (HC w). rewrite Hw in HC. simpl in HC.
  destruct (clients st !! w) as [rc|]; [|done]. simpl in HC.
  injection HC as H1 H2. by exists rc.
Qed.

Lemma sameRegistry_sym st st' : sameRegistry st st' → sameRegistry st' st.
Proof. intros [HB HC]. split; [done|]. intros w. by rewrite HC. Qed.

Lemma sameRegistry_ok st st' :
  sameRegistry st st' → registryOk st →
  registryOk st' ∧ blockedClients st' = blockedClients st.
Proof.
  intros Hsame [R1 R2]. pose proof Hsame as [HB HC]. split; [split|].
  - intros k w Hw. rewrite HB in Hw.
    destruct (R1 k w Hw) as (rc & ks & Hrc & Hks).
    destruct (sameRegistry_lookup st' st w rc) as (rc' & Hrc' & Hk & _);
      [by apply sameRegistry_sym|done|].
    exists rc', ks. split; [done|congruence].
  - intros w rc' ks Hrc' Hks. rewrite HB.
    destruct (sameRegistry_lookup st st' w rc' Hsame Hrc')
      as (rc & Hrc & Hk & Ht).
    rewrite <- Ht. apply (R2 w rc ks Hrc). congruence.
  - apply set_eq. intros w. rewrite !elem_of_blockedClients. split.
    + intros (rc' & Hrc' & Hp).
      destruct (sameRegistry_lookup st st' w rc' Hsame Hrc')
        as (rc & Hrc & Hk & _).
      exists rc. split; [done|congruence].
    + intros (rc & Hrc & Hp).
      destruct (sameRegistry_lookup st' st w rc) as (rc' & Hrc' & Hk & _);
        [by apply sameRegistry_sym|done|].
      exists rc'. split; [done|congruence].
Qed.

Lemma occurrences_filter_ne (w c : nat) (l : list nat) :
  w ≠ c → occurrences w (filter (λ x, x ≠ c) l) = occurrences w l.
Proof.
  intros Hne. induction l as [|x l IH]; [done|].
  destruct (decide (x = c)) as [->|Hx].
  - rewrite filter_cons_False by (intros ?; done).
    by rewrite occurrences_cons_ne.
  - rewrite filter_cons_True by done.
    destruct (decide (x = w)) as [->|Hxw].
    + by rewrite !occurrences_cons_eq, IH.
    + by rewrite !occurrences_cons_ne.
Qed.

Lemma occurrences_NoDup (k : string) (ks : list string) :
  NoDup ks → occurrences k ks ≤ 1.
Proof.
  induction 1 as [|x ks Hx _ IH]; [unfold occurrences; simpl; lia|].
  destruct (decide (x = k)) as [->|Hne].
  - rewrite occurrences_cons_eq.
    assert (occurrences k ks = 0); [|lia].
    destruct (occurrences k ks) eqn:Ho; [done|].
    destruct Hx. clear IH. revert Ho.
    induction ks as [|y ks IH]; [done|].
    destruct (decide (y = k)) as [->|Hy]; [intros; left|].
    rewrite occurrences_cons_ne by done. intros. right. auto.
  - by rewrite occurrences_cons_ne.
Qed.

(** Unblocking keeps the invariant and takes the client out of the
    blocked ones. *)
Lemma unblock_registry w rc ks st :
  registryOk st → clients st !! w = Some rc → bpop_keys rc = Some ks →
  ∃ stu,
    unblockClientWaitingData w st = Some stu
    ∧ registryOk stu
    ∧ blockedClients stu = blockedClients st ∖ {[w]}
    ∧ w ∈ blockedClients st
    ∧ db stu = db st
    ∧ ∀ k, waiters (blocking_keys stu) k
           = filter (λ x, x ≠ w) (waiters (blocking_keys st) k).
Proof.
  intros [R1 R2] Hrc Hks.
  destruct (R2 w rc ks Hrc Hks) as [Hreg _].
  destruct (unblockClientWaitingData_spec w rc ks st Hrc Hks Hreg)
    as (bk' & Hu & Hbk').
  eexists. split; [exact Hu|]. simpl.
  split; [split|split; [|split; [|split; [done|done]]]]; simpl.
  - intros k w' Hw'. rewrite Hbk' in Hw'.
    apply list_elem_of_filter in Hw' as [Hne Hw'].
    rewrite lookup_insert_ne by done. by apply (R1 k).
  - intros w' rc' ks' Hrc' Hks'.
    destruct (decide (w = w')) as [<-|Hne].
    + rewrite lookup_insert_eq in Hrc'. by injection Hrc' as <-.
    + rewrite lookup_insert_ne in Hrc' by done.
      destruct (R2 w' rc' ks' Hrc' Hks') as [Hreg' Hnd]. split; [|done].
      intros k. rewrite Hbk', occurrences_filter_ne by done. apply Hreg'.
  - apply set_eq. intros w'.
    rewrite elem_of_difference, !elem_of_blockedClients,
      not_elem_of_singleton. simpl. split.
    + intros (rc' & Hrc' & Hp).
      destruct (decide (w = w')) as [<-|Hne].
      * rewrite lookup_insert_eq in Hrc'. injection Hrc' as <-.
        by destruct Hp.
      * rewrite lookup_insert_ne in Hrc' by done. split; [|done].
        by exists rc'.
    + intros [(rc' & Hrc' & Hp) Hne]. exists rc'.
      by rewrite lookup_insert_ne.
  - apply elem_of_blockedClients. exists rc. by rewrite Hks.
Qed.

Lemma tlistPush_total cf l value whr :
  ∃ l', tlistPush cf l value whr = Some l'.
Proof.
  unfold tlistPush, tlistTryConversion, tlistConvert.
  destruct l as [zl|l]; simpl; [|by eexists].
  destruct value as [s|n]; simpl.
  - case_bool_decide; simpl; [by eexists|].
    case_bool_decide; simpl; by eexists.
  - case_bool_decide; simpl; by eexists.
Qed.

End termination.

Section total.

Lemma length_filter_ne (c : nat) (l : list nat) :
  length (filter (λ x, x ≠ c) l) + occurrences c l = length l.
Proof.
  induction l as [|x l IH]; [done|].
  destruct (decide (x = c)) as [->|Hne].
  - rewrite filter_cons_False by (intros ?; done).
    rewrite occurrences_cons_eq. simpl. lia.
  - rewrite filter_cons_True by done.
    rewrite occurrences_cons_ne by done. simpl. lia.
Qed.

Lemma pushTo_total key value whr st l :
  derefList key st = Some l →
  ∃ st', pushTo key value whr st = Some st' ∧ sameRegistry st st'.
Proof.
  intros Hl. unfold pushTo. rewrite Hl. simpl.
  destruct (tlistPush_total (conf st) l value whr) as [l' ->]. simpl.
  eexists. split; [done|]. by apply sameRegistry_clients.
Qed.

Variable fuel : nat.
Hypothesis handle_total : ∀ c key ele st,
  registryOk st → size (blockedClients st) < fuel →
  ∃ served st',
    handleClientsWaitingListPush fuel c key ele st = Some (served, st')
    ∧ registryOk st' ∧ blockedClients st' ⊆ blockedClients st.

Lemma rpoplpushHandlePush_total c dstkey value st :
  registryOk st → size (blockedClients st) < fuel →
  db st !! dstkey = None ∨ (∃ l, db st !! dstkey = Some (OList l)) →
  ∃ st',
    rpoplpushHandlePush fuel c dstkey (db st !! dstkey) value st = Some st'
    ∧ registryOk st' ∧ blockedClients st' ⊆ blockedClients st.
Proof.
  intros Hok Hsize Hdst.
  unfold rpoplpushHandlePush, rpoplpushHandlePushWith.
  destruct (handle_total c dstkey value st Hok Hsize)
    as (served & st1 & Hh & Hok1 & Hsub1).
  rewrite Hh. simpl.
  destruct (handleClientsWaitingListPush_frame _ _ _ _ _ _ _ Hh)
    as (_ & _ & Hdb & _).
  destruct served; simpl.
  - eexists. split; [done|]. unfold addReplyBulk.
    destruct (sameRegistry_ok st1 _
                (sameRegistry_addReply c (RBulk value) st1) Hok1)
      as [Hok2 HB2]. rewrite HB2. done.
  - specialize (Hdb eq_refl).
    assert (Hstep : ∃ st2 l,
      match db st !! dstkey with
      | Some _ => Some (incrDirty (signalModifiedKey dstkey st1))
      | None => dbAdd dstkey (OList createZiplistObject) st1
      end = Some st2
      ∧ sameRegistry st1 st2 ∧ derefList dstkey st2 = Some l).
    { destruct Hdst as [Hnone|(l & Hl)].
      - rewrite Hnone. unfold dbAdd. rewrite Hdb, Hnone.
        eexists _, createZiplistObject. split; [done|].
        split; [by apply sameRegistry_clients|].
        unfold derefList. simpl. by rewrite lookup_insert_eq.
      - rewrite Hl. eexists _, l. split; [done|].
        split; [by apply sameRegistry_clients|].
        unfold derefList. simpl. by rewrite Hdb, Hl. }
    destruct Hstep as (st2 & l & -> & Hs12 & Hl). simpl.
    destruct (pushTo_total dstkey value REDIS_HEAD st2 l Hl)
      as (st3 & -> & Hs23). simpl.
    eexists. split; [done|].
    assert (Hs : sameRegistry st1 (addReplyBulk c value st3)).
    { eapply sameRegistry_trans; [exact Hs12|].
      eapply sameRegistry_trans; [exact Hs23|].
      apply sameRegistry_addReply. }
    destruct (sameRegistry_ok _ _ Hs Hok1) as [Hok3 HB3].
    rewrite HB3. done.
Qed.

Lemma waitingLoop_total key ele : ∀ n st,
  registryOk st → size (blockedClients st) < S fuel →
  n ≤ length (waiters (blocking_keys st) key) →
  ∃ served st',
    waitingLoop (handleClientsWaitingListPush fuel) key ele n st
    = Some (served, st')
    ∧ registryOk st' ∧ blockedClients st' ⊆ blockedClients st.
Proof.
  induction n as [|n IH]; intros st Hok Hsize Hn.
  { exists false, st. split; [done|]. split; [done|]. set_solver. }
  simpl. unfold waiters in Hn.
  destruct (blocking_keys st !! key) as [[|receiver waiting]|] eqn:Hkey;
    simpl in Hn; try lia.
  pose proof Hok as [R1 R2].
  destruct (R1 key receiver) as (rc & ks & Hrc & Hks).
  { unfold waiters. rewrite Hkey. by left. }
  rewrite Hrc. simpl.
  destruct (unblock_registry receiver rc ks st Hok Hrc Hks)
    as (stu & -> & Hoku & HBu & Hin & Hdbu & Hwu). simpl.
  assert (Hsizeu : size (blockedClients stu) < fuel).
  { assert (size (blockedClients stu) < size (blockedClients st));
      [|lia].
    apply subset_size. rewrite HBu. set_solver. }
  assert (Hsubu : blockedClients stu ⊆ blockedClients st)
    by (rewrite HBu; set_solver).
  assert (Hq : waiters (blocking_keys stu) key
               = filter (λ x, x ≠ receiver) waiting).
  { rewrite Hwu. unfold waiters. rewrite Hkey. simpl.
    by rewrite filter_cons_False by (intros ?; done). }
  fold (waiters (blocking_keys stu) key). rewrite Hq.
  rewrite bool_decide_eq_true_2
    by (pose proof (length_filter (λ x, x ≠ receiver) waiting);
        simpl; lia).
  destruct (bpop_target rc) as [dstkey|] eqn:Htarget.
  - destruct (db stu !! dstkey) as [o|] eqn:Hdst.
    + destruct (decide (objType o = REDIS_LIST)) as [Hlist|Hnot].
      * destruct o as [|l| | |]; try done.
        destruct (rpoplpushHandlePush_total receiver dstkey ele stu
                    Hoku Hsizeu) as (st2 & Hpush & Hok2 & Hsub2).
        { right. by exists l. }
        unfold rpoplpushHandlePush in Hpush. rewrite Hdst in Hpush.
        rewrite Hpush. simpl. exists true, st2.
        split; [done|]. split; [done|]. set_solver.
      * assert (Hloop : ∃ served st',
          waitingLoop (handleClientsWaitingListPush fuel) key ele n
            (addReply receiver (RShared wrongtypeerr) stu)
          = Some (served, st')
          ∧ registryOk st'
          ∧ blockedClients st' ⊆ blockedClients stu).
        { destruct (sameRegistry_ok stu _
                      (sameRegistry_addReply receiver
                         (RShared wrongtypeerr) stu) Hoku)
            as [Hoke HBe].
          destruct (IH (addReply receiver (RShared wrongtypeerr) stu))
            as (served & st' & Hl & Hok' & Hsub');
            [done|rewrite HBe; lia| |].
          - simpl. rewrite Hq.
            destruct (R2 receiver rc ks Hrc Hks) as [Hreg Hnd].
            specialize (Hnd ltac:(by rewrite Htarget)).
            pose proof (occurrences_NoDup key ks Hnd) as Hocc.
            rewrite (Hreg key) in Hocc. unfold waiters in Hocc.
            rewrite Hkey in Hocc. simpl in Hocc.
            rewrite occurrences_cons_eq in Hocc.
            pose proof (length_filter_ne receiver waiting). lia.
          - exists served, st'. split; [done|]. split; [done|].
            by rewrite <- HBe. }
        destruct Hloop as (served & st' & Hl & Hok' & Hsub').
        exists served, st'.
        split; [by destruct o|]. split; [done|]. set_solver.
    + destruct (rpoplpushHandlePush_total receiver dstkey ele stu
                  Hoku Hsizeu) as (st2 & Hpush & Hok2 & Hsub2).
      { by left. }
      unfold rpoplpushHandlePush in Hpush. rewrite Hdst in Hpush.
      rewrite Hpush. simpl. exists true, st2.
      split; [done|]. split; [done|]. set_solver.
  - eexists _, _. split; [done|].
    assert (Hs : sameRegistry stu
              (addReplyBulk receiver ele
                 (addReplyBulk receiver (Raw key)
                    (addReplyMultiBulkLen receiver 2 stu)))).
    { eapply sameRegistry_trans; [apply sameRegistry_addReply|].
      eapply sameRegistry_trans; apply sameRegistry_addReply. }
    destruct (sameRegistry_ok _ _ Hs Hoku) as [Hok3 HB3].
    rewrite HB3. done.
Qed.

End total.

(** handleClientsWaitingListPush returns: in a state whose registry is
    consistent, fuel beyond the number of blocked clients is enough, and the
    registry stays consistent. *)
Lemma handleClientsWaitingListPush_total : ∀ fuel c key ele st,
  registryOk st → size (blockedClients st) < fuel →
  ∃ served st',
    handleClientsWaitingListPush fuel c key ele st = Some (served, st')
    ∧ registryOk st' ∧ blockedClients st' ⊆ blockedClients st.
Proof.
  induction fuel as [|fuel IH]; intros c key ele st Hok Hsize; [lia|].
  simpl. destruct (blocking_keys st !! key) as [waiting|] eqn:Hkey.
  - apply (waitingLoop_total fuel IH); [done|done|].
    unfold waiters. by rewrite Hkey.
  - exists false, st. split; [done|]. split; [done|]. set_solver.
Qed.

Section reachable.

Lemma occurrences_app (x : nat) (l1 l2 : list nat) :
  occurrences x (l1 ++ l2) = occurrences x l1 + occurrences x l2.
Proof. unfold occurrences. by rewrite filter_app, length_app. Qed.

Lemma occurrences_replicate (x c : nat) n :
  occurrences x (replicate n c) = if decide (c = x) then n else 0.
Proof.
  induction n as [|n IH]; simpl; [by destruct (decide _)|].
  destruct (decide (c = x)) as [->|Hne].
  - by rewrite occurrences_cons_eq, IH.
  - by rewrite occurrences_cons_ne.
Qed.

Lemma occurrences_notin (x : nat) (l : list nat) :
  x ∉ l → occurrences x l = 0.
Proof.
  intros Hx. destruct (occurrences x l) eqn:Ho; [done|].
  destruct Hx. apply occurrences_pos_elem. lia.
Qed.

(** No waiter and no client with keys: the invariant holds. *)
Lemma registryOk_initial st :
  blocking_keys st = ∅ →
  (∀ w rc, clients st !! w = Some rc → bpop_keys rc = None) →
  registryOk st.
Proof.
  intros Hbk Hcl. split.
  - intros k w Hw. unfold waiters in Hw. rewrite Hbk, lookup_empty in Hw.
    by apply elem_of_nil in Hw.
  - intros w rc ks Hrc Hks. rewrite (Hcl w rc Hrc) in Hks. done.
Qed.

(** Blocking a client that is not blocked keeps the invariant. *)
Lemma blockForKeys_registryOk c cl keys timeout target st :
  registryOk st → clients st !! c = Some cl → bpop_keys cl = None →
  (is_Some target → NoDup keys) →
  registryOk (blockForKeys c keys timeout target st).
Proof.
  intros [R1 R2] Hc Hnone Hnd.
  assert (Hfresh : ∀ k, c ∉ waiters (blocking_keys st) k).
  { intros k Hin. destruct (R1 k c Hin) as (rc & ks & Hrc & Hks).
    rewrite Hc in Hrc. injection Hrc as <-. congruence. }
  split; simpl.
  - intros k w. rewrite blockForKeysLoop_waiters, elem_of_app.
    destruct (decide (c = w)) as [<-|Hne].
    + intros _. rewrite lookup_alter_eq, Hc. simpl. by eexists _, _.
    + rewrite lookup_alter_ne by done. intros [Hw|Hw]; [by apply (R1 k)|].
      by apply elem_of_replicate in Hw as [? _].
  - intros w rc ks Hrc Hks.
    destruct (decide (c = w)) as [<-|Hne].
    + rewrite lookup_alter_eq, Hc in Hrc. simpl in Hrc.
      injection Hrc as <-. simpl in Hks |- *. injection Hks as <-.
      split; [|done]. intros k.
      rewrite blockForKeysLoop_waiters, occurrences_app,
        occurrences_replicate, occurrences_notin by done.
      by rewrite decide_True.
    + rewrite lookup_alter_ne in Hrc by done.
      destruct (R2 w rc ks Hrc Hks) as [Hreg Hnd']. split; [|done].
      intros k.
      rewrite blockForKeysLoop_waiters, occurrences_app,
        occurrences_replicate, decide_False by done.
      rewrite Hreg. lia.
Qed.

(** LPUSH / RPUSH return in every state whose registry is consistent,
    given fuel beyond the number of blocked clients. *)
Lemma pushGenericCommand_total fuel c key val whr st :
  registryOk st → size (blockedClients st) < fuel →
  ∃ st', pushGenericCommand fuel c key val whr st = Some st'
         ∧ registryOk st'.
Proof.
  intros Hok Hsize. unfold pushGenericCommand.
  destruct (handleClientsWaitingListPush_total fuel c key
              (tryObjectEncoding val) st Hok Hsize)
    as (served & st1 & Hh & Hok1 & _).
  pose proof (handleClientsWaitingListPush_frame _ _ _ _ _ _ _ Hh)
    as (_ & _ & Hdb & _).
  assert (Hstore : ∀ st2 l,
    sameRegistry st1 st2 → derefList key st2 = Some l →
    ∃ st', pushGenericStore c key (tryObjectEncoding val) whr st2
           = Some st' ∧ registryOk st').
  { intros st2 l Hs12 Hl. unfold pushGenericStore.
    destruct (pushTo_total key (tryObjectEncoding val) whr st2 l Hl)
      as (st3 & Hpush & Hs23).
    rewrite Hpush. simpl.
    assert (Hl3 : ∃ l3, derefList key st3 = Some l3).
    { unfold pushTo in Hpush. rewrite Hl in Hpush. simpl in Hpush.
      destruct (tlistPush _ _ _ _) as [l3|]; [|done].
      injection Hpush as <-. exists l3. unfold derefList. simpl.
      by rewrite lookup_insert_eq. }
    destruct Hl3 as [l3 ->]. simpl. eexists. split; [done|].
    eapply (sameRegistry_ok st1); [|done].
    eapply sameRegistry_trans; [exact Hs12|].
    eapply sameRegistry_trans; [exact Hs23|].
    eapply sameRegistry_trans; [apply sameRegistry_addReply|].
    by apply sameRegistry_clients. }
  destruct (db st !! key) as [o|] eqn:Hkey.
  - destruct o as [|l| | |];
      try (eexists; split; [done|];
           by eapply sameRegistry_ok; [apply sameRegistry_addReply|]).
    rewrite Hh. simpl. destruct served.
    + eexists. split; [done|].
      eapply (sameRegistry_ok st1); [|done].
      eapply sameRegistry_trans; [|apply sameRegistry_addReply].
      by apply sameRegistry_clients.
    + apply (Hstore st1 l); [apply sameRegistry_refl|].
      unfold derefList. by rewrite Hdb, Hkey.
  - rewrite Hh. simpl. destruct served.
    + eexists. split; [done|].
      by eapply sameRegistry_ok; [apply sameRegistry_addReply|].
    + unfold dbAdd. rewrite Hdb, Hkey by done. simpl.
      eapply Hstore; [by apply sameRegistry_clients|].
      unfold derefList. simpl. by rewrite lookup_insert_eq.
Qed.

End reachable.

(** ** Promotion is one-way (C8) *)

Section promotion.

Lemma applyListOp_linked cf op l o' :
  applyListOp cf op (Linkedlist l) = Some o' →
  tlistEncoding o' = REDIS_ENCODING_LINKEDLIST.
Proof.
  destruct op; simpl; intros H.
  - by injection H as <-.
  - injection H as <-. destruct whr; simpl.
    + by destruct l.
    + by destruct (last l).
  - by injection H as <-.
  - unfold tlistConvert in H. simpl in H.
    case_bool_decide; [|done]. by injection H as <-.
  - unfold linsertList in H. destruct refval; [|done]. simpl in H.
    destruct (list_find _ l) as [[p ?]|]; by simplify_eq/=.
  - unfold lsetList in H. simpl in H.
    destruct (listIndex l index); by simplify_eq/=.
  - injection H as <-. unfold ltrimList.
    by destruct (normalizeRange _ _ _) as [[? ?]|].
  - injection H as <-. unfold lremList.
    case_bool_decide; simpl.
    + by destruct (lremScan _ _ _ _).
    + by destruct (lremScan _ _ _ _).
Qed.

Lemma runListOps_linked ops : ∀ o o',
  tlistEncoding o = REDIS_ENCODING_LINKEDLIST →
  runListOps ops o = Some o' →
  tlistEncoding o' = REDIS_ENCODING_LINKEDLIST.
Proof.
  induction ops as [|[cf op] ops IH]; intros o o' Henc H; simpl in H.
  - by injection H as <-.
  - destruct o as [zl|l]; [done|].
    destruct (applyListOp cf op (Linkedlist l)) as [o1|] eqn:Hop; [|done].
    eapply IH; [|exact H]. by eapply applyListOp_linked.
Qed.

Lemma applySetOp_hashtable cf op d s' :
  applySetOp cf op (Hashtable d) = Some s' →
  tsetEncoding s' = REDIS_ENCODING_HT.
Proof.
  destruct op; simpl; intros H.
  - destruct (dictAdd d (litGetObject ele)); by simplify_eq/=.
  - injection H as <-. by destruct (dictDelete d (litGetObject ele)).
  - done.
Qed.

Lemma runSetOps_hashtable ops : ∀ s s',
  tsetEncoding s = REDIS_ENCODING_HT →
  runSetOps ops s = Some s' →
  tsetEncoding s' = REDIS_ENCODING_HT.
Proof.
  induction ops as [|[cf op] ops IH]; intros s s' Henc H; simpl in H.
  - by injection H as <-.
  - destruct s as [ints|d]; [done|].
    destruct (applySetOp cf op (Hashtable d)) as [s1|] eqn:Hop; [|done].
    eapply IH; [|exact H]. by eapply applySetOp_hashtable.
Qed.

Lemma tlistConvert_None o enc :
  tlistConvert o enc = None
  ↔ tlistEncoding o ≠ enc
    ∧ ¬ (tlistEncoding o = REDIS_ENCODING_ZIPLIST
         ∧ enc = REDIS_ENCODING_LINKEDLIST).
Proof.
  unfold tlistConvert. case_bool_decide as Hsame.
  - split; [done|]. by intros [? _].
  - destruct o as [zl|l]; simpl in *.
    + case_bool_decide as Henc.
      * split; [|done]. intros _. split; [done|]. by intros [_ ?].
      * split; [done|]. intros [_ []]. split; [done|].
        by destruct (decide (enc = REDIS_ENCODING_LINKEDLIST)).
    + split; [|done]. intros _. split; [done|]. by intros [? _].
Qed.

Lemma tlistConvert_Some o enc o' :
  tlistConvert o enc = Some o' →
  tlistEncoding o' = enc
  ∧ ((tlistEncoding o = enc ∧ o' = o)
     ∨ (tlistEncoding o = REDIS_ENCODING_ZIPLIST
        ∧ enc = REDIS_ENCODING_LINKEDLIST)).
Proof.
  unfold tlistConvert. case_bool_decide as Hsame.
  - intros H. injection H as <-. auto.
  - destruct o as [zl|l]; [|done]. case_bool_decide as Henc; [done|].
    intros H. injection H as <-.
    assert (enc = REDIS_ENCODING_LINKEDLIST)
      by (by destruct (decide (enc = REDIS_ENCODING_LINKEDLIST))).
    subst. auto.
Qed.

Lemma tsetConvert_None s enc :
  ¬ (tsetEncoding s = REDIS_ENCODING_INTSET ∧ enc = REDIS_ENCODING_HT) →
  tsetConvert s enc = None.
Proof.
  intros H. destruct s as [ints|d]; [|done]. simpl.
  case_bool_decide as Henc; [done|]. destruct H. split; [done|].
  by destruct (decide (enc = REDIS_ENCODING_HT)).
Qed.

Lemma tsetConvert_Some s enc s' :
  tsetConvert s enc = Some s' →
  tsetEncoding s = REDIS_ENCODING_INTSET ∧ enc = REDIS_ENCODING_HT
  ∧ tsetEncoding s' = REDIS_ENCODING_HT.
Proof.
  destruct s as [ints|d]; [|done]. simpl.
  case_bool_decide as Henc; [done|]. intros H.
  destruct (tsetConvertLoop _ _) as [d|]; [|done]. injection H as <-.
  split; [done|]. split; [|done].
  by destruct (decide (enc = REDIS_ENCODING_HT)).
Qed.

End promotion.

(** C8, as the claim states it, fails for one kind of request: asking a list
    to convert to the encoding it already has is neither of the two legal
    conversions, and it is a silent no-op, not a fatal error. *)
Lemma list_convert_same_encoding_is_noop :
  (tlistEncoding (Linkedlist [Raw "a"]), REDIS_ENCODING_LINKEDLIST)
  ≠ (REDIS_ENCODING_ZIPLIST, REDIS_ENCODING_LINKEDLIST)
  ∧ tlistConvert (Linkedlist [Raw "a"]) REDIS_ENCODING_LINKEDLIST
    = Some (Linkedlist [Raw "a"])
  ∧ tlistConvert (Ziplist [ZStr "a"]) REDIS_ENCODING_ZIPLIST
    = Some (Ziplist [ZStr "a"]).
Proof. repeat split. discriminate. Qed.

(** C8, amended. Promotion is monotone: whatever sequence of in-place
    operations runs on it, under whatever configuration, a list that is
    Linked stays Linked and a set that is a HashSet stays a HashSet, also
    after shrinking.  tlistConvert succeeds only for a request that names the
    encoding the list already has (a no-op) or for Packed to Linked, and
    every other request is fatal; tsetConvert succeeds only for IntSet to
    HashSet and every other request, the current encoding included, is
    fatal. *)
Theorem promotion_is_monotone :
  (∀ ops o o',
     tlistEncoding o = REDIS_ENCODING_LINKEDLIST →
     runListOps ops o = Some o' →
     tlistEncoding o' = REDIS_ENCODING_LINKEDLIST)
  ∧ (∀ ops s s',
     tsetEncoding s = REDIS_ENCODING_HT →
     runSetOps ops s = Some s' →
     tsetEncoding s' = REDIS_ENCODING_HT)
  ∧ (∀ o enc,
     tlistConvert o enc = None
     ↔ tlistEncoding o ≠ enc
       ∧ ¬ (tlistEncoding o = REDIS_ENCODING_ZIPLIST
            ∧ enc = REDIS_ENCODING_LINKEDLIST))
  ∧ (∀ o enc o',
     tlistConvert o enc = Some o' →
     tlistEncoding o' = enc
     ∧ ((tlistEncoding o = enc ∧ o' = o)
        ∨ (tlistEncoding o = REDIS_ENCODING_ZIPLIST
           ∧ enc = REDIS_ENCODING_LINKEDLIST)))
  ∧ (∀ s enc,
     ¬ (tsetEncoding s = REDIS_ENCODING_INTSET ∧ enc = REDIS_ENCODING_HT) →
     tsetConvert s enc = None)
  ∧ (∀ s enc s',
     tsetConvert s enc = Some s' →
     tsetEncoding s = REDIS_ENCODING_INTSET ∧ enc = REDIS_ENCODING_HT
     ∧ tsetEncoding s' = REDIS_ENCODING_HT).
Proof.
  split; [exact runListOps_linked|].
  split; [exact runSetOps_hashtable|].
  split; [exact tlistConvert_None|].
  split; [exact tlistConvert_Some|].
  split; [exact tsetConvert_None|exact tsetConvert_Some].
Qed.

Lemma promotion_is_monotone_witness :
  let cf := mkConfig 128 64 512 in
  (tlistEncoding (Linkedlist [Raw "a"; Raw "b"; Raw "c"])
   = REDIS_ENCODING_LINKEDLIST
   ∧ runListOps [(cf, OpPop REDIS_HEAD); (cf, OpTrim 0 0)]
       (Linkedlist [Raw "a"; Raw "b"; Raw "c"])
     = Some (Linkedlist [Raw "b"])
   ∧ tlistEncoding (Linkedlist [Raw "b"]) = REDIS_ENCODING_LINKEDLIST)
  ∧ (tsetEncoding (Hashtable {["x"; "y"]}) = REDIS_ENCODING_HT
     ∧ runSetOps [(cf, OpRemove (LitBuffer "x")); (cf, OpAdd (LitLongLong 5))]
         (Hashtable {["x"; "y"]})
       = Some (Hashtable {["5"; "y"]})
     ∧ tsetEncoding (Hashtable {["5"; "y"]}) = REDIS_ENCODING_HT).
Proof.
  destruct promotion_is_monotone as (Hlist & Hset & _).
  split.
  - split; [reflexivity|]. split; [reflexivity|].
    apply (Hlist [(mkConfig 128 64 512, OpPop REDIS_HEAD);
                  (mkConfig 128 64 512, OpTrim 0 0)]
             (Linkedlist [Raw "a"; Raw "b"; Raw "c"])); reflexivity.
  - split; [reflexivity|]. split; [vm_compute; reflexivity|].
    apply (Hset [(mkConfig 128 64 512, OpRemove (LitBuffer "x"));
                 (mkConfig 128 64 512, OpAdd (LitLongLong 5))]
             (Hashtable {["x"; "y"]})); [reflexivity|].
    vm_compute; reflexivity.
Defined.

(** ** Set difference (C6) *)

Section integers.

Lemma to_int_nonnil n :
  Z.to_int n ≠ Decimal.Pos Decimal.Nil ∧ Z.to_int n ≠ Decimal.Neg Decimal.Nil.
Proof.
  destruct n as [|p|p]; simpl; split; try done;
    intros [= H]; by apply Unsigned.to_uint_nonnil in H.
Qed.

Lemma string2ll_ll2string n :
  isLongLong n → string2ll (ll2string n) = Some n.
Proof.
  intros Hn. unfold string2ll, ll2string at 1.
  destruct (to_int_nonnil n) as [H1 H2].
  rewrite NilZero.isi by done. simpl. rewrite DecimalZ.of_to.
  by rewrite bool_decide_eq_true_2.
Qed.

Lemma ll2string_inj a b :
  isLongLong a → isLongLong b → ll2string a = ll2string b → a = b.
Proof.
  intros Ha Hb Heq. apply string2ll_ll2string in Ha, Hb.
  rewrite Heq in Ha. congruence.
Qed.

(** A literal that reads as an integer prints as that integer. *)
Lemma litGetLongLong_Some l n :
  litWf l → litGetLongLong l = Some n →
  litBytes l = ll2string n ∧ isLongLong n.
Proof.
  destruct l as [s|m|[s|m]]; simpl; intros Hwf H.
  - by apply string2ll_Some in H as [-> ?].
  - by injection H as <-.
  - by apply string2ll_Some in H as [-> ?].
  - by injection H as <-.
Qed.

(** A literal that does not read as an integer prints as none. *)
Lemma litGetLongLong_None l n :
  litGetLongLong l = None → isLongLong n → litBytes l ≠ ll2string n.
Proof.
  destruct l as [s|m|[s|m]]; simpl; intros H Hn Heq; try done;
    unfold litBytes in Heq; simpl in Heq; subst s;
    by rewrite string2ll_ll2string in H.
Qed.

End integers.

Section set_objects.

Lemma elem_of_intset_content ints n :
  Forall isLongLong ints → isLongLong n →
  ll2string n ∈ tsetContent (Intset ints) ↔ n ∈ ints.
Proof.
  intros Hints Hn. simpl. rewrite elem_of_list_to_set, list_elem_of_fmap.
  split.
  - intros (m & Heq & Hm).
    rewrite Forall_forall in Hints.
    by rewrite (ll2string_inj n m Hn (Hints m Hm) Heq).
  - intros Hin. by exists n.
Qed.

Lemma ll2string_NoDup ints :
  NoDup ints → Forall isLongLong ints → NoDup (ll2string <$> ints).
Proof.
  intros Hnd Hints. apply NoDup_fmap_2_strong; [|done].
  rewrite Forall_forall in Hints.
  intros a b Ha Hb. apply ll2string_inj; auto.
Qed.

Lemma intsetInsert_perm n ints : intsetInsert n ints ≡ₚ n :: ints.
Proof.
  induction ints as [|x ints IH]; simpl; [done|].
  case_bool_decide; [done|]. rewrite IH. apply Permutation_swap.
Qed.

Lemma tsetConvertLoop_spec ints : ∀ d,
  NoDup ints → Forall isLongLong ints →
  (∀ n, n ∈ ints → ll2string n ∉ d) →
  tsetConvertLoop (litFromLongLong <$> ints) d
  = Some (list_to_set (ll2string <$> ints) ∪ d).
Proof.
  induction ints as [|n ints IH]; intros d Hnd Hints Hfresh; simpl.
  - f_equal. set_solver.
  - apply NoDup_cons in Hnd as [Hn Hnd].
    apply Forall_cons in Hints as [Hnr Hints].
    unfold dictAdd. simpl.
    rewrite bool_decide_eq_false_2 by (apply Hfresh; left).
    rewrite IH; [f_equal; set_solver|done|done|].
    intros m Hm. rewrite not_elem_of_union, not_elem_of_singleton.
    split; [|apply Hfresh; by right].
    intros Heq. rewrite Forall_forall in Hints.
    apply ll2string_inj in Heq; [by subst|auto|done].
Qed.

Lemma tsetConvert_wf ints :
  tsetWf (Intset ints) →
  tsetConvert (Intset ints) REDIS_ENCODING_HT
  = Some (Hashtable (tsetContent (Intset ints))).
Proof.
  intros [Hnd Hints]. unfold tsetConvert.
  rewrite bool_decide_eq_false_2 by (intros ?; done).
  simpl. rewrite tsetConvertLoop_spec by (done || set_solver).
  simpl. do 2 f_equal. set_solver.
Qed.

Lemma tsetSize_content s : tsetWf s → tsetSize s = size (tsetContent s).
Proof.
  destruct s as [ints|d]; simpl; [|done]. intros [Hnd Hints].
  rewrite size_list_to_set by by apply ll2string_NoDup.
  by rewrite length_fmap.
Qed.

Lemma tsetLiterals_wf s :
  tsetWf s →
  Forall litWf (tsetLiterals s)
  ∧ list_to_set (litBytes <$> tsetLiterals s) = tsetContent s
  ∧ NoDup (litBytes <$> tsetLiterals s).
Proof.
  destruct s as [ints|d]; simpl.
  - intros [Hnd Hints]. rewrite <- list_fmap_compose.
    repeat split; [|by apply ll2string_NoDup].
    by apply Forall_fmap.
  - intros _. rewrite <- list_fmap_compose.
    replace (litBytes ∘ (λ e, litFromObject (Raw e))) with (@id string)
      by done.
    rewrite list_fmap_id. repeat split.
    + apply Forall_fmap, Forall_true. done.
    + apply list_to_set_elements_L.
    + apply NoDup_elements.
Qed.

Lemma tsetAddLiteral_spec cf s l :
  tsetWf s → litWf l →
  ∃ s',
    tsetAddLiteral cf s l
    = Some (s', bool_decide (litBytes l ∉ tsetContent s))
    ∧ tsetWf s'
    ∧ tsetContent s' = {[litBytes l]} ∪ tsetContent s.
Proof.
  intros Hs Hl. destruct s as [ints|d].
  - destruct Hs as [Hnd Hints].
    unfold tsetAddLiteral.
    destruct (litGetLongLong l) as [n|] eqn:Hn.
    + destruct (litGetLongLong_Some l n Hl Hn) as [Hbytes Hnr].
      rewrite Hbytes.
      pose proof (elem_of_intset_content ints n Hints Hnr) as Hmem.
      unfold intsetAdd, intsetFind. case_bool_decide as Hin.
      * exists (Intset ints).
        rewrite bool_decide_eq_false_2 by (intros Hc; apply Hc, Hmem, Hin).
        split; [done|]. split; [done|].
        apply Hmem in Hin. set_solver.
      * assert (Hwf' : tsetWf (Intset (intsetInsert n ints))).
        { split.
          - rewrite intsetInsert_perm. by apply NoDup_cons.
          - rewrite intsetInsert_perm. by apply Forall_cons. }
        assert (Hc' : tsetContent (Intset (intsetInsert n ints))
                      = {[ll2string n]} ∪ tsetContent (Intset ints)).
        { simpl. rewrite intsetInsert_perm. simpl. done. }
        assert (Hb : bool_decide (ll2string n ∉ tsetContent (Intset ints))
                     = true).
        { apply bool_decide_eq_true_2. intros Hc. apply Hin, Hmem, Hc. }
        rewrite Hb.
        destruct (bool_decide (set_max_intset_entries cf < _)).
        -- rewrite tsetConvert_wf by done. simpl.
           eexists. split; [done|]. split; [done|]. simpl. exact Hc'.
        -- eexists. split; [done|]. by split.
    + assert (Hfresh : litBytes l ∉ tsetContent (Intset ints)).
      { simpl. rewrite elem_of_list_to_set, list_elem_of_fmap.
        intros (m & Heq & Hm). rewrite Forall_forall in Hints.
        by apply (litGetLongLong_None l m Hn (Hints m Hm)). }
      rewrite tsetConvert_wf by done. simpl.
      unfold dictAdd. fold (litBytes l).
      rewrite bool_decide_eq_false_2 by done. simpl.
      rewrite bool_decide_eq_true_2 by done.
      eexists. split; [done|]. by split.
  - simpl. unfold dictAdd. fold (litBytes l).
    case_bool_decide as Hin.
    + exists (Hashtable d).
      rewrite bool_decide_eq_false_2 by (intros Hc; by apply Hc).
      split; [done|]. split; [done|]. simpl. set_solver.
    + eexists. rewrite bool_decide_eq_true_2 by done.
      split; [done|]. by split.
Qed.

Lemma tsetRemoveLiteral_spec s l :
  tsetWf s → litWf l →
  ∃ s',
    tsetRemoveLiteral s l = (s', bool_decide (litBytes l ∈ tsetContent s))
    ∧ tsetWf s'
    ∧ tsetContent s' = tsetContent s ∖ {[litBytes l]}.
Proof.
  intros Hs Hl. destruct s as [ints|d].
  - destruct Hs as [Hnd Hints]. unfold tsetRemoveLiteral.
    destruct (litGetLongLong l) as [n|] eqn:Hn.
    + destruct (litGetLongLong_Some l n Hl Hn) as [Hbytes Hnr].
      rewrite Hbytes.
      pose proof (elem_of_intset_content ints n Hints Hnr) as Hmem.
      unfold intsetRemove, intsetFind. case_bool_decide as Hin.
      * eexists. rewrite bool_decide_eq_true_2 by by apply Hmem.
        split; [done|]. split.
        -- split; [by apply NoDup_filter|].
           apply Forall_forall. intros x [_ Hx]%list_elem_of_filter.
           rewrite Forall_forall in Hints. auto.
        -- simpl. apply set_eq. intros x.
           rewrite elem_of_difference, !elem_of_list_to_set,
             !list_elem_of_fmap, not_elem_of_singleton.
           rewrite Forall_forall in Hints. split.
           ++ intros (m & -> & [Hne Hm]%list_elem_of_filter).
              split; [by exists m|].
              intros Heq. apply Hne. apply ll2string_inj; auto.
           ++ intros [(m & -> & Hm) Hne]. exists m. split; [done|].
              apply list_elem_of_filter. split; [|done]. by intros ->.
      * exists (Intset ints).
        rewrite bool_decide_eq_false_2 by (intros Hc; by apply Hin, Hmem).
        split; [done|]. split; [done|].
        assert (ll2string n ∉ tsetContent (Intset ints))
          by (intros Hc; by apply Hin, Hmem).
        set_solver.
    + assert (Hfresh : litBytes l ∉ tsetContent (Intset ints)).
      { simpl. rewrite elem_of_list_to_set, list_elem_of_fmap.
        intros (m & Heq & Hm). rewrite Forall_forall in Hints.
        by apply (litGetLongLong_None l m Hn (Hints m Hm)). }
      exists (Intset ints).
      rewrite bool_decide_eq_false_2 by done.
      split; [done|]. split; [done|]. set_solver.
  - simpl. unfold dictDelete. fold (litBytes l).
    case_bool_decide as Hin.
    + eexists. split; [done|]. by split.
    + exists (Hashtable d). split; [done|]. split; [done|].
      simpl. set_solver.
Qed.

End set_objects.

Section set_algebra.

Lemma size_add_member (x : string) (X : gset string) :
  Z.of_nat (size ({[x]} ∪ X))
  = if bool_decide (x ∉ X) then (Z.of_nat (size X) + 1)%Z
    else Z.of_nat (size X).
Proof.
  case_bool_decide as Hx.
  - rewrite size_union by set_solver. rewrite size_singleton. lia.
  - assert (x ∈ X) by (by destruct (decide (x ∈ X))).
    by replace ({[x]} ∪ X) with X by set_solver.
Qed.

Lemma size_remove_member (x : string) (X : gset string) :
  Z.of_nat (size (X ∖ {[x]}))
  = if bool_decide (x ∈ X) then (Z.of_nat (size X) - 1)%Z
    else Z.of_nat (size X).
Proof.
  case_bool_decide as Hx.
  - rewrite size_difference by set_solver. rewrite size_singleton.
    assert (size X ≠ 0) by (intros ?%size_empty_inv; set_solver). lia.
  - by replace (X ∖ {[x]}) with X by set_solver.
Qed.

(** The loop over the elements of one source either adds them all to the
    result or removes them all from it; the counter follows the size. *)
Lemma sunionDiffElements_spec cf op first lits : ∀ dstset,
  op ≠ REDIS_OP_INTER →
  Forall litWf lits → tsetWf dstset →
  ∃ dstset',
    sunionDiffElements cf op first lits dstset
      (Z.of_nat (size (tsetContent dstset)))
    = Some (dstset', Z.of_nat (size (tsetContent dstset')))
    ∧ tsetWf dstset'
    ∧ tsetContent dstset'
      = if bool_decide (op = REDIS_OP_UNION) || first
        then tsetContent dstset ∪ list_to_set (litBytes <$> lits)
        else tsetContent dstset ∖ list_to_set (litBytes <$> lits).
Proof.
  induction lits as [|ele lits IH]; intros dstset Hop Hlits Hwf.
  - exists dstset. split; [done|]. split; [done|].
    simpl. destruct (_ || _); set_solver.
  - apply Forall_cons in Hlits as [Hele Hlits]. simpl.
    destruct (bool_decide (op = REDIS_OP_UNION) || first) eqn:Hmode.
    + destruct (tsetAddLiteral_spec cf dstset ele Hwf Hele)
        as (d1 & -> & Hwf1 & Hc1). simpl.
      rewrite <- size_add_member, <- Hc1.
      destruct (IH d1 Hop Hlits Hwf1) as (d2 & -> & Hwf2 & Hc2).
      exists d2. split; [done|]. split; [done|].
      rewrite Hc2, ?Hmode, Hc1. set_solver.
    + rewrite bool_decide_eq_true_2 by by destruct op.
      destruct (tsetRemoveLiteral_spec dstset ele Hwf Hele)
        as (d1 & -> & Hwf1 & Hc1).
      rewrite <- size_remove_member, <- Hc1.
      destruct (IH d1 Hop Hlits Hwf1) as (d2 & -> & Hwf2 & Hc2).
      exists d2. split; [done|]. split; [done|].
      rewrite Hc2, ?Hmode, Hc1. set_solver.
Qed.

(** The loop over the sources after the first one. *)
Lemma sunionDiffSources_rest cf op sets : ∀ dstset,
  op ≠ REDIS_OP_INTER →
  Forall sourceWf sets → tsetWf dstset →
  ∃ dstset',
    sunionDiffSources cf op false sets dstset
      (Z.of_nat (size (tsetContent dstset)))
    = Some (dstset', Z.of_nat (size (tsetContent dstset')))
    ∧ tsetWf dstset'
    ∧ tsetContent dstset'
      = if bool_decide (op = REDIS_OP_UNION)
        then tsetContent dstset ∪ ⋃ (sourceContent <$> sets)
        else tsetContent dstset ∖ ⋃ (sourceContent <$> sets).
Proof.
  induction sets as [|[s|] sets IH]; intros dstset Hop Hsets Hwf.
  - exists dstset. split; [done|]. split; [done|].
    simpl. destruct (bool_decide _); set_solver.
  - apply Forall_cons in Hsets as [Hs Hsets]. simpl in Hs |- *.
    destruct (tsetLiterals_wf s Hs) as (Hlits & Hcont & _).
    destruct (sunionDiffElements_spec cf op false (tsetLiterals s) dstset
                Hop Hlits Hwf) as (d1 & -> & Hwf1 & Hc1).
    simpl. rewrite orb_false_r, Hcont in Hc1.
    destruct (decide (op = REDIS_OP_DIFF
                      ∧ Z.of_nat (size (tsetContent d1)) = 0%Z))
      as [Hbreak|Hbreak].
    + rewrite (bool_decide_eq_true_2 _ Hbreak).
      destruct Hbreak as [-> Hzero].
      exists d1. split; [done|]. split; [done|].
      assert (tsetContent d1 = ∅)
        by (apply leibniz_equiv, size_empty_inv; simpl; lia).
      simpl in Hc1 |- *. set_solver.
    + rewrite (bool_decide_eq_false_2 _ Hbreak).
      destruct (IH d1 Hop Hsets Hwf1) as (d2 & -> & Hwf2 & Hc2).
      exists d2. split; [done|]. split; [done|].
      rewrite Hc2, Hc1. destruct (bool_decide _); set_solver.
  - apply Forall_cons in Hsets as [_ Hsets]. simpl.
    rewrite andb_false_r.
    destruct (IH dstset Hop Hsets Hwf) as (d2 & -> & Hwf2 & Hc2).
    exists d2. split; [done|]. split; [done|].
    rewrite Hc2. destruct (bool_decide _); set_solver.
Qed.

(** The whole loop, started on the empty result set with counter 0. *)
Lemma sunionDiffSources_spec cf op sets :
  op ≠ REDIS_OP_INTER → Forall sourceWf sets →
  ∃ dstset,
    sunionDiffSources cf op true sets createIntsetObject 0%Z
    = Some (dstset, Z.of_nat (size (tsetContent dstset)))
    ∧ tsetWf dstset
    ∧ tsetContent dstset
      = match op, sets with
        | REDIS_OP_DIFF, first :: rest =>
            sourceContent first ∖ ⋃ (sourceContent <$> rest)
        | _, _ => ⋃ (sourceContent <$> sets)
        end.
Proof.
  intros Hop Hsets.
  assert (Hwf0 : tsetWf createIntsetObject)
    by (split; [apply NoDup_nil_2|apply Forall_nil_2]).
  assert (Hsize0 : 0%Z = Z.of_nat (size (tsetContent createIntsetObject)))
    by done.
  destruct sets as [|[s|] sets].
  - exists createIntsetObject. split; [done|]. split; [done|].
    by destruct op.
  - apply Forall_cons in Hsets as [Hs Hsets]. simpl in Hs |- *.
    destruct (tsetLiterals_wf s Hs) as (Hlits & Hcont & _).
    rewrite Hsize0.
    destruct (sunionDiffElements_spec cf op true (tsetLiterals s)
                createIntsetObject Hop Hlits Hwf0)
      as (d1 & -> & Hwf1 & Hc1).
    simpl. rewrite orb_true_r, Hcont in Hc1. simpl in Hc1.
    destruct (decide (op = REDIS_OP_DIFF
                      ∧ Z.of_nat (size (tsetContent d1)) = 0%Z))
      as [Hbreak|Hbreak].
    + rewrite (bool_decide_eq_true_2 _ Hbreak).
      destruct Hbreak as [-> Hzero].
      exists d1. split; [done|]. split; [done|].
      assert (tsetContent d1 = ∅)
        by (apply leibniz_equiv, size_empty_inv; simpl; lia).
      set_solver.
    + rewrite (bool_decide_eq_false_2 _ Hbreak).
      destruct (sunionDiffSources_rest cf op sets d1 Hop Hsets Hwf1)
        as (d2 & -> & Hwf2 & Hc2).
      exists d2. split; [done|]. split; [done|].
      rewrite Hc2, Hc1. destruct op; simpl; set_solver.
  - apply Forall_cons in Hsets as [_ Hsets]. simpl.
    destruct op; simpl; [| |done].
    2: { exists createIntsetObject. split; [done|]. split; [done|].
         simpl. set_solver. }
    rewrite Hsize0.
    destruct (sunionDiffSources_rest cf REDIS_OP_UNION sets
                createIntsetObject Hop Hsets Hwf0)
      as (d2 & -> & Hwf2 & Hc2).
    exists d2. split; [done|]. split; [done|].
    rewrite Hc2. simpl. set_solver.
Qed.

Lemma sourceContent_deref st k :
  sourceContent (derefSet k st) = keyContent st k.
Proof. unfold derefSet, keyContent. by destruct (db st !! k) as [[]|]. Qed.

Lemma sourceContent_derefs st (keys : list string) :
  sourceContent <$> ((λ k, derefSet k st) <$> keys) = keyContent st <$> keys.
Proof.
  rewrite <- list_fmap_compose. apply list_fmap_ext.
  intros i k _. apply sourceContent_deref.
Qed.

Lemma sunionDiffLookup_sources st keys :
  Forall (setSource st) keys →
  sunionDiffLookup (db st) keys = Some ((λ k, derefSet k st) <$> keys)
  ∧ Forall sourceWf ((λ k, derefSet k st) <$> keys)
  ∧ sourceContent <$> ((λ k, derefSet k st) <$> keys)
    = keyContent st <$> keys.
Proof.
  induction 1 as [|k keys Hk _ (IH1 & IH2 & IH3)]; [done|].
  rewrite !fmap_cons, IH3. split; [|split].
  - simpl. rewrite IH1. unfold derefSet.
    by destruct Hk as [->|(s & -> & Hs)].
  - apply Forall_cons. split; [|done]. unfold derefSet.
    by destruct Hk as [->|(s & -> & Hs)].
  - f_equal. unfold derefSet, keyContent.
    by destruct Hk as [->|(s & -> & Hs)].
Qed.

End set_algebra.

(** C6. For all source keys k0, k1 .. kn, each holding a (well-formed) set
    or missing, SDIFF replies a multi-bulk whose header counts its bulks and
    whose bulks are, without repetition, exactly the members of source 0
    found in none of the sources 1..n, a missing source counting as the
    empty set.  So SDIFF a b with b empty or missing returns all of a, and
    SDIFF a a returns the empty set. *)
Theorem sdiff_reply (c : nat) (k0 : string) (ks : list string)
  (st : redisServer) :
  Forall (setSource st) (k0 :: ks) →
  ∃ members : list rlit,
    sdiffCommand c (k0 :: ks) st
    = Some (addReplies c
              (RMultiBulkLen (Z.of_nat (length members))
               :: (RBulkLiteral <$> members)) st)
    ∧ NoDup (litBytes <$> members)
    ∧ (∀ x, x ∈ litBytes <$> members
            ↔ x ∈ keyContent st k0 ∧ ∀ k, k ∈ ks → x ∉ keyContent st k)
    ∧ ((∀ k, k ∈ ks → keyContent st k = ∅) →
       ∀ x, x ∈ litBytes <$> members ↔ x ∈ keyContent st k0)
    ∧ (k0 ∈ ks → members = []).
Proof.
  intros Hsrc.
  destruct (sunionDiffLookup_sources st (k0 :: ks) Hsrc)
    as (Hlookup & Hwf & Hcontent).
  destruct (sunionDiffSources_spec (conf st) REDIS_OP_DIFF _
              ltac:(done) Hwf) as (dstset & Hrun & Hdwf & Hdc).
  rewrite fmap_cons in Hdc. cbv iota in Hdc.
  rewrite sourceContent_derefs, sourceContent_deref in Hdc.
  destruct (tsetLiterals_wf dstset Hdwf) as (_ & Hlits & Hnd).
  assert (Hmem : ∀ x, x ∈ litBytes <$> tsetLiterals dstset
                      ↔ x ∈ keyContent st k0
                        ∧ ∀ k, k ∈ ks → x ∉ keyContent st k).
  { intros x. rewrite <- (elem_of_list_to_set (C := gset string)).
    rewrite Hlits, Hdc, elem_of_difference, elem_of_union_list.
    split.
    - intros [Hx Hnot]. split; [done|]. intros k Hk Hxk. apply Hnot.
      exists (keyContent st k). split; [|done].
      apply list_elem_of_fmap. by exists k.
    - intros [Hx Hnot]. split; [done|].
      intros (X & (k & -> & Hk)%list_elem_of_fmap & HxX).
      by apply (Hnot k). }
  exists (tsetLiterals dstset).
  split; [|split; [done|split; [done|split]]].
  - unfold sdiffCommand, sunionDiffGenericCommand.
    rewrite Hlookup, Hrun. simpl. do 3 f_equal.
    rewrite <- (length_fmap litBytes).
    rewrite <- (size_list_to_set (C := gset string)) by done.
    by rewrite Hlits.
  - intros Hempty x. rewrite Hmem. split; [by intros [? _]|].
    intros Hx. split; [done|]. intros k Hk. rewrite Hempty by done.
    apply not_elem_of_empty.
  - intros Hin.
    destruct (tsetLiterals dstset) as [|l ls] eqn:Hl; [done|].
    exfalso. destruct (Hmem (litBytes l)) as [Hm _].
    destruct Hm as [Hx Hnot]; [rewrite fmap_cons; left|].
    by apply (Hnot k0).
Qed.

Lemma sdiff_reply_witness :
  Forall (setSource stSets) ["a"; "h"; "missing"]
  ∧ ∃ members : list rlit,
      sdiffCommand 1 ["a"; "h"; "missing"] stSets
      = Some (addReplies 1
                (RMultiBulkLen (Z.of_nat (length members))
                 :: (RBulkLiteral <$> members)) stSets)
      ∧ ∀ x, x ∈ litBytes <$> members
             ↔ x ∈ keyContent stSets "a"
               ∧ ∀ k, k ∈ ["h"; "missing"] → x ∉ keyContent stSets k.
Proof.
  assert (Hsrc : Forall (setSource stSets) ["a"; "h"; "missing"]).
  { apply Forall_cons. split.
    - right. exists (Intset [1; 2; 3]%Z). split; [reflexivity|].
      split.
      + repeat (apply NoDup_cons; split;
                  [rewrite ?elem_of_cons, elem_of_nil; lia|]).
        apply NoDup_nil_2.
      + repeat (apply Forall_cons; split;
                  [unfold isLongLong, LLONG_MIN, LLONG_MAX; lia|]).
        apply Forall_nil_2.
    - apply Forall_cons. split.
      + right. exists (Hashtable {["2"; "x"]}). by split.
      + apply Forall_cons. split; [by left|apply Forall_nil_2]. }
  split; [exact Hsrc|].
  destruct (sdiff_reply 1 "a" ["h"; "missing"] stSets Hsrc)
    as (members & Hcmd & _ & Hmem & _).
  exists members. by split.
Defined.

(** ** Storing the result of set algebra (C9) *)

Section store.

Lemma storeResult_spec c dst result st :
  ∃ st', storeResult c dst result st = Some st'
    ∧ storedOutcome c dst st st'.
Proof.
  unfold storeResult, dbAdd, dbDelete. simpl.
  rewrite lookup_delete_eq. simpl.
  case_bool_decide as Hsize; simpl; eexists; (split; [reflexivity|]);
    exists result; simpl.
  - by rewrite bool_decide_eq_true_2.
  - by rewrite bool_decide_eq_false_2.
Qed.

Lemma sunionDiffLookup_cases st keys :
  (sunionDiffLookup (db st) keys = None ∧ wrongTypeSource st keys)
  ∨ (sunionDiffLookup (db st) keys = Some ((λ k, derefSet k st) <$> keys)
     ∧ Forall (λ k, db st !! k = None ∨ ∃ s, db st !! k = Some (OSet s))
         keys).
Proof.
  induction keys as [|k keys IH]; [by right|].
  rewrite fmap_cons. simpl.
  assert (Hderef : derefSet k st
                   = match db st !! k with
                     | Some (OSet s) => Some s
                     | _ => None
                     end) by done.
  rewrite Hderef. clear Hderef.
  destruct (db st !! k) as [o|] eqn:Hk.
  - destruct IH as [[-> (k' & o' & Hin & Hk' & Ho')]|[-> Hall]].
    + left. split; [by destruct o|].
      exists k', o'. split; [by right|done].
    + destruct (decide (objType o = REDIS_SET)) as [Hset|Hnot].
      * right. destruct o; try done. simpl. split; [done|].
        apply Forall_cons. split; [|done]. right. by eexists.
      * left. split; [by destruct o|]. exists k, o.
        split; [by left|done].
  - destruct IH as [[-> (k' & o' & Hin & Hk' & Ho')]|[-> Hall]].
    + left. split; [done|]. exists k', o'. split; [by right|done].
    + right. simpl. split; [done|].
      apply Forall_cons. split; [|done]. by left.
Qed.

Lemma sinterLookup_cases st keys :
  (sinterLookup (db st) keys = SinterWrongType ∧ wrongTypeSource st keys)
  ∨ sinterLookup (db st) keys = SinterMissing
  ∨ ∃ sets, sinterLookup (db st) keys = SinterSets sets
      ∧ length sets = length keys
      ∧ Forall (λ s, ∃ k, k ∈ keys ∧ db st !! k = Some (OSet s)) sets.
Proof.
  induction keys as [|k keys IH].
  { right. right. exists []. by repeat split. }
  simpl. destruct (db st !! k) as [o|] eqn:Hk; [|by right; left].
  destruct (decide (objType o = REDIS_SET)) as [Hset|Hnot].
  - destruct o as [| |s| |]; try done.
    destruct IH
      as [[-> (k' & o' & Hin & Hk' & Ho')]|[->|(sets & -> & Hl & Hall)]].
    + left. split; [done|]. exists k', o'. split; [by right|done].
    + by right; left.
    + right. right. exists (s :: sets). split; [done|].
      split; [simpl; by rewrite Hl|].
      apply Forall_cons. split.
      * exists k. split; [by left|done].
      * eapply Forall_impl; [exact Hall|]. simpl.
        intros s' (k' & Hin & Hk'). exists k'. split; [by right|done].
  - left. split; [by destruct o|]. exists k, o. split; [by left|done].
Qed.

Lemma sinterStoreLoop_total cf others lits : ∀ dstset,
  Forall litWf lits → tsetWf dstset →
  ∃ r, sinterStoreLoop cf others lits dstset = Some r ∧ tsetWf r.
Proof.
  induction lits as [|ele lits IH]; intros dstset Hlits Hwf; simpl.
  - by exists dstset.
  - apply Forall_cons in Hlits as [Hele Hlits].
    destruct (forallb _ others); [|by apply IH].
    destruct (tsetAddLiteral_spec cf dstset ele Hwf Hele)
      as (d1 & -> & Hwf1 & _). simpl. by apply IH.
Qed.

End store.

(** C9. SINTERSTORE, SUNIONSTORE and SDIFFSTORE never look at the type of
    the destination key.  The command either replies the wrong-type error,
    and then some source key holds a value that is not a set, or it deletes
    whatever the destination held and, when the computed result is not
    empty, stores the result set there.  When no source key holds a value of
    another type, the second case applies whatever datatype the destination
    holds. *)
Theorem store_ignores_destination_type
  (cmd : storeCommand) (c : nat) (dst : string) (keys : list string)
  (st : redisServer) :
  keys ≠ [] →
  (∀ k s, k ∈ keys → db st !! k = Some (OSet s) → tsetWf s) →
  ∃ st',
    runStoreCommand cmd c dst keys st = Some st'
    ∧ ((wrongTypeSource st keys
        ∧ st' = addReply c (RShared wrongtypeerr) st)
       ∨ storedOutcome c dst st st')
    ∧ (¬ wrongTypeSource st keys → storedOutcome c dst st st').
Proof.
  intros Hkeys Hwf.
  assert (Hunion : ∀ op, op ≠ REDIS_OP_INTER →
    ∃ st',
      sunionDiffGenericCommand c keys (Some dst) op st = Some st'
      ∧ ((wrongTypeSource st keys
          ∧ st' = addReply c (RShared wrongtypeerr) st)
         ∨ storedOutcome c dst st st')
      ∧ (¬ wrongTypeSource st keys → storedOutcome c dst st st')).
  { intros op Hop. unfold sunionDiffGenericCommand.
    destruct (sunionDiffLookup_cases st keys) as [[-> Hw]|[-> Hall]].
    - eexists. split; [reflexivity|]. split; [by left|done].
    - assert (Hswf : Forall sourceWf ((λ k, derefSet k st) <$> keys)).
      { apply Forall_fmap, Forall_forall. intros k Hk. simpl.
        unfold derefSet. destruct (db st !! k) as [[| |s| |]|] eqn:Hdb;
          try done. simpl. by apply (Hwf k). }
      destruct (sunionDiffSources_spec (conf st) op _ Hop Hswf)
        as (dstset & -> & _ & _). simpl.
      destruct (storeResult_spec c dst dstset st) as (st' & -> & Hout).
      exists st'. split; [done|]. split; [by right|done]. }
  destruct cmd; simpl; [|by apply Hunion|by apply Hunion].
  unfold sinterstoreCommand, sinterGenericCommand.
  destruct (sinterLookup_cases st keys)
    as [[-> Hw]|[->|(sets & -> & Hlen & Hall)]].
  - eexists. split; [reflexivity|]. split; [by left|done].
  - eexists. split; [reflexivity|].
    assert (Hout : storedOutcome c dst st
              (addReply c (RShared czero)
                 match db st !! dst with
                 | Some _ =>
                     incrDirty (signalModifiedKey dst (dbDelete dst st))
                 | None => st
                 end)).
    { exists createIntsetObject. simpl.
      destruct (db st !! dst) eqn:Hdst; simpl; [done|].
      split; [|done]. symmetry. by apply delete_id. }
    split; [by right|done].
  - pose proof (merge_sort_Permutation cardinalityLe sets) as Hperm.
    fold (sortSetsByCardinality sets) in Hperm.
    destruct (sortSetsByCardinality sets) as [|smallest others] eqn:Hsort.
    { apply Permutation_nil_l in Hperm. subst sets.
      destruct keys; [done|]. simpl in Hlen. lia. }
    assert (Hsw : tsetWf smallest).
    { rewrite <- Hperm in Hall. apply Forall_cons in Hall as [Hs _].
      destruct Hs as (k & Hk & Hdb). by apply (Hwf k). }
    destruct (tsetLiterals_wf smallest Hsw) as (Hlits & _ & _).
    destruct (sinterStoreLoop_total (conf st) others (tsetLiterals smallest)
                createIntsetObject Hlits)
      as (r & -> & _); [split; [apply NoDup_nil_2|apply Forall_nil_2]|].
    simpl.
    destruct (storeResult_spec c dst r st) as (st' & -> & Hout).
    exists st'. split; [done|]. split; [by right|done].
Qed.

Lemma store_ignores_destination_type_witness :
  db stSets !! "dst" = Some (OString (Raw "text"))
  ∧ ¬ wrongTypeSource stSets ["a"; "h"]
  ∧ ∃ st',
      runStoreCommand SUNIONSTORE 1 "dst" ["a"; "h"] stSets = Some st'
      ∧ storedOutcome 1 "dst" stSets st'
      ∧ db st' !! "dst" = Some (OSet (Hashtable {["1"; "2"; "3"; "x"]})).
Proof.
  split; [reflexivity|].
  assert (Hdb : db stSets
            = <["a" := OSet (Intset [1; 2; 3]%Z)]>
                (<["h" := OSet (Hashtable {["2"; "x"]})]>
                   (<["dst" := OString (Raw "text")]> ∅))) by reflexivity.
  assert (Hno : ¬ wrongTypeSource stSets ["a"; "h"]).
  { intros (k & o & Hk & Ho & Hty).
    apply elem_of_cons in Hk as [->|Hk];
      [|apply elem_of_cons in Hk as [->|Hk%elem_of_nil]; [|done]];
      vm_compute in Ho; injection Ho as <-; by apply Hty. }
  split; [exact Hno|].
  destruct (store_ignores_destination_type SUNIONSTORE 1 "dst" ["a"; "h"]
              stSets) as (st' & Hcmd & _ & Hout).
  - done.
  - intros k s Hk Hs.
    apply elem_of_cons in Hk as [->|Hk];
      [|apply elem_of_cons in Hk as [->|Hk%elem_of_nil]; [|done]];
      vm_compute in Hs; injection Hs as <-; [|done].
    split.
    + repeat (apply NoDup_cons; split;
                [rewrite ?elem_of_cons, elem_of_nil; lia|]).
      apply NoDup_nil_2.
    + repeat (apply Forall_cons; split;
                [unfold isLongLong, LLONG_MIN, LLONG_MAX; lia|]).
      apply Forall_nil_2.
  - exists st'. split; [exact Hcmd|]. split; [by apply Hout|].
    assert (Some st' = runStoreCommand SUNIONSTORE 1 "dst" ["a"; "h"] stSets)
      as Heq by done.
    vm_compute in Heq. injection Heq as ->. vm_compute. reflexivity.
Defined.

(** ** SMOVE (C4) *)

Section smove.

(** What SMOVE does when it moves nothing: a missing source replies 0; a
    member absent from the source replies 0 when source and destination
    are different keys; the same key as source and destination replies 1
    without looking at the member.  The state is otherwise unchanged. *)
Lemma smoveCommand_nothing_moved c src dst val st :
  (db st !! src = None →
   smoveCommand c src dst val st = Some (addReply c (RShared czero) st))
  ∧ (∀ s, db st !! src = Some (OSet s) →
       (db st !! dst = None ∨ ∃ d, db st !! dst = Some (OSet d)) →
       src ≠ dst →
       tsetFindObject s (tryObjectEncoding val) = false →
       smoveCommand c src dst val st
       = Some (addReply c (RShared czero) st))
  ∧ (∀ s, db st !! src = Some (OSet s) → src = dst →
       smoveCommand c src dst val st
       = Some (addReply c (RShared cone) st)).
Proof.
  split; [|split].
  - intros Hsrc. unfold smoveCommand. by rewrite Hsrc.
  - intros s Hsrc Hdst Hne Hfind. unfold smoveCommand. rewrite Hsrc.
    assert (Hrem : (tsetRemoveObject s (tryObjectEncoding val)).2 = false).
    { unfold tsetRemoveObject, tsetRemoveLiteral.
      unfold tsetFindObject, tsetFindLiteral in Hfind.
      destruct s as [ints|d].
      - destruct (litGetLongLong _) as [n|]; [|done].
        unfold intsetRemove. by rewrite Hfind.
      - unfold dictDelete. unfold dictFind in Hfind. by rewrite Hfind. }
    destruct (tsetRemoveObject s (tryObjectEncoding val)) as [s' removed].
    simpl in Hrem. subst removed.
    destruct Hdst as [->|(d & ->)];
      by rewrite bool_decide_eq_false_2 by done.
  - intros s Hsrc <-. unfold smoveCommand. rewrite Hsrc.
    by rewrite bool_decide_eq_true_2.
Qed.

End smove.

(** C4 holds except on one path, which is a defect of the code: with the
    same key as source and destination, SMOVE replies 1 although the member
    is absent from the set, where the claim (and the path for two different
    keys) replies 0. *)
Lemma smove_same_key_absent_member :
  db stOneSet !! "s" = Some (OSet (Intset [1%Z]))
  ∧ tsetFindObject (Intset [1%Z]) (tryObjectEncoding (Raw "2")) = false
  ∧ smoveCommand 1 "s" "s" (Raw "2") stOneSet
    = Some (addReply 1 (RShared cone) stOneSet)
  ∧ smoveCommand 1 "s" "other" (Raw "2") stOneSet
    = Some (addReply 1 (RShared czero) stOneSet).
Proof. repeat split. Qed.

(** ** The list API: push, pop and the iterator *)

Section list_api.

Lemma zipEntry_bytes s : zlentryBytes (zipEntry s) = s.
Proof.
  unfold zipEntry. destruct (string2ll s) as [n|] eqn:Hs; [|done].
  apply string2ll_Some in Hs as [-> _]. done.
Qed.

Lemma tlistValues_length o : length (tlistValues o) = tlistLength o.
Proof. destruct o; simpl; by rewrite length_fmap. Qed.

(** Unpacking a packed list keeps the bytes of every element. *)
Lemma tlistConvert_values zl :
  tlistConvert (Ziplist zl) REDIS_ENCODING_LINKEDLIST
  = Some (Linkedlist (litGetObject <$> tlistLiterals (Ziplist zl)))
  ∧ tlistValues (Linkedlist (litGetObject <$> tlistLiterals (Ziplist zl)))
    = tlistValues (Ziplist zl).
Proof.
  split; [done|]. simpl. rewrite <- !list_fmap_compose.
  apply list_fmap_ext. intros i e _. by destruct e.
Qed.

Lemma tlistTryConversion_values cf l v :
  ∃ l', tlistTryConversion cf l v = Some l'
        ∧ tlistValues l' = tlistValues l
        ∧ (tlistEncoding l' = REDIS_ENCODING_ZIPLIST
           ↔ tlistEncoding l = REDIS_ENCODING_ZIPLIST
             ∧ ∀ s, v = Raw s → String.length s ≤ list_max_ziplist_value cf).
Proof.
  destruct l as [zl|l]; simpl.
  - destruct v as [s|n].
    + case_bool_decide as Hlen.
      * destruct (tlistConvert_values zl) as [-> Hv].
        eexists. split; [done|]. split; [done|]. simpl.
        split; [done|]. intros [_ H]. specialize (H s eq_refl). lia.
      * eexists. split; [done|]. split; [done|]. simpl.
        split; [|done]. intros _. split; [done|].
        intros s' [= <-]. lia.
    + eexists. split; [done|]. split; [done|]. simpl.
      split; [|done]. intros _. split; [done|]. intros s' [=].
  - eexists. split; [done|]. split; [done|]. simpl.
    split; [done|]. by intros [? _].
Qed.

Lemma tlistPush_spec cf l v whr :
  ∃ l',
    tlistPush cf l v whr = Some l'
    ∧ tlistValues l'
      = match whr with
        | REDIS_HEAD => getDecodedObject v :: tlistValues l
        | REDIS_TAIL => tlistValues l ++ [getDecodedObject v]
        end
    ∧ tlistLength l' = S (tlistLength l)
    ∧ (tlistEncoding l' = REDIS_ENCODING_ZIPLIST
       ↔ tlistEncoding l = REDIS_ENCODING_ZIPLIST
         ∧ (∀ s, v = Raw s → String.length s ≤ list_max_ziplist_value cf)
         ∧ tlistLength l < list_max_ziplist_entries cf).
Proof.
  unfold tlistPush.
  destruct (tlistTryConversion_values cf l v) as (l1 & -> & Hv1 & He1).
  simpl.
  assert (Hlen1 : tlistLength l1 = tlistLength l)
    by (by rewrite <- !tlistValues_length, Hv1).
  destruct l1 as [zl|l1]; simpl.
  - case_bool_decide as Hfull; simpl.
    + destruct (tlistConvert_values zl) as [_ Hv]. simpl in Hv.
      rewrite <- Hv1. simpl. rewrite <- Hv.
      eexists. split; [done|].
      split; [by destruct whr; simpl; rewrite ?fmap_app|].
      split.
      * rewrite <- Hlen1. simpl. unfold ziplistLen.
        destruct whr; simpl; rewrite ?length_app, !length_fmap;
          simpl; lia.
      * simpl. split; [done|]. intros (_ & _ & Hlt).
        rewrite <- Hlen1 in Hlt. simpl in Hlt. lia.
    + eexists. split; [done|]. rewrite <- Hv1. simpl.
      split; [|split].
      * destruct whr; simpl; rewrite ?fmap_app; simpl;
          by rewrite zipEntry_bytes.
      * rewrite <- Hlen1. simpl. unfold ziplistLen.
        destruct whr; simpl; rewrite ?length_app; simpl; lia.
      * simpl. split; [|done]. intros _.
        destruct He1 as [He1 _]. destruct (He1 eq_refl) as [Hz Hs].
        split; [done|]. split; [done|].
        rewrite <- Hlen1. simpl. lia.
  - eexists. split; [done|]. rewrite <- Hv1. simpl.
    split; [by destruct whr; simpl; rewrite ?fmap_app|].
    split.
    + rewrite <- Hlen1. simpl.
      destruct whr; simpl; rewrite ?length_app; simpl; lia.
    + simpl. split; [done|]. intros (Hz & Hs & _).
      destruct He1 as [_ He1]. by specialize (He1 (conj Hz Hs)).
Qed.

Lemma tlistPop_empty l whr :
  tlistLength l = 0 → tlistPop l whr = (l, None).
Proof.
  destruct l as [[|e zl]|[|v l]]; try done; by destruct whr.
Qed.

Lemma tlistPop_head l :
  tlistLength l ≠ 0 →
  ∃ l' v,
    tlistPop l REDIS_HEAD = (l', Some v)
    ∧ tlistValues l = getDecodedObject v :: tlistValues l'.
Proof.
  destruct l as [[|e zl]|[|v l]]; try done; intros _.
  - destruct e as [s|n]; eexists _, _; by split.
  - eexists _, _; by split.
Qed.

Lemma tlistPop_tail l :
  tlistLength l ≠ 0 →
  ∃ l' v,
    tlistPop l REDIS_TAIL = (l', Some v)
    ∧ tlistValues l = tlistValues l' ++ [getDecodedObject v].
Proof.
  destruct l as [zl|l]; simpl; intros Hne.
  - destruct (exists_last (l := zl)) as (zl' & e & ->).
    { intros ->. done. }
    unfold ziplistIndex, seqIndex, ziplistGet. simpl.
    rewrite length_app. simpl.
    rewrite bool_decide_eq_true_2 by lia.
    replace (Z.to_nat (Z.of_nat (length zl' + 1) + -1)) with (length zl')
      by lia.
    rewrite list_lookup_middle by done.
    rewrite fmap_app. unfold ziplistDelete.
    replace (delete (length zl') (zl' ++ [e])) with zl'.
    + destruct e as [s|n]; eexists _, _; by split.
    + by rewrite delete_middle, app_nil_r.
  - destruct (exists_last (l := l)) as (l' & v & ->).
    { intros ->. done. }
    rewrite last_snoc, removelast_last, fmap_app.
    eexists _, _. by split.
Qed.

Lemma tlistPop_spec l whr :
  tlistLength l ≠ 0 →
  ∃ l' v,
    tlistPop l whr = (l', Some v)
    ∧ tlistValues l
      = match whr with
        | REDIS_HEAD => getDecodedObject v :: tlistValues l'
        | REDIS_TAIL => tlistValues l' ++ [getDecodedObject v]
        end
    ∧ S (tlistLength l') = tlistLength l.
Proof.
  intros Hne.
  assert (H : ∃ l' v,
    tlistPop l whr = (l', Some v)
    ∧ tlistValues l
      = match whr with
        | REDIS_HEAD => getDecodedObject v :: tlistValues l'
        | REDIS_TAIL => tlistValues l' ++ [getDecodedObject v]
        end).
  { destruct whr; [by apply tlistPop_head|by apply tlistPop_tail]. }
  destruct H as (l' & v & Hpop & Hv). exists l', v.
  split; [done|]. split; [done|].
  rewrite <- !tlistValues_length, Hv.
  destruct whr; simpl; rewrite ?length_app; simpl; lia.
Qed.

Lemma tlistIterate_ziplist zl : ∀ fuel i,
  i ≤ length zl → length zl - i < fuel →
  tlistIterate fuel
    (IterZiplist zl (if bool_decide (i < length zl) then Some i else None))
  = Some (zlentryLit <$> drop i zl).
Proof.
  induction fuel as [|fuel IH]; intros i Hi Hfuel; [lia|].
  simpl. case_bool_decide as Hlt.
  - destruct (lookup_lt_is_Some_2 zl i Hlt) as [e He].
    simpl. rewrite He. unfold ziplistNext.
    rewrite (IH (S i)) by lia. simpl.
    by rewrite (drop_S _ _ _ He).
  - simpl. by rewrite drop_ge by lia.
Qed.

Lemma tlistIterate_linkedlist l : ∀ fuel i,
  i ≤ length l → length l - i < fuel →
  tlistIterate fuel
    (IterLinkedlist l (if bool_decide (i < length l) then Some i else None))
  = Some (litFromObject <$> drop i l).
Proof.
  induction fuel as [|fuel IH]; intros i Hi Hfuel; [lia|].
  simpl. case_bool_decide as Hlt.
  - destruct (lookup_lt_is_Some_2 l i Hlt) as [e He].
    rewrite He. unfold listNextNode.
    rewrite (IH (S i)) by lia. simpl.
    by rewrite (drop_S _ _ _ He).
  - by rewrite drop_ge by lia.
Qed.

End list_api.

(** X1. tlistPush never fails.  It puts the bytes of the value at the
    chosen end and keeps every other element in place, whatever the
    encoding; the list gets one element longer.  The result is still
    packed exactly when the list was packed, the value is not a raw string
    longer than list_max_ziplist_value, and the list held fewer than
    list_max_ziplist_entries elements. *)
Theorem tlistPush_adds_at_end
  (cf : config) (l : tlist) (v : sobj) (whr : lwhere) :
  ∃ l',
    tlistPush cf l v whr = Some l'
    ∧ tlistValues l'
      = match whr with
        | REDIS_HEAD => getDecodedObject v :: tlistValues l
        | REDIS_TAIL => tlistValues l ++ [getDecodedObject v]
        end
    ∧ tlistLength l' = S (tlistLength l)
    ∧ (tlistEncoding l' = REDIS_ENCODING_ZIPLIST
       ↔ tlistEncoding l = REDIS_ENCODING_ZIPLIST
         ∧ (∀ s, v = Raw s → String.length s ≤ list_max_ziplist_value cf)
         ∧ tlistLength l < list_max_ziplist_entries cf).
Proof. apply tlistPush_spec. Qed.

(** X2. tlistPop on an empty list returns NULL and leaves the list as it
    is; on a list with elements it returns the element at the chosen end
    and leaves the other elements, in order. *)
Theorem tlistPop_takes_from_end (l : tlist) (whr : lwhere) :
  (tlistLength l = 0 → tlistPop l whr = (l, None))
  ∧ (tlistLength l ≠ 0 →
     ∃ l' v,
       tlistPop l whr = (l', Some v)
       ∧ tlistValues l
         = match whr with
           | REDIS_HEAD => getDecodedObject v :: tlistValues l'
           | REDIS_TAIL => tlistValues l' ++ [getDecodedObject v]
           end
       ∧ S (tlistLength l') = tlistLength l).
Proof.
  split; [apply tlistPop_empty|apply tlistPop_spec].
Qed.

(** X3. Round trip: popping at the end a value was just pushed to gives
    that value back (its bytes) and the list it was pushed to (its
    elements), also when the push changed the encoding. *)
Theorem tlistPush_tlistPop_roundtrip
  (cf : config) (l : tlist) (v : sobj) (whr : lwhere) :
  ∃ l1 l2 v',
    tlistPush cf l v whr = Some l1
    ∧ tlistPop l1 whr = (l2, Some v')
    ∧ getDecodedObject v' = getDecodedObject v
    ∧ tlistValues l2 = tlistValues l.
Proof.
  destruct (tlistPush_spec cf l v whr) as (l1 & Hpush & Hv1 & Hlen1 & _).
  destruct (tlistPop_spec l1 whr) as (l2 & v' & Hpop & Hv2 & _); [lia|].
  exists l1, l2, v'. split; [done|]. split; [done|].
  rewrite Hv1 in Hv2. destruct whr.
  - by injection Hv2 as -> ->.
  - apply app_inj_tail in Hv2 as [-> ->]. done.
Qed.

(** X4. A queue: values pushed at the tail of a list come out at its head
    in the order they went in.  Pushing [v] at the tail of a list with
    elements leaves the head element the one to be popped first. *)
Theorem tlistPush_tail_pop_head_fifo
  (cf : config) (l : tlist) (v : sobj) :
  ∃ l1 l2 v',
    tlistPush cf l v REDIS_TAIL = Some l1
    ∧ tlistPop l1 REDIS_HEAD = (l2, Some v')
    ∧ getDecodedObject v' :: tlistValues l2
      = tlistValues l ++ [getDecodedObject v].
Proof.
  destruct (tlistPush_spec cf l v REDIS_TAIL)
    as (l1 & Hpush & Hv1 & Hlen1 & _).
  destruct (tlistPop_spec l1 REDIS_HEAD) as (l2 & v' & Hpop & Hv2 & _);
    [lia|].
  exists l1, l2, v'. split; [done|]. split; [done|]. congruence.
Qed.

(** X5. The list iterator visits every element once, in list order, and
    then returns 0; its assertion never fails.  With more calls of
    tlistNext allowed than the list has elements, the loop
    [while (tlistNext(...))] produces exactly the literals of the list. *)
Theorem tlistNext_visits_all (lobj : tlist) (n : nat) :
  tlistIterate (S (tlistLength lobj + n)) (tlistInitIterator lobj)
  = Some (tlistLiterals lobj)
  ∧ litBytes <$> tlistLiterals lobj = tlistValues lobj.
Proof.
  split.
  - destruct lobj as [zl|l]; simpl tlistInitIterator; simpl tlistLength.
    + pose proof (tlistIterate_ziplist zl (S (ziplistLen zl + n)) 0) as H.
      unfold ziplistLen in *. rewrite drop_0 in H.
      unfold ziplistIndex, seqIndex. simpl bool_decide.
      replace (bool_decide (0 < Z.of_nat (length zl))%Z)
        with (bool_decide (0 < length zl))
        by (apply bool_decide_ext; lia).
      simpl tlistLiterals. rewrite <- H by lia.
      by destruct (bool_decide (0 < length zl)).
    + pose proof (tlistIterate_linkedlist l (S (length l + n)) 0) as H.
      rewrite drop_0 in H. simpl tlistLiterals. rewrite <- H by lia.
      destruct l as [|v l]; [done|].
      unfold listFirst. by rewrite bool_decide_eq_true_2 by (simpl; lia).
  - destruct lobj as [zl|l]; simpl; rewrite <- list_fmap_compose;
      apply list_fmap_ext; intros i e _; [by destruct e|done].
Qed.

(** ** Commands that address elements by index *)

Section by_index.

Lemma seqIndex_spec len (i : Z) :
  seqIndex len i
  = if bool_decide (0 ≤ resolveIndex (Z.of_nat len) i < Z.of_nat len)%Z
    then Some (Z.to_nat (resolveIndex (Z.of_nat len) i)) else None.
Proof.
  unfold seqIndex, resolveIndex.
  destruct (decide (0 ≤ i)%Z) as [Hi|Hi].
  - rewrite (bool_decide_eq_true_2 _ Hi).
    rewrite (bool_decide_eq_false_2 (i < 0)%Z) by lia.
    destruct (decide (i < Z.of_nat len)%Z) as [Hlt|Hlt].
    + by rewrite !bool_decide_eq_true_2 by lia.
    + by rewrite !bool_decide_eq_false_2 by lia.
  - rewrite (bool_decide_eq_false_2 _ Hi).
    rewrite (bool_decide_eq_true_2 (i < 0)%Z) by lia.
    destruct (decide (- i ≤ Z.of_nat len)%Z) as [Hle|Hle].
    + by rewrite !bool_decide_eq_true_2 by lia.
    + by rewrite !bool_decide_eq_false_2 by lia.
Qed.

Lemma replace_at {A} (l : list A) (p : nat) (x : A) :
  p < length l →
  take p (delete p l) ++ x :: drop p (delete p l) = <[p := x]> l.
Proof.
  intros Hp. rewrite !delete_take_drop.
  rewrite take_app_le by (rewrite length_take; lia).
  rewrite take_take, Nat.min_id.
  rewrite drop_app_ge by (rewrite length_take; lia).
  rewrite length_take, Nat.min_l, Nat.sub_diag, drop_0 by lia.
  by rewrite insert_take_drop.
Qed.

End by_index.

(** X6. LINDEX replies nil for a missing key and the wrong-type error for
    a key that holds no list.  For a list of length [len] it resolves a
    negative index by adding [len]; the reply is the element at that
    position when it lies in 0 .. len-1 and nil otherwise.  Nothing but
    the reply is added to the state. *)
Theorem lindex_reply (c : nat) (key : string) (i : Z) (st : redisServer) :
  match db st !! key with
  | None => lindexCommand c key i st = Some (addReply c (RShared nullbulk) st)
  | Some (OList o) =>
      let len := Z.of_nat (tlistLength o) in
      let i' := resolveIndex len i in
      ∃ r,
        lindexCommand c key i st = Some (addReply c r st)
        ∧ ((0 ≤ i' < len)%Z →
           ∃ b, bulkPayload r = Some b
                ∧ tlistValues o !! Z.to_nat i' = Some b)
        ∧ (¬ (0 ≤ i' < len)%Z → r = RShared nullbulk)
  | Some _ =>
      lindexCommand c key i st = Some (addReply c (RShared wrongtypeerr) st)
  end.
Proof.
  unfold lindexCommand.
  destruct (db st !! key) as [[|o| | |]|]; try done.
  destruct o as [zl|l]; simpl.
  - unfold ziplistIndex, ziplistLen. rewrite seqIndex_spec.
    case_bool_decide as Hin.
    + simpl.
      destruct (lookup_lt_is_Some_2 zl
                  (Z.to_nat (resolveIndex (Z.of_nat (length zl)) i)))
        as [e He]; [lia|].
      rewrite He. rewrite list_lookup_fmap, He.
      destruct e as [s|n]; eexists; (split; [done|]);
        (split; [|done]); intros _; by eexists.
    + simpl. eexists. split; [done|]. by split.
  - unfold listIndex. rewrite seqIndex_spec.
    case_bool_decide as Hin.
    + destruct (lookup_lt_is_Some_2 l
                  (Z.to_nat (resolveIndex (Z.of_nat (length l)) i)))
        as [v Hv]; [lia|].
      rewrite Hv. simpl. rewrite list_lookup_fmap, Hv.
      eexists. split; [done|]. split; [|done]. intros _. by eexists.
    + eexists. split; [done|]. by split.
Qed.

(** X7. LSET on a list of length [len]: a negative index is resolved by
    adding [len].  When the resolved index lies in 0 .. len-1 the element
    at that position, and no other, is replaced by the value, the reply is
    OK and the key is signalled as modified; otherwise the reply is the
    out-of-range error and the elements are unchanged.  (The encoding of
    the list may change in both cases.) *)
Theorem lset_replaces_one
  (c : nat) (key : string) (o : tlist) (i : Z) (val : sobj)
  (st : redisServer) :
  db st !! key = Some (OList o) →
  let len := Z.of_nat (tlistLength o) in
  let i' := resolveIndex len i in
  ∃ o',
    ((0 ≤ i' < len)%Z →
     lsetCommand c key i val st
     = Some (incrDirty (signalModifiedKey key
               (addReply c (RShared ok) (storeList key o' st))))
     ∧ tlistValues o'
       = <[Z.to_nat i' := getDecodedObject val]> (tlistValues o))
    ∧ (¬ (0 ≤ i' < len)%Z →
       lsetCommand c key i val st
       = Some (addReply c (RShared outofrangeerr) (storeList key o' st))
       ∧ tlistValues o' = tlistValues o).
Proof.
  intros Hk len i'. unfold lsetCommand, lsetList. rewrite Hk.
  destruct (tlistTryConversion_values (conf st) o (tryObjectEncoding val))
    as (o1 & -> & Hv1 & _).
  simpl.
  assert (Hlen1 : tlistLength o1 = tlistLength o)
    by (by rewrite <- !tlistValues_length, Hv1).
  destruct o1 as [zl|l]; simpl in Hlen1.
  - unfold ziplistIndex. rewrite seqIndex_spec. unfold ziplistLen in Hlen1.
    rewrite Hlen1. fold len i'.
    destruct (decide (0 ≤ i' < len)%Z) as [Hin|Hout].
    + rewrite (bool_decide_eq_true_2 _ Hin). simpl.
      eexists. split; [|done]. intros _. split; [done|].
      rewrite <- Hv1. simpl.
      unfold ziplistInsert, ziplistDelete.
      rewrite replace_at by lia.
      rewrite list_fmap_insert, zipEntry_bytes.
      by rewrite tryObjectEncoding_decoded.
    + rewrite (bool_decide_eq_false_2 _ Hout). simpl.
      eexists. split; [done|]. intros _. by split.
  - unfold listIndex. rewrite seqIndex_spec, Hlen1. fold len i'.
    destruct (decide (0 ≤ i' < len)%Z) as [Hin|Hout].
    + rewrite (bool_decide_eq_true_2 _ Hin). simpl.
      eexists. split; [|done]. intros _. split; [done|].
      rewrite <- Hv1. simpl.
      by rewrite list_fmap_insert, tryObjectEncoding_decoded.
    + rewrite (bool_decide_eq_false_2 _ Hout). simpl.
      eexists. split; [done|]. intros _. by split.
Qed.

Lemma lset_replaces_one_witness :
  ∃ o',
    lsetCommand 1 "k" (-1) (Raw "z") stRange
    = Some (incrDirty (signalModifiedKey "k"
              (addReply 1 (RShared ok) (storeList "k" o' stRange))))
    ∧ tlistValues o' = ["a"; "7"; "c"; "z"].
Proof.
  destruct (lset_replaces_one 1 "k"
              (Ziplist [ZStr "a"; ZInt 7; ZStr "c"; ZStr "d"]) (-1)
              (Raw "z") stRange eq_refl) as (o' & Hin & _).
  exists o'. apply Hin. unfold resolveIndex. simpl. lia.
Defined.

(** ** LTRIM *)

Section trim.

Lemma ziplistDeleteRange_head (zl : list zlentry) (n : nat) :
  ziplistDeleteRange zl 0 n = drop n zl.
Proof.
  unfold ziplistDeleteRange, ziplistIndex, seqIndex.
  destruct zl as [|e zl]; simpl; [by rewrite drop_nil|done].
Qed.

Lemma ziplistDeleteRange_tail (zl : list zlentry) (r : nat) :
  r ≤ length zl →
  ziplistDeleteRange zl (- Z.of_nat r) r = take (length zl - r) zl.
Proof.
  intros Hr. unfold ziplistDeleteRange, ziplistIndex.
  rewrite seqIndex_spec. unfold resolveIndex.
  destruct r as [|r].
  - simpl. rewrite Nat.sub_0_r, take_ge by lia.
    destruct zl as [|e zl]; [done|].
    rewrite bool_decide_eq_true_2 by (simpl length; lia). done.
  - rewrite (bool_decide_eq_true_2 (- Z.of_nat (S r) < 0)%Z) by lia.
    rewrite bool_decide_eq_true_2 by lia.
    replace (Z.to_nat (Z.of_nat (length zl) + - Z.of_nat (S r)))
      with (length zl - S r) by lia.
    rewrite drop_ge by lia. by rewrite app_nil_r.
Qed.

Lemma ltrimList_values o (ltrim rtrim : nat) :
  ltrim + rtrim ≤ tlistLength o →
  tlistValues
    (match o with
     | Ziplist zl =>
         Ziplist (ziplistDeleteRange (ziplistDeleteRange zl 0 ltrim)
                    (- Z.of_nat rtrim) rtrim)
     | Linkedlist l =>
         Linkedlist (take (length (drop ltrim l) - rtrim) (drop ltrim l))
     end)
  = take (tlistLength o - ltrim - rtrim) (drop ltrim (tlistValues o)).
Proof.
  intros Hle. destruct o as [zl|l]; simpl in *.
  - unfold ziplistLen in *.
    rewrite ziplistDeleteRange_head.
    rewrite ziplistDeleteRange_tail by (rewrite length_drop; lia).
    by rewrite fmap_take, fmap_drop, length_drop.
  - by rewrite fmap_take, fmap_drop, length_drop.
Qed.

End trim.

(** X8. LTRIM on a list of length [len] with int arguments start and end
    resolves and clamps them as LRANGE does and keeps exactly the elements
    at positions start..end, in order; it keeps nothing when start > end
    or start >= len.  The key is deleted when nothing is kept.  The reply
    is OK, the key is signalled and the dirty counter is incremented once.
    LTRIM key 0 -1 keeps every element. *)
Theorem ltrim_keeps_range
  (c : nat) (key : string) (o : tlist) (start end_ : Z) (st : redisServer) :
  db st !! key = Some (OList o) →
  (Z.of_nat (tlistLength o) ≤ INT_MAX)%Z → isInt start → isInt end_ →
  let len := Z.of_nat (tlistLength o) in
  let s := Z.max 0 (resolveIndex len start) in
  let e0 := resolveIndex len end_ in
  let e := Z.min e0 (len - 1) in
  let kept :=
    if bool_decide (e0 < s ∨ len ≤ s)%Z then []
    else take (Z.to_nat (e - s + 1)) (drop (Z.to_nat s) (tlistValues o)) in
  let st' := ltrimCommand c key start end_ st in
  keyValues st' key = kept
  ∧ (kept = [] → db st' !! key = None)
  ∧ (∀ k, k ≠ key → db st' !! k = db st !! k)
  ∧ clients st' = clients (addReply c (RShared ok) st)
  ∧ dirty st' = (dirty st + 1)%Z
  ∧ signalled st' = signalled st ++ [key]
  ∧ (start = 0%Z → end_ = (-1)%Z → kept = tlistValues o).
Proof.
  intros Hk Hlen Hs He len s e0 e kept st'.
  assert (Hl : toInt (Z.of_nat (tlistLength o)) = len)
    by (apply toInt_id; unfold isInt, INT_MIN, INT_MAX in *; lia).
  assert (Hvals : tlistValues (ltrimList o start end_) = kept).
  { unfold ltrimList. rewrite Hl.
    rewrite normalizeRange_spec by (done || lia).
    fold s e0. subst kept. case_bool_decide as Hempty.
    - pose proof (ltrimList_values o (tlistLength o) 0) as H.
      replace (Z.to_nat len) with (tlistLength o) by (subst len; lia).
      change (Z.to_nat 0) with 0. change (- 0)%Z with (- Z.of_nat 0)%Z.
      rewrite H by lia.
      rewrite drop_ge by (rewrite tlistValues_length; lia).
      by rewrite take_nil.
    - fold e.
      assert (Hb : (0 ≤ s ∧ s ≤ e ∧ e < len ∧ len ≤ INT_MAX)%Z) by lia.
      rewrite (toInt_id (len - e))
        by (unfold isInt, INT_MIN, INT_MAX in *; lia).
      rewrite (toInt_id (len - e - 1))
        by (unfold isInt, INT_MIN, INT_MAX in *; lia).
      pose proof (ltrimList_values o (Z.to_nat s) (Z.to_nat (len - e - 1)))
        as H.
      replace (- (len - e - 1))%Z
        with (- Z.of_nat (Z.to_nat (len - e - 1)))%Z by lia.
      rewrite H by (subst len; lia).
      f_equal. subst len. lia. }
  assert (Hzero : tlistLength (ltrimList o start end_) = 0 ↔ kept = []).
  { rewrite <- tlistValues_length, Hvals. apply length_zero_iff_nil. }
  assert (Hfull : start = 0%Z → end_ = (-1)%Z → kept = tlistValues o).
  { intros Hstart Hend.
    assert (Hs0 : s = 0%Z).
    { subst s. rewrite Hstart. unfold resolveIndex.
      rewrite bool_decide_eq_false_2; lia. }
    assert (He0 : e0 = (len - 1)%Z).
    { subst e0. rewrite Hend. unfold resolveIndex.
      rewrite bool_decide_eq_true_2; lia. }
    assert (He1 : e = (len - 1)%Z) by lia.
    pose proof (tlistValues_length o) as Hvl.
    subst kept. rewrite Hs0, He0, He1.
    destruct (decide ((len - 1 < 0)%Z ∨ (len ≤ 0)%Z)) as [Hempty|Hempty].
    - rewrite (bool_decide_eq_true_2 _ Hempty).
      symmetry. apply length_zero_iff_nil. lia.
    - rewrite (bool_decide_eq_false_2 _ Hempty).
      change (Z.to_nat 0) with 0. rewrite drop_0.
      rewrite take_ge; [done|]. lia. }
  subst st'. unfold ltrimCommand. rewrite Hk.
  destruct (decide (kept = [])) as [Hnil|Hnil].
  - rewrite bool_decide_eq_true_2 by by apply Hzero.
    unfold keyValues. simpl. rewrite lookup_delete_eq.
    split; [done|]. split; [done|].
    split; [|by repeat split].
    intros k Hne. by rewrite lookup_delete_ne, lookup_insert_ne.
  - rewrite bool_decide_eq_false_2 by (intros Hz; by apply Hnil, Hzero).
    unfold keyValues. simpl. rewrite lookup_insert_eq.
    split; [done|]. split; [done|].
    split; [|by repeat split].
    intros k Hne. by rewrite lookup_insert_ne.
Qed.

Lemma ltrim_keeps_range_witness :
  keyValues (ltrimCommand 1 "k" 1 (-2) stRange) "k" = ["7"; "c"]
  ∧ dirty (ltrimCommand 1 "k" 1 (-2) stRange) = 1%Z.
Proof.
  assert (H1 : isInt 1) by (unfold isInt, INT_MIN, INT_MAX; lia).
  assert (H2 : isInt (-2)) by (unfold isInt, INT_MIN, INT_MAX; lia).
  assert (H3 : (Z.of_nat
                  (tlistLength (Ziplist [ZStr "a"; ZInt 7; ZStr "c"; ZStr "d"]))
                ≤ INT_MAX)%Z) by (unfold INT_MAX; simpl; lia).
  destruct (ltrim_keeps_range 1 "k"
              (Ziplist [ZStr "a"; ZInt 7; ZStr "c"; ZStr "d"])
              1 (-2) stRange eq_refl H3 H1 H2)
    as (Hkept & _ & _ & _ & Hdirty & _).
  split; [exact Hkept|exact Hdirty].
Defined.

(** ** LPUSHX, RPUSHX *)

(** X9. LPUSHX / RPUSHX never create a key: on a missing key the reply is
    0 and nothing else changes.  On a list the value is put at the head
    (tail), the reply is the new length, the key is signalled and the dirty
    counter incremented; the registry of blocked clients is not
    consulted. *)
Theorem pushx_needs_the_key
  (c : nat) (key : string) (val : sobj) (whr : lwhere) (st : redisServer) :
  let cmd := match whr with
             | REDIS_HEAD => lpushxCommand
             | REDIS_TAIL => rpushxCommand
             end in
  match db st !! key with
  | None => cmd c key val st = Some (addReply c (RShared czero) st)
  | Some (OList o) =>
      ∃ o',
        cmd c key val st
        = Some (addReplyLongLong c (Z.of_nat (S (tlistLength o)))
                  (incrDirty (signalModifiedKey key (storeList key o' st))))
        ∧ tlistValues o'
          = match whr with
            | REDIS_HEAD => getDecodedObject val :: tlistValues o
            | REDIS_TAIL => tlistValues o ++ [getDecodedObject val]
            end
  | Some _ => cmd c key val st = Some (addReply c (RShared wrongtypeerr) st)
  end.
Proof.
  intros cmd.
  assert (Hcmd : cmd c key val st
                 = pushxGenericCommand c key None (tryObjectEncoding val)
                     whr st) by (by destruct whr).
  rewrite Hcmd. unfold pushxGenericCommand.
  destruct (db st !! key) as [[|o| | |]|]; try done.
  destruct (tlistPush_spec (conf st) o (tryObjectEncoding val) whr)
    as (o' & -> & Hv & Hlen & _).
  exists o'. simpl. rewrite Hlen. split; [done|].
  by rewrite Hv, tryObjectEncoding_decoded.
Qed.

(** ** LREM *)

Section rem.

Lemma ziplistCompare_bytes e s :
  zlentryWf e → ziplistCompare e s = bool_decide (zlentryBytes e = s).
Proof.
  destruct e as [x|n]; simpl; [done|]. intros Hn.
  apply bool_decide_ext. split.
  - by intros [-> _]%string2ll_Some.
  - intros <-. by apply string2ll_ll2string.
Qed.

Lemma filter_rev {A} (P : A → Prop) `{∀ x, Decision (P x)} (l : list A) :
  filter P (rev l) = rev (filter P l).
Proof.
  induction l as [|x l IH]; [done|]. simpl.
  rewrite filter_app, IH.
  destruct (decide (P x)).
  - by rewrite !filter_cons_True by done.
  - rewrite !filter_cons_False by done. by rewrite filter_nil, app_nil_r.
Qed.

Lemma filter_fmap_bytes {A} (f : A → string) (b : string) (l : list A) :
  f <$> filter (λ x, f x ≠ b) l = filter (λ y, y ≠ b) (f <$> l).
Proof.
  induction l as [|x l IH]; [done|].
  rewrite fmap_cons. destruct (decide (f x = b)) as [Heq|Hne].
  - rewrite !filter_cons_False by (intros ?; done). done.
  - rewrite !filter_cons_True by done. by rewrite fmap_cons, IH.
Qed.

Lemma occurrences_fmap {A} (f : A → string) (b : string) (l : list A) :
  length (filter (λ x, f x = b) l) = occurrences b (f <$> l).
Proof.
  unfold occurrences. induction l as [|x l IH]; [done|].
  rewrite fmap_cons. destruct (decide (f x = b)) as [Heq|Hne].
  - rewrite !filter_cons_True by done. simpl. by rewrite IH.
  - rewrite !filter_cons_False by done. done.
Qed.

Lemma occurrences_fmap_rev {A} (f : A → string) (b : string) (l : list A) :
  occurrences b (f <$> rev l) = length (filter (λ x, f x = b) l).
Proof. by rewrite <- occurrences_fmap, filter_rev, length_rev. Qed.

Lemma occurrences_rev (b : string) (l : list string) :
  occurrences b (rev l) = occurrences b l.
Proof. unfold occurrences. by rewrite filter_rev, length_rev. Qed.

Lemma occurrences_zero_notin (b : string) (l : list string) :
  occurrences b l = 0 ↔ b ∉ l.
Proof.
  unfold occurrences. induction l as [|x l IH]; simpl.
  - split; [intros _; apply not_elem_of_nil|done].
  - rewrite not_elem_of_cons. destruct (decide (x = b)) as [->|Hne].
    + rewrite filter_cons_True by done. simpl. split; [lia|].
      by intros [? _].
    + rewrite filter_cons_False by done. rewrite IH.
      split; [by split|by intros [_ ?]].
Qed.

Context {A : Type} (f : A → string) (b : string).

(** The scan from the head: it removes the elements equal to [b] of a
    prefix [pre] and leaves the rest [post] untouched; it ends with the
    list, or as soon as [toremove] elements were removed. *)
Lemma lremScan_spec (toremove : Z) : ∀ (l : list A) (removed : Z),
  (0 ≤ removed)%Z → (toremove = 0 ∨ removed ≤ toremove)%Z →
  ∃ pre post,
    l = pre ++ post
    ∧ lremScan (λ x, bool_decide (f x = b)) toremove removed l
      = (filter (λ x, f x ≠ b) pre ++ post,
         (removed + Z.of_nat (length (filter (λ x, f x = b) pre)))%Z)
    ∧ (post ≠ [] →
       (removed + Z.of_nat (length (filter (λ x, f x = b) pre)))%Z
       = toremove ∧ toremove ≠ 0%Z)
    ∧ (toremove ≠ 0%Z →
       (removed + Z.of_nat (length (filter (λ x, f x = b) pre))
        ≤ toremove)%Z).
Proof.
  induction l as [|x l IH]; intros removed Hr Hle.
  - exists [], []. split; [done|]. simpl. rewrite Z.add_0_r.
    split; [done|]. split; [done|]. lia.
  - simpl.
    destruct (decide (toremove = 0 ∨ removed < toremove)%Z) as [Hgo|Hstop].
    + rewrite (bool_decide_eq_true_2 _ Hgo).
      destruct (decide (f x = b)) as [Heq|Hne].
      * rewrite (bool_decide_eq_true_2 _ Heq).
        destruct (IH (removed + 1)%Z) as (pre & post & -> & -> & H1 & H2);
          [lia|lia|].
        exists (x :: pre), post. split; [done|].
        rewrite filter_cons_False by (intros ?; done).
        rewrite filter_cons_True by done. simpl length.
        replace (removed + Z.of_nat (S (length (filter _ pre))))%Z
          with (removed + 1
                + Z.of_nat (length (filter (λ x, f x = b) pre)))%Z
          by lia.
        done.
      * rewrite (bool_decide_eq_false_2 _ Hne).
        destruct (IH removed) as (pre & post & -> & -> & H1 & H2);
          [lia|lia|].
        exists (x :: pre), post. split; [done|].
        rewrite filter_cons_True by done.
        rewrite filter_cons_False by done. done.
    + rewrite (bool_decide_eq_false_2 _ Hstop).
      exists [], (x :: l). split; [done|]. simpl. rewrite Z.add_0_r.
      split; [done|]. split; [lia|lia].
Qed.

End rem.

Section rem_list.

Lemma dirty_iter n st :
  dirty (Nat.iter n incrDirty st) = (dirty st + Z.of_nat n)%Z
  ∧ db (Nat.iter n incrDirty st) = db st
  ∧ clients (Nat.iter n incrDirty st) = clients st
  ∧ blocking_keys (Nat.iter n incrDirty st) = blocking_keys st
  ∧ signalled (Nat.iter n incrDirty st) = signalled st.
Proof.
  induction n as [|n (IH1 & IH2 & IH3 & IH4 & IH5)];
    [simpl; repeat split; lia|].
  simpl. rewrite IH1. repeat split; try done. lia.
Qed.

(** What lremList does to the elements, for a count that is not
    INT_MIN. *)
Lemma lremList_spec o (count : Z) (ele : sobj) :
  tlistWf o → isInt count → count ≠ INT_MIN →
  let b := getDecodedObject ele in
  ∃ o' pre post,
    tlistValues o = pre ++ post
    ∧ lremList o count ele
      = (o', Z.of_nat (occurrences b
                         (if bool_decide (0 ≤ count)%Z then pre else post)))
    ∧ tlistValues o'
      = (if bool_decide (0 ≤ count)%Z
         then filter (λ y, y ≠ b) pre ++ post
         else pre ++ filter (λ y, y ≠ b) post)
    ∧ ((if bool_decide (0 ≤ count)%Z then post else pre) ≠ [] →
       Z.of_nat (occurrences b
                   (if bool_decide (0 ≤ count)%Z then pre else post))
       = Z.abs count ∧ count ≠ 0%Z)
    ∧ (count ≠ 0%Z →
       (Z.of_nat (occurrences b
                    (if bool_decide (0 ≤ count)%Z then pre else post))
        ≤ Z.abs count)%Z).
Proof.
  intros Hwf Hint Hmin b. unfold lremList.
  assert (Habs : (if bool_decide (count < 0)%Z then toInt (- count)
                  else count) = Z.abs count).
  { case_bool_decide; [|lia]. rewrite toInt_id; [lia|].
    unfold isInt, INT_MIN, INT_MAX in *. lia. }
  rewrite Habs.
  assert (Hgen : ∀ {A} (f : A → string) (l : list A),
    ∃ pre post l',
      f <$> l = pre ++ post
      ∧ (if bool_decide (count < 0)%Z
         then (let '(r, n) :=
                 lremScan (λ x, bool_decide (f x = b)) (Z.abs count) 0
                   (rev l) in (rev r, n))
         else lremScan (λ x, bool_decide (f x = b)) (Z.abs count) 0 l)
        = (l', Z.of_nat (occurrences b
                           (if bool_decide (0 ≤ count)%Z
                            then pre else post)))
      ∧ f <$> l'
        = (if bool_decide (0 ≤ count)%Z
           then filter (λ y, y ≠ b) pre ++ post
           else pre ++ filter (λ y, y ≠ b) post)
      ∧ ((if bool_decide (0 ≤ count)%Z then post else pre) ≠ [] →
         Z.of_nat (occurrences b
                     (if bool_decide (0 ≤ count)%Z then pre else post))
         = Z.abs count ∧ count ≠ 0%Z)
      ∧ (count ≠ 0%Z →
         (Z.of_nat (occurrences b
                      (if bool_decide (0 ≤ count)%Z then pre else post))
          ≤ Z.abs count)%Z)).
  { intros A f l.
    destruct (decide (count < 0)%Z) as [Hneg|Hpos].
    - rewrite (bool_decide_eq_true_2 _ Hneg).
      rewrite (bool_decide_eq_false_2 (0 ≤ count)%Z) by lia.
      destruct (lremScan_spec f b (Z.abs count) (rev l) 0)
        as (pre & post & Hl & -> & H1 & H2); [lia|lia|].
      exists (f <$> rev post), (f <$> rev pre),
        (rev (filter (λ x, f x ≠ b) pre ++ post)).
      split; [|split; [|split; [|split]]].
      + rewrite <- fmap_app, <- rev_app_distr, <- Hl.
        by rewrite rev_involutive.
      + f_equal. rewrite occurrences_fmap_rev. lia.
      + rewrite rev_app_distr, fmap_app. f_equal.
        by rewrite <- filter_rev, filter_fmap_bytes.
      + intros Hne. rewrite occurrences_fmap_rev.
        destruct H1 as [H1 H1'].
        * intros ->. by apply Hne.
        * split; [lia|lia].
      + intros Hne. rewrite occurrences_fmap_rev. lia.
    - rewrite (bool_decide_eq_false_2 _ Hpos).
      rewrite (bool_decide_eq_true_2 (0 ≤ count)%Z) by lia.
      destruct (lremScan_spec f b (Z.abs count) l 0)
        as (pre & post & Hl & -> & H1 & H2); [lia|lia|].
      exists (f <$> pre), (f <$> post),
        (filter (λ x, f x ≠ b) pre ++ post).
      split; [|split; [|split; [|split]]].
      + by rewrite <- fmap_app, Hl.
      + f_equal. rewrite <- occurrences_fmap. lia.
      + by rewrite fmap_app, filter_fmap_bytes.
      + intros Hne. rewrite <- occurrences_fmap.
        destruct H1 as [H1 H1'].
        * intros ->. by apply Hne.
        * split; [lia|lia].
      + intros Hne. rewrite <- occurrences_fmap. lia. }
  destruct o as [zl|l].
  - destruct (Hgen _ zlentryBytes zl)
      as (pre & post & zl' & Hsplit & Hscan & Hv & H1 & H2).
    exists (Ziplist zl'), pre, post. split; [done|].
    split; [|by split].
    assert (Hext : ∀ l0,
      Forall zlentryWf l0 →
      ∀ t r, lremScan (λ e, ziplistCompare e b) t r l0
             = lremScan (λ x, bool_decide (zlentryBytes x = b)) t r l0).
    { induction 1 as [|e l0 He _ IH]; intros t r; [done|].
      simpl. rewrite (ziplistCompare_bytes e b He).
      rewrite !IH. done. }
    fold b. rewrite (Hext (rev zl)) by by apply Forall_rev.
    rewrite (Hext zl) by done. by rewrite Hscan.
  - destruct (Hgen _ getDecodedObject l)
      as (pre & post & l' & Hsplit & Hscan & Hv & H1 & H2).
    exists (Linkedlist l'), pre, post. split; [done|].
    split; [|by split].
    assert (Hext : ∀ l0 t r,
      lremScan (λ v, equalStringObjects v (tryObjectEncoding ele)) t r l0
      = lremScan (λ x, bool_decide (getDecodedObject x = b)) t r l0).
    { induction l0 as [|e l0 IH]; intros t r; [done|].
      simpl. unfold equalStringObjects at 1.
      rewrite tryObjectEncoding_decoded. rewrite !IH. done. }
    rewrite !Hext. by rewrite Hscan.
Qed.

End rem_list.

(** X10. LREM key count value on a well-formed list, for an int count
    other than INT_MIN.  The list splits into the part the scan went
    through and the part it never reached: the scan starts at the head for
    count >= 0 and at the tail for count < 0.  Every element with the
    bytes of the value is removed from the scanned part, everything else
    stays in order.  The scan stops before the end of the list only when
    |count| elements were removed and count is not 0; so count = 0 removes
    every occurrence.  The reply is the number removed, the dirty counter
    grows by it, and the key is deleted when no element is left. *)
Theorem lrem_removes_matching
  (c : nat) (key : string) (o : tlist) (count : Z) (ele : sobj)
  (st : redisServer) :
  db st !! key = Some (OList o) →
  tlistWf o → isInt count → count ≠ INT_MIN →
  let b := getDecodedObject ele in
  let st' := lremCommand c key count ele st in
  ∃ pre post,
    let scanned := if bool_decide (0 ≤ count)%Z then pre else post in
    let rest := if bool_decide (0 ≤ count)%Z then post else pre in
    let n := Z.of_nat (occurrences b scanned) in
    tlistValues o = pre ++ post
    ∧ keyValues st' key
      = (if bool_decide (0 ≤ count)%Z
         then filter (λ y, y ≠ b) pre ++ post
         else pre ++ filter (λ y, y ≠ b) post)
    ∧ (rest ≠ [] → n = Z.abs count ∧ count ≠ 0%Z)
    ∧ (count ≠ 0%Z → (n ≤ Z.abs count)%Z)
    ∧ (count = 0%Z →
       keyValues st' key = filter (λ y, y ≠ b) (tlistValues o))
    ∧ clients st' = clients (addReplyLongLong c n st)
    ∧ dirty st' = (dirty st + n)%Z
    ∧ (keyValues st' key = [] → db st' !! key = None)
    ∧ (∀ k, k ≠ key → db st' !! k = db st !! k).
Proof.
  intros Hk Hwf Hint Hmin b st'.
  destruct (lremList_spec o count ele Hwf Hint Hmin)
    as (o' & pre & post & Hsplit & Hrem & Hv & H1 & H2).
  fold b in Hrem, Hv, H1, H2.
  exists pre, post. intros scanned rest n.
  assert (Hst' : st'
    = let st1 := Nat.iter (Z.to_nat n) incrDirty (storeList key o' st) in
      let st2 := if bool_decide (tlistLength o' = 0) then dbDelete key st1
                 else st1 in
      let st3 := addReplyLongLong c n st2 in
      if bool_decide (n ≠ 0%Z) then signalModifiedKey key st3 else st3).
  { subst st'. unfold lremCommand. by rewrite Hk, Hrem. }
  destruct (dirty_iter (Z.to_nat n) (storeList key o' st))
    as (Hd1 & Hd2 & Hd3 & _ & _).
  assert (Hdb : db st'
    = if bool_decide (tlistLength o' = 0)
      then delete key (<[key := OList o']> (db st))
      else <[key := OList o']> (db st)).
  { rewrite Hst'. simpl.
    destruct (bool_decide (n ≠ 0%Z)), (bool_decide (tlistLength o' = 0));
      simpl; by rewrite Hd2. }
  assert (Hkv : keyValues st' key = tlistValues o').
  { unfold keyValues. rewrite Hdb. case_bool_decide as Hz.
    - rewrite lookup_delete_eq. symmetry. apply length_zero_iff_nil.
      by rewrite tlistValues_length.
    - by rewrite lookup_insert_eq. }
  split; [done|]. split; [by rewrite Hkv|].
  split; [done|]. split; [done|]. split; [|split; [|split; [|split]]].
  - intros Hc0. rewrite Hkv, Hv.
    assert (Hrest : rest = []).
    { destruct rest as [|x r] eqn:Hr; [done|].
      destruct H1 as [_ H1]; [|done]. subst rest. by rewrite Hr. }
    subst rest. rewrite Hsplit.
    rewrite bool_decide_eq_true_2 in * by lia.
    by rewrite Hrest, !app_nil_r.
  - rewrite Hst'. simpl.
    destruct (bool_decide (n ≠ 0%Z)), (bool_decide (tlistLength o' = 0));
      simpl; by rewrite Hd3.
  - rewrite Hst'. simpl.
    destruct (bool_decide (n ≠ 0%Z)), (bool_decide (tlistLength o' = 0));
      simpl; rewrite Hd1; simpl; lia.
  - rewrite Hkv. intros Hnil. rewrite Hdb.
    rewrite bool_decide_eq_true_2
      by (by rewrite <- tlistValues_length, Hnil).
    by rewrite lookup_delete_eq.
  - intros k Hne. rewrite Hdb. case_bool_decide.
    + by rewrite lookup_delete_ne, lookup_insert_ne.
    + by rewrite lookup_insert_ne.
Qed.

Lemma lrem_removes_matching_witness :
  ∃ pre post,
    ["a"; "b"; "a"; "c"] = pre ++ post
    ∧ keyValues (lremCommand 1 "k" (-1) (Raw "a") stRem) "k"
      = pre ++ filter (λ y, y ≠ "a") post
    ∧ clients (lremCommand 1 "k" (-1) (Raw "a") stRem)
      = clients (addReplyLongLong 1 (Z.of_nat (occurrences "a" post)) stRem).
Proof.
  assert (Hwf : tlistWf (Ziplist [ZStr "a"; ZStr "b"; ZStr "a"; ZStr "c"]))
    by (repeat constructor).
  assert (H1 : isInt (-1)) by (unfold isInt, INT_MIN, INT_MAX; lia).
  assert (H2 : (-1)%Z ≠ INT_MIN) by (unfold INT_MIN; lia).
  destruct (lrem_removes_matching 1 "k"
              (Ziplist [ZStr "a"; ZStr "b"; ZStr "a"; ZStr "c"]) (-1)
              (Raw "a") stRem eq_refl Hwf H1 H2)
    as (pre & post & Hsplit & Hkv & _ & _ & _ & Hcl & _).
  exists pre, post. split; [exact Hsplit|]. split; [exact Hkv|exact Hcl].
Defined.

(** ** LINSERT *)

Section insert.

Lemma list_find_split {A} (P : A → Prop) `{∀ x, Decision (P x)}
  (pre : list A) (x : A) (post : list A) :
  Forall (λ y, ¬ P y) pre → P x →
  list_find P (pre ++ x :: post) = Some (length pre, x).
Proof.
  intros Hpre Hx. apply list_find_Some.
  split; [by apply list_lookup_middle|]. split; [done|].
  intros j y Hj Hlt. rewrite lookup_app_l in Hj by done.
  rewrite Forall_forall in Hpre. apply Hpre.
  by eapply list_elem_of_lookup_2.
Qed.

Lemma fmap_split {A} (f : A → string) (l : list A) pre (b : string) post :
  f <$> l = pre ++ b :: post →
  ∃ lpre x lpost,
    l = lpre ++ x :: lpost ∧ pre = f <$> lpre ∧ b = f x
    ∧ post = f <$> lpost.
Proof.
  intros (lpre & l2 & -> & H2 & ->)%fmap_app_inv.
  symmetry in H2.
  apply fmap_cons_inv in H2 as (x & lpost & -> & -> & ->).
  by exists lpre, x, lpost.
Qed.

Lemma tlistTryConversion_wf cf o v o' :
  tlistWf o → tlistTryConversion cf o v = Some o' → tlistWf o'.
Proof.
  destruct o as [zl|l]; simpl; [|by intros _ [= <-]].
  intros Hwf. destruct v as [s|n]; [|by intros [= <-]].
  case_bool_decide; [by intros [= <-]|by intros [= <-]].
Qed.

Lemma strcaseeqLoop_length a b :
  strcaseeqLoop a b = true → String.length a = String.length b.
Proof.
  revert b. induction a as [|x a IH]; intros [|y b]; simpl; try done.
  intros [_ Hab]%andb_true_iff. by rewrite (IH b).
Qed.

Lemma strcaseeq_direction direction whr :
  strcaseeq direction (directionWord whr) = true →
  strcaseeq direction "after" = bool_decide (whr = REDIS_TAIL)
  ∧ strcaseeq direction "before" = bool_decide (whr = REDIS_HEAD).
Proof.
  unfold strcaseeq. intros Hd.
  pose proof (strcaseeqLoop_length _ _ Hd) as Hlen.
  destruct whr; simpl in Hd, Hlen.
  - split; [|done].
    destruct (strcaseeqLoop (cstring direction) (cstring "after"))
      eqn:Ha; [|done].
    apply strcaseeqLoop_length in Ha. simpl in Ha. lia.
  - split; [done|].
    destruct (strcaseeqLoop (cstring direction) (cstring "before"))
      eqn:Hb; [|done].
    apply strcaseeqLoop_length in Hb. simpl in Hb. lia.
Qed.

(** What linsertList does to the elements of a well-formed list. *)
Lemma linsertList_spec cf o pivot val whr :
  tlistWf o →
  let vs := tlistValues o in
  let v := getDecodedObject val in
  (pivot ∉ vs →
   ∃ o1, linsertList cf o (Raw pivot) val whr = Some (o1, false)
         ∧ tlistValues o1 = vs)
  ∧ (∀ pre post, vs = pre ++ pivot :: post → pivot ∉ pre →
     ∃ o1, linsertList cf o (Raw pivot) val whr = Some (o1, true)
           ∧ tlistValues o1
             = match whr with
               | REDIS_HEAD => pre ++ v :: pivot :: post
               | REDIS_TAIL => pre ++ pivot :: v :: post
               end).
Proof.
  intros Hwf vs v. unfold linsertList.
  destruct (tlistTryConversion_values cf o val) as (o1 & Hconv & Hv1 & _).
  pose proof (tlistTryConversion_wf cf o val o1 Hwf Hconv) as Hwf1.
  rewrite Hconv. simpl. subst vs. rewrite <- Hv1. clear Hconv Hv1.
  destruct o1 as [zl|l]; simpl in Hwf1 |- *.
  - assert (HP : ∀ e, e ∈ zl →
              (ziplistCompare e pivot = true ↔ zlentryBytes e = pivot)).
    { intros e He. rewrite Forall_forall in Hwf1.
      rewrite ziplistCompare_bytes by auto.
      apply bool_decide_eq_true. }
    split.
    + intros Hnot.
      assert (Hnone : list_find (λ e, ziplistCompare e pivot = true) zl
                      = None).
      { apply list_find_None, Forall_forall. intros e He Hc.
        apply Hnot, list_elem_of_fmap. exists e. split; [|done].
        symmetry. by apply HP. }
      rewrite Hnone. by eexists.
    + intros pre post Hsplit Hpre.
      apply fmap_split in Hsplit as (zpre & e & zpost & -> & -> & -> & ->).
      rewrite list_find_split; cycle 1.
      { apply Forall_forall. intros y Hy Hc. apply Hpre.
        apply list_elem_of_fmap. exists y. split; [|done].
        symmetry. apply HP; [|done]. apply elem_of_app. by left. }
      { apply HP; [|done]. apply elem_of_app. right. by left. }
      subst v. set (v := getDecodedObject val).
      set (zl' := match whr with
                  | REDIS_TAIL => zpre ++ e :: zipEntry v :: zpost
                  | REDIS_HEAD => zpre ++ zipEntry v :: e :: zpost
                  end).
      assert (Hzl' :
        match whr with
        | REDIS_HEAD => ziplistInsert (zpre ++ e :: zpost) (length zpre) v
        | REDIS_TAIL =>
            match ziplistNext (zpre ++ e :: zpost) (length zpre) with
            | Some q => ziplistInsert (zpre ++ e :: zpost) q v
            | None => (zpre ++ e :: zpost) ++ [zipEntry v]
            end
        end = zl').
      { subst zl'. destruct whr.
        - unfold ziplistInsert.
          by rewrite take_app_length, drop_app_length.
        - unfold ziplistNext. rewrite length_app. simpl.
          destruct zpost as [|e' zpost].
          + rewrite bool_decide_eq_false_2 by (simpl; lia).
            simpl. by rewrite <- app_assoc.
          + rewrite bool_decide_eq_true_2 by (simpl; lia).
            unfold ziplistInsert.
            rewrite (cons_middle e zpre), app_assoc.
            replace (S (length zpre)) with (length (zpre ++ [e]))
              by (rewrite length_app; simpl; lia).
            rewrite take_app_length, drop_app_length.
            by rewrite <- app_assoc. }
      rewrite Hzl'.
      assert (Hvals : zlentryBytes <$> zl'
                      = match whr with
                        | REDIS_HEAD =>
                            (zlentryBytes <$> zpre)
                            ++ v :: zlentryBytes e
                               :: (zlentryBytes <$> zpost)
                        | REDIS_TAIL =>
                            (zlentryBytes <$> zpre)
                            ++ zlentryBytes e :: v
                               :: (zlentryBytes <$> zpost)
                        end).
      { subst zl'. destruct whr; rewrite fmap_app; simpl;
          by rewrite zipEntry_bytes. }
      case_bool_decide.
      * destruct (tlistConvert_values zl') as [-> Hcv]. simpl.
        eexists. split; [done|]. simpl in Hcv |- *.
        by rewrite Hcv, Hvals.
      * simpl. eexists. split; [done|]. simpl. by rewrite Hvals.
  - assert (HP : ∀ x, equalStringObjects x (Raw pivot) = true
                      ↔ getDecodedObject x = pivot).
    { intros x. unfold equalStringObjects. simpl.
      apply bool_decide_eq_true. }
    split.
    + intros Hnot.
      assert (Hnone :
        list_find (λ x, equalStringObjects x (Raw pivot) = true) l = None).
      { apply list_find_None, Forall_forall. intros x Hx Hc.
        apply Hnot, list_elem_of_fmap. exists x. split; [|done].
        symmetry. by apply HP. }
      rewrite Hnone. by eexists.
    + intros pre post Hsplit Hpre.
      apply fmap_split in Hsplit as (lpre & x & lpost & -> & -> & -> & ->).
      rewrite list_find_split; cycle 1.
      { apply Forall_forall. intros y Hy Hc. apply Hpre.
        apply list_elem_of_fmap. exists y. split; [|done].
        symmetry. by apply HP. }
      { by apply HP. }
      eexists. split; [done|]. simpl. unfold listInsertNode.
      destruct whr.
      * by rewrite take_app_length, drop_app_length, fmap_app.
      * rewrite (cons_middle x lpre), app_assoc.
        replace (S (length lpre)) with (length (lpre ++ [x]))
          by (rewrite length_app; simpl; lia).
        rewrite take_app_length, drop_app_length.
        rewrite <- app_assoc, fmap_app. done.
Qed.

End insert.

(** X11. LINSERT key BEFORE|AFTER pivot value on a well-formed list.  The
    direction word is compared without regard to case.  When no element
    has the bytes of the pivot the reply is -1 and the elements are
    unchanged.  Otherwise the value is inserted immediately before (after)
    the first element with the bytes of the pivot, all other elements keep
    their order, the reply is the new length, the key is signalled and the
    dirty counter incremented. *)
Theorem linsert_places_value
  (c : nat) (key direction pivot : string) (val : sobj) (whr : lwhere)
  (o : tlist) (st : redisServer) :
  db st !! key = Some (OList o) →
  tlistWf o →
  strcaseeq direction (directionWord whr) = true →
  let vs := tlistValues o in
  let v := getDecodedObject val in
  (pivot ∉ vs →
   ∃ o1,
     linsertCommand c key direction (Raw pivot) val st
     = Some (addReply c (RShared cnegone) (storeList key o1 st))
     ∧ tlistValues o1 = vs)
  ∧ (∀ pre post, vs = pre ++ pivot :: post → pivot ∉ pre →
     ∃ o1,
       linsertCommand c key direction (Raw pivot) val st
       = Some (addReplyLongLong c (Z.of_nat (S (length vs)))
                 (incrDirty (signalModifiedKey key (storeList key o1 st))))
       ∧ tlistValues o1
         = match whr with
           | REDIS_HEAD => pre ++ v :: pivot :: post
           | REDIS_TAIL => pre ++ pivot :: v :: post
           end).
Proof.
  intros Hk Hwf Hdir vs v.
  destruct (strcaseeq_direction direction whr Hdir) as [Ha Hb].
  assert (Hcmd : linsertCommand c key direction (Raw pivot) val st
                 = pushxGenericCommand c key (Some (Raw pivot))
                     (tryObjectEncoding val) whr st).
  { unfold linsertCommand. rewrite Ha, Hb. by destruct whr. }
  rewrite Hcmd. unfold pushxGenericCommand. rewrite Hk.
  destruct (linsertList_spec (conf st) o pivot (tryObjectEncoding val) whr
              Hwf) as [Hnone Hsome].
  rewrite tryObjectEncoding_decoded in Hsome. fold v vs in Hnone, Hsome.
  split.
  - intros Hnot. destruct (Hnone Hnot) as (o1 & -> & Hv).
    exists o1. by split.
  - intros pre post Hsplit Hpre.
    destruct (Hsome pre post Hsplit Hpre) as (o1 & -> & Hv).
    exists o1. simpl. split; [|done].
    do 3 f_equal. rewrite <- tlistValues_length, Hv. subst vs.
    rewrite Hsplit. destruct whr; rewrite !length_app; simpl; lia.
Qed.

Lemma linsert_places_value_witness :
  ∃ o1,
    linsertCommand 1 "k" "BeFoRe" (Raw "c") (Raw "x") stRange
    = Some (addReplyLongLong 1 5
              (incrDirty (signalModifiedKey "k" (storeList "k" o1 stRange))))
    ∧ tlistValues o1 = ["a"; "7"; "x"; "c"; "d"].
Proof.
  assert (Hwf : tlistWf (Ziplist [ZStr "a"; ZInt 7; ZStr "c"; ZStr "d"])).
  { simpl. repeat (apply Forall_cons; split);
      try apply Forall_nil_2; try exact I.
    unfold zlentryWf, isLongLong, LLONG_MIN, LLONG_MAX. lia. }
  destruct (linsert_places_value 1 "k" "BeFoRe" "c" (Raw "x") REDIS_HEAD
              (Ziplist [ZStr "a"; ZInt 7; ZStr "c"; ZStr "d"]) stRange
              eq_refl Hwf eq_refl) as [_ Hsome].
  apply (Hsome ["a"; "7"] ["d"]); [reflexivity|].
  rewrite !not_elem_of_cons. repeat split; try discriminate.
  apply not_elem_of_nil.
Defined.

(** ** RPOPLPUSH *)

(** X12. RPOPLPUSH src dst, when src holds a list with elements, dst is
    missing or holds a list, and no client is blocked on dst: the last
    element of src is removed and put at the head of dst, and it is the
    bulk reply.  With src = dst the list is rotated: its last element
    becomes its first.  With different keys src is deleted when it gets
    empty, and dst is created when it was missing.  No other key
    changes. *)
Theorem rpoplpush_moves_tail_to_head
  (fuel c : nat) (src dst : string) (l : tlist) (st : redisServer) :
  db st !! src = Some (OList l) →
  tlistLength l ≠ 0 →
  blocking_keys st !! dst = None →
  (db st !! dst = None ∨ ∃ d, db st !! dst = Some (OList d)) →
  ∃ st' init v value,
    rpoplpushCommand (S fuel) c src dst st = Some st'
    ∧ tlistValues l = init ++ [v]
    ∧ getDecodedObject value = v
    ∧ clients st' = clients (addReplyBulk c value st)
    ∧ (src = dst → keyValues st' src = v :: init)
    ∧ (src ≠ dst →
       keyValues st' src = init
       ∧ keyValues st' dst = v :: keyValues st dst
       ∧ (init = [] → db st' !! src = None))
    ∧ (∀ k, k ≠ src → k ≠ dst → db st' !! k = db st !! k)
    ∧ blocking_keys st' = blocking_keys st.
Proof.
  intros Hsrc Hlen Hbk Hdst.
  destruct (tlistPop_spec l REDIS_TAIL Hlen) as (l1 & value & Hpop & Hv & Hl1).
  unfold rpoplpushCommand. rewrite Hsrc.
  rewrite bool_decide_eq_false_2 by done.
  set (st1 := storeList src l1 st).
  assert (Hhandle : ∀ dobj,
    rpoplpushHandlePush (S fuel) c dst dobj value st1
    = st2 ← match dobj with
            | None => dbAdd dst (OList createZiplistObject) st1
            | Some _ => Some (incrDirty (signalModifiedKey dst st1))
            end;
      st3 ← pushTo dst value REDIS_HEAD st2;
      Some (addReplyBulk c value st3)).
  { intros dobj. unfold rpoplpushHandlePush, rpoplpushHandlePushWith.
    assert (Hh : handleClientsWaitingListPush (S fuel) c dst value st1
                 = Some (false, st1))
      by (subst st1; simpl; by rewrite Hbk).
    rewrite Hh. simpl.
    destruct dobj; simpl; [done|].
    by destruct (dbAdd dst (OList createZiplistObject) st1). }
  destruct (decide (src = dst)) as [<-|Hne].
  - (* rotation *)
    rewrite Hsrc, Hpop. fold st1. rewrite Hhandle. simpl.
    unfold pushTo, derefList. simpl. rewrite lookup_insert_eq. simpl.
    destruct (tlistPush_spec (conf st) l1 value REDIS_HEAD)
      as (l2 & Hpush & Hv2 & Hlen2 & _).
    simpl. rewrite Hpush. simpl. rewrite lookup_insert_eq. simpl.
    rewrite bool_decide_eq_false_2 by lia.
    eexists _, (tlistValues l1), (getDecodedObject value), value.
    split; [done|]. split; [done|]. split; [done|]. split; [done|].
    split; [|split; [done|split; [|done]]].
    + intros _. unfold keyValues. simpl.
      by rewrite lookup_insert_eq.
    + intros k Hk _. simpl. by rewrite !lookup_insert_ne.
  - assert (Hdst1 : db st1 !! dst = db st !! dst)
      by (simpl; by rewrite lookup_insert_ne).
    assert (Hstep : ∃ d0 st2,
      match db st !! dst with
      | None => dbAdd dst (OList createZiplistObject) st1
      | Some _ => Some (incrDirty (signalModifiedKey dst st1))
      end = Some st2
      ∧ db st2 = <[dst := OList d0]> (db st1)
      ∧ tlistValues d0 = keyValues st dst
      ∧ clients st2 = clients st ∧ blocking_keys st2 = blocking_keys st
      ∧ conf st2 = conf st).
    { destruct Hdst as [Hnone|(d & Hd)].
      - rewrite Hnone. unfold dbAdd. rewrite Hdst1, Hnone.
        exists createZiplistObject. eexists. split; [done|].
        split; [done|]. unfold keyValues. rewrite Hnone. by repeat split.
      - rewrite Hd. exists d. eexists. split; [done|]. simpl.
        split; [symmetry; apply insert_id; by rewrite lookup_insert_ne|].
        unfold keyValues. rewrite Hd. by repeat split. }
    destruct Hstep as (d0 & st2 & Hst2 & Hdb2 & Hd0 & Hcl2 & Hbk2 & Hcf2).
    assert (Hcmd : ∀ dobj, dobj = db st !! dst →
      match dobj with
      | Some (OList _) | None =>
          match tlistPop l REDIS_TAIL with
          | (_, None) => None
          | (sobj1, Some value) =>
              st ← rpoplpushHandlePush (S fuel) c dst dobj value
                     (storeList src sobj1 st);
              sobj2 ← derefList src st;
              let st := if bool_decide (tlistLength sobj2 = 0)
                        then dbDelete src st else st in
              Some (incrDirty (signalModifiedKey src st))
          end
      | Some _ => Some (addReply c (RShared wrongtypeerr) st)
      end
      = st3 ← pushTo dst value REDIS_HEAD st2;
        sobj2 ← derefList src (addReplyBulk c value st3);
        let st4 := addReplyBulk c value st3 in
        let st5 := if bool_decide (tlistLength sobj2 = 0)
                   then dbDelete src st4 else st4 in
        Some (incrDirty (signalModifiedKey src st5))).
    { intros dobj ->. rewrite Hpop. fold st1. rewrite Hhandle, Hst2.
      simpl. destruct Hdst as [->|(d & ->)]; simpl;
        by destruct (pushTo dst value REDIS_HEAD st2). }
    pose proof (Hcmd _ eq_refl) as Hc. clear Hcmd.
    cbv zeta in Hc |- *. rewrite Hc. clear Hc.
    unfold pushTo, derefList. rewrite Hdb2, lookup_insert_eq. simpl.
    destruct (tlistPush_spec (conf st2) d0 value REDIS_HEAD)
      as (d1 & Hpush & Hv1 & _).
    rewrite Hpush. simpl. rewrite Hdb2.
    rewrite lookup_insert_ne by done.
    rewrite lookup_insert_ne by done. simpl.
    rewrite lookup_insert_eq. simpl.
    eexists _, (tlistValues l1), (getDecodedObject value), value.
    split; [done|]. split; [done|]. split; [done|].
    split; [by destruct (bool_decide _); simpl; rewrite Hcl2|].
    split; [done|].
    assert (Hz : tlistLength l1 = 0 ↔ tlistValues l1 = []).
    { rewrite <- tlistValues_length. apply length_zero_iff_nil. }
    assert (Hsrc3 : <[dst := OList d1]> (db st2) !! src = Some (OList l1)).
    { rewrite lookup_insert_ne, Hdb2, lookup_insert_ne by done.
      subst st1. simpl. by rewrite lookup_insert_eq. }
    assert (Hdst3 : <[dst := OList d1]> (db st2) !! dst = Some (OList d1))
      by by rewrite lookup_insert_eq.
    split; [|split].
    + intros _. unfold keyValues.
      destruct (decide (tlistLength l1 = 0)) as [Hzero|Hnz].
      * rewrite (bool_decide_eq_true_2 _ Hzero). simpl.
        rewrite lookup_delete_eq, lookup_delete_ne by done.
        rewrite Hdst3.
        split; [symmetry; by apply Hz|]. split; [by rewrite Hv1, Hd0|done].
      * rewrite (bool_decide_eq_false_2 _ Hnz). simpl.
        rewrite Hsrc3, Hdst3.
        split; [done|]. split; [by rewrite Hv1, Hd0|].
        intros Hnil. by apply Hz in Hnil.
    + intros k Hk1 Hk2.
      assert (Hk3 : <[dst := OList d1]> (db st2) !! k = db st !! k).
      { rewrite lookup_insert_ne, Hdb2, lookup_insert_ne by done.
        subst st1. simpl. by rewrite lookup_insert_ne. }
      destruct (bool_decide _); simpl;
        rewrite ?lookup_delete_ne by done; exact Hk3.
    + by destruct (bool_decide _); simpl; rewrite Hbk2.
Qed.

Lemma rpoplpush_moves_tail_to_head_witness :
  ∃ st' init v value,
    rpoplpushCommand 1 1 "src" "dst" stTwoLists = Some st'
    ∧ ["a"; "b"; "c"] = init ++ [v]
    ∧ getDecodedObject value = v
    ∧ keyValues st' "src" = init
    ∧ keyValues st' "dst" = [v; "x"].
Proof.
  destruct (rpoplpush_moves_tail_to_head 0 1 "src" "dst"
              (Linkedlist [Raw "a"; Raw "b"; Raw "c"]) stTwoLists
              eq_refl ltac:(simpl; lia) eq_refl
              (or_intror (ex_intro _ (Ziplist [ZStr "x"]) eq_refl)))
    as (st' & init & v & value & Hcmd & Hsplit & Hval & _ & _ & Hne & _).
  destruct Hne as (Hsrc & Hdst & _); [discriminate|].
  exists st', init, v, value.
  split; [exact Hcmd|]. split; [exact Hsplit|]. split; [exact Hval|].
  split; [exact Hsrc|exact Hdst].
Defined.

(** ** Blocking and unblocking *)

Section block_unblock.

Lemma blockForKeysLoop_noEmptyQueue c keys : ∀ bk,
  noEmptyQueue bk → noEmptyQueue (blockForKeysLoop c keys bk).
Proof.
  induction keys as [|k0 keys IH]; intros bk Hbk; [done|].
  simpl. apply IH. intros k.
  destruct (decide (k0 = k)) as [->|Hne].
  - rewrite lookup_insert_eq. intros [= H]. by destruct (bk !! k) as [[]|].
  - rewrite lookup_insert_ne by done. apply Hbk.
Qed.

Lemma unblockKeysLoop_noEmptyQueue c keys : ∀ bk bk',
  noEmptyQueue bk → unblockKeysLoop c keys bk = Some bk' →
  noEmptyQueue bk'.
Proof.
  induction keys as [|k0 keys IH]; intros bk bk' Hbk Hloop; simpl in Hloop.
  - by injection Hloop as <-.
  - destruct (bk !! k0) as [l|]; [|done].
    destruct (listDelFirst c l) as [l'|]; [|done].
    eapply IH; [|exact Hloop]. intros k.
    case_bool_decide as Hl.
    + destruct (decide (k0 = k)) as [->|Hne].
      * by rewrite lookup_delete_eq.
      * rewrite lookup_delete_ne by done. apply Hbk.
    + destruct (decide (k0 = k)) as [->|Hne].
      * rewrite lookup_insert_eq. intros [= ->]. by apply Hl.
      * rewrite lookup_insert_ne by done. apply Hbk.
Qed.

Lemma noEmptyQueue_waiters_eq bk bk' :
  noEmptyQueue bk → noEmptyQueue bk' →
  (∀ k, waiters bk' k = waiters bk k) → bk' = bk.
Proof.
  intros H1 H2 Hw. apply map_eq. intros k.
  specialize (Hw k). specialize (H1 k). specialize (H2 k).
  unfold waiters in Hw.
  destruct (bk !! k) as [l|], (bk' !! k) as [l'|]; simpl in Hw;
    try done; by subst.
Qed.

Lemma land_lor_lnot (f b : Z) :
  Z.land (Z.lor f b) (Z.lnot b) = Z.land f (Z.lnot b).
Proof.
  apply Z.bits_inj'. intros n Hn.
  rewrite !Z.land_spec, Z.lor_spec, Z.lnot_spec by done.
  by destruct (Z.testbit f n), (Z.testbit b n).
Qed.

Lemma blockForKeys_registered c cl keys timeout target st :
  clients st !! c = Some cl →
  (∀ k, c ∉ waiters (blocking_keys st) k) →
  clients (blockForKeys c keys timeout target st) !! c
  = Some (blockedClient cl keys timeout target)
  ∧ registeredFor (blocking_keys (blockForKeys c keys timeout target st))
      c keys.
Proof.
  intros Hc Hfresh. split.
  - simpl. by rewrite lookup_alter_eq, Hc.
  - intros k. simpl.
    rewrite blockForKeysLoop_waiters, occurrences_app,
      occurrences_replicate, occurrences_notin by done.
    by rewrite decide_True.
Qed.

End block_unblock.

(** X13. Round trip: unblocking a client that has just been blocked on any
    list of keys (repetitions allowed) succeeds and restores the registry
    of waiting clients, the count of blocked clients and the keyspace.  The
    client is left without keys and target, with REDIS_BLOCKED cleared and
    REDIS_UNBLOCKED set, and is appended to the list of unblocked clients.
    The client must not have been waiting before, and the registry must
    hold no empty queue. *)
Theorem block_unblock_roundtrip
  (c : nat) (cl : redisClient) (keys : list string) (timeout : Z)
  (target : option string) (st : redisServer) :
  clients st !! c = Some cl →
  (∀ k, c ∉ waiters (blocking_keys st) k) →
  noEmptyQueue (blocking_keys st) →
  ∃ st',
    unblockClientWaitingData c (blockForKeys c keys timeout target st)
    = Some st'
    ∧ blocking_keys st' = blocking_keys st
    ∧ bpop_blocked_clients st' = bpop_blocked_clients st
    ∧ db st' = db st
    ∧ unblocked_clients st' = unblocked_clients st ++ [c]
    ∧ clients st'
      = <[c := mkClient
                 (Z.lor (Z.land (flags cl) (Z.lnot REDIS_BLOCKED))
                    REDIS_UNBLOCKED)
                 None timeout None (replies cl)]> (clients st)
    ∧ Z.land (Z.lor (Z.land (flags cl) (Z.lnot REDIS_BLOCKED))
                REDIS_UNBLOCKED) REDIS_BLOCKED = 0%Z.
Proof.
  intros Hc Hfresh Hne.
  destruct (blockForKeys_registered c cl keys timeout target st Hc Hfresh)
    as [Hc1 Hreg].
  destruct (unblockKeysLoop_spec c keys _ Hreg) as (bk' & Hloop & Hbk').
  assert (Hbk : bk' = blocking_keys st).
  { apply noEmptyQueue_waiters_eq; [done| |].
    - eapply unblockKeysLoop_noEmptyQueue; [|exact Hloop].
      by apply blockForKeysLoop_noEmptyQueue.
    - intros k. rewrite Hbk'. simpl.
      rewrite blockForKeysLoop_waiters, filter_app.
      rewrite filter_ne_notin by done.
      replace (filter (λ x, x ≠ c) (replicate (occurrences k keys) c))
        with (@nil nat); [by rewrite app_nil_r|].
      induction (occurrences k keys) as [|n IH]; [done|]. simpl.
      by rewrite filter_cons_False by (intros ?; done). }
  eexists. split.
  { unfold unblockClientWaitingData. rewrite Hc1. simpl.
    simpl in Hloop. rewrite Hloop. simpl. reflexivity. }
  simpl. split; [done|]. split; [lia|]. split; [done|]. split; [done|].
  split; [|apply flags_unblocked].
  rewrite land_lor_lnot. apply map_eq. intros x.
  destruct (decide (c = x)) as [->|Hx].
  - by rewrite !lookup_insert_eq.
  - by rewrite !lookup_insert_ne, lookup_alter_ne by done.
Qed.

Lemma block_unblock_roundtrip_witness :
  ∃ st',
    unblockClientWaitingData 1 (blockForKeys 1 ["a"; "b"; "a"] 5 None stEmpty)
    = Some st'
    ∧ blocking_keys st' = blocking_keys stEmpty
    ∧ bpop_blocked_clients st' = bpop_blocked_clients stEmpty.
Proof.
  destruct (block_unblock_roundtrip 1 clPlain ["a"; "b"; "a"] 5 None stEmpty
              eq_refl)
    as (st' & Hu & Hbk & Hn & _).
  - intros k. unfold waiters. simpl. rewrite lookup_empty. simpl.
    apply not_elem_of_nil.
  - intros k. simpl. by rewrite lookup_empty.
  - exists st'. split; [exact Hu|]. split; [exact Hbk|exact Hn].
Defined.

(** ** BLPOP / BRPOP *)

Section blocking_pop.

Lemma blockingPopScan_first c pre k post whr st l :
  Forall (nothingToPop st) pre →
  db st !! k = Some (OList l) → tlistLength l ≠ 0 →
  blockingPopScan c (pre ++ k :: post) whr st
  = Some (popGenericCommand c k whr
            (addReplyBulk c (Raw k) (addReplyMultiBulkLen c 2 st))).
Proof.
  intros Hpre Hk Hl.
  induction Hpre as [|k' pre Hk' _ IH]; simpl.
  - rewrite Hk. by rewrite bool_decide_eq_true_2.
  - destruct Hk' as [->|(l' & -> & Hl')]; [done|].
    by rewrite bool_decide_eq_false_2 by (intros ?; done).
Qed.

End blocking_pop.

(** X14. BLPOP / BRPOP with a valid timeout serve the first key, in
    argument order, that holds a list with elements; the keys before it are
    missing or hold empty lists.  The reply is the two-element multi-bulk
    (key, element); the element is taken from the head (BLPOP) or the tail
    (BRPOP) of that list, which is deleted when it gets empty.  No other
    key changes, whatever the later keys hold, and the client is not
    blocked. *)
Theorem blockingPop_serves_first_nonempty
  (c : nat) (pre : list string) (k : string) (post : list string)
  (timeoutArg : sobj) (tval : Z) (whr : lwhere) (l : tlist)
  (st : redisServer) :
  getLongFromObject timeoutArg = Some tval → (0 ≤ tval)%Z →
  Forall (nothingToPop st) pre →
  db st !! k = Some (OList l) → tlistLength l ≠ 0 →
  ∃ st' l' value,
    blockingPopGenericCommand c (pre ++ k :: post) timeoutArg whr st
    = Some st'
    ∧ tlistPop l whr = (l', Some value)
    ∧ clients st'
      = clients (addReplyBulk c value
                   (addReplyBulk c (Raw k) (addReplyMultiBulkLen c 2 st)))
    ∧ keyValues st' k = tlistValues l'
    ∧ (tlistLength l' = 0 → db st' !! k = None)
    ∧ (∀ k', k' ≠ k → db st' !! k' = db st !! k')
    ∧ blocking_keys st' = blocking_keys st
    ∧ dirty st' = (dirty st + 1)%Z.
Proof.
  intros Ht Hge Hpre Hk Hl.
  destruct (getTimeout_valid c timeoutArg st tval Ht Hge) as [t Htime].
  destruct (tlistPop_spec l whr Hl) as (l' & value & Hpop & _ & _).
  unfold blockingPopGenericCommand. rewrite Htime.
  rewrite (blockingPopScan_first c pre k post whr st l Hpre Hk Hl).
  eexists _, l', value. split; [done|]. split; [done|].
  unfold popGenericCommand. simpl. rewrite Hk, Hpop.
  assert (Hz : tlistLength l' = 0 ↔ tlistValues l' = []).
  { rewrite <- tlistValues_length. apply length_zero_iff_nil. }
  unfold keyValues.
  destruct (decide (tlistLength l' = 0)) as [Hzero|Hnz].
  - rewrite (bool_decide_eq_true_2 _ Hzero). simpl.
    rewrite lookup_delete_eq.
    split; [done|]. split; [symmetry; by apply Hz|]. split; [done|].
    split; [|done]. intros k' Hk'.
    by rewrite lookup_delete_ne, lookup_insert_ne.
  - rewrite (bool_decide_eq_false_2 _ Hnz). simpl.
    rewrite lookup_insert_eq.
    split; [done|]. split; [done|]. split; [done|].
    split; [|done]. intros k' Hk'. by rewrite lookup_insert_ne.
Qed.

Lemma blockingPop_serves_first_nonempty_witness :
  ∃ st' l' value,
    blpopCommand 1 ["e"; "l"; "s"] (Raw "0")
      (setDb (insert "e" (OList (Linkedlist []))) stScan)
    = Some st'
    ∧ tlistPop (Ziplist [ZStr "a"]) REDIS_HEAD = (l', Some value)
    ∧ db st' !! "l" = None.
Proof.
  destruct (blockingPop_serves_first_nonempty 1 ["e"] "l" ["s"] (Raw "0") 0
              REDIS_HEAD (Ziplist [ZStr "a"])
              (setDb (insert "e" (OList (Linkedlist []))) stScan))
    as (st' & l' & value & Hcmd & Hpop & _ & _ & Hdel & _).
  - reflexivity.
  - lia.
  - apply Forall_cons. split; [|apply Forall_nil_2].
    right. exists (Linkedlist []). by split.
  - reflexivity.
  - simpl. lia.
  - exists st', l', value. split; [exact Hcmd|]. split; [exact Hpop|].
    apply Hdel. by injection Hpop as <- _.
Defined.



(** X16. The three blocking commands check the timeout argument first: a
    timeout that is not an integer, or a negative one, is answered with an
    error and nothing else happens: no key is looked at, no element is
    popped and the client is not blocked, whatever the keys hold. *)
Theorem blocking_commands_check_timeout_first
  (fuel c : nat) (keys : list string) (src dst : string)
  (timeoutArg : sobj) (whr : lwhere) (st : redisServer) :
  (getLongFromObject timeoutArg = None ∨
   ∃ tval, getLongFromObject timeoutArg = Some tval ∧ (tval < 0)%Z) →
  ∃ msg,
    blockingPopGenericCommand c keys timeoutArg whr st
    = Some (addReply c (RError msg) st)
    ∧ brpoplpushCommand fuel c src dst timeoutArg st
      = Some (addReply c (RError msg) st)
    ∧ msg = match getLongFromObject timeoutArg with
            | None => "timeout is not an integer or out of range"
            | Some _ => "timeout is negative"
            end.
Proof.
  unfold blockingPopGenericCommand, brpoplpushCommand,
    getTimeoutFromObjectOrReply.
  intros [->|(tval & -> & Hneg)].
  - by eexists.
  - rewrite bool_decide_eq_true_2 by done. by eexists.
Qed.

Lemma blocking_commands_check_timeout_first_witness :
  blpopCommand 1 ["l"] (Raw "-1") stScan
  = Some (addReply 1 (RError "timeout is negative") stScan)
  ∧ blpopCommand 1 ["l"] (Raw "soon") stScan
    = Some (addReply 1
              (RError "timeout is not an integer or out of range") stScan).
Proof.
  split.
  - destruct (blocking_commands_check_timeout_first 0 1 ["l"] "l" "l"
                (Raw "-1") REDIS_HEAD stScan) as (msg & Hcmd & _ & ->).
    + right. exists (-1)%Z. split; [reflexivity|lia].
    + exact Hcmd.
  - destruct (blocking_commands_check_timeout_first 0 1 ["l"] "l" "l"
                (Raw "soon") REDIS_HEAD stScan) as (msg & Hcmd & _ & ->).
    + by left.
    + exact Hcmd.
Defined.

(** ** Delivery to a BRPOPLPUSH waiter *)

Section deliver_target.

Lemma unblocked_state w rc ks st :
  clients st !! w = Some rc →
  bpop_keys rc = Some ks →
  registeredFor (blocking_keys st) w ks →
  ∃ stu,
    unblockClientWaitingData w st = Some stu
    ∧ db stu = db st
    ∧ conf stu = conf st
    ∧ clients stu = <[w := unblockedClient rc []]> (clients st)
    ∧ ∀ k, waiters (blocking_keys stu) k
           = filter (λ x, x ≠ w) (waiters (blocking_keys st) k).
Proof.
  intros Hrc Hks Hreg.
  destruct (unblockClientWaitingData_spec w rc ks st Hrc Hks Hreg)
    as (bk' & -> & Hbk').
  eexists. split; [done|]. simpl. split; [done|]. split; [done|].
  split; [|done]. unfold unblockedClient. by rewrite app_nil_r.
Qed.

Lemma handle_no_waiter fuel c key ele st :
  waiters (blocking_keys st) key = [] →
  handleClientsWaitingListPush (S fuel) c key ele st = Some (false, st).
Proof.
  unfold waiters. simpl. intros Hw.
  destruct (blocking_keys st !! key) as [l|]; [|done].
  simpl in Hw. by subst l.
Qed.

Lemma waiters_head st key w rest :
  waiters (blocking_keys st) key = w :: rest →
  blocking_keys st !! key = Some (w :: rest).
Proof.
  unfold waiters.
  destruct (blocking_keys st !! key) as [l|]; simpl; [by intros ->|done].
Qed.

Lemma addReply_unblocked w rc rs r (m : gmap nat redisClient) :
  alter (λ cl, mkClient (flags cl) (bpop_keys cl) (bpop_timeout cl)
                 (bpop_target cl) (replies cl ++ [r])) w
    (<[w := unblockedClient rc rs]> m)
  = <[w := unblockedClient rc (rs ++ [r])]> m.
Proof.
  rewrite alter_insert_eq. unfold unblockedClient. simpl.
  by rewrite <- app_assoc.
Qed.

(** One round of the loop of handleClientsWaitingListPush. *)
Lemma waitingLoop_step handle key ele n st receiver waiting rc stu :
  blocking_keys st !! key = Some (receiver :: waiting) →
  clients st !! receiver = Some rc →
  unblockClientWaitingData receiver st = Some stu →
  length (waiters (blocking_keys stu) key) < S (length waiting) →
  waitingLoop handle key ele (S n) st
  = match bpop_target rc with
    | None =>
        Some (true,
              addReplyBulk receiver ele
                (addReplyBulk receiver (Raw key)
                   (addReplyMultiBulkLen receiver 2 stu)))
    | Some dstkey =>
        match db stu !! dstkey with
        | None | Some (OList _) =>
            st ← rpoplpushHandlePushWith handle receiver dstkey
                   (db stu !! dstkey) ele stu;
            Some (true, st)
        | Some _ =>
            waitingLoop handle key ele n
              (addReply receiver (RShared wrongtypeerr) stu)
        end
    end.
Proof.
  intros Hkey Hrc Hu Hlen. simpl. rewrite Hkey, Hrc. simpl.
  rewrite Hu. simpl. fold (waiters (blocking_keys stu) key).
  by rewrite bool_decide_eq_true_2 by (simpl; lia).
Qed.

End deliver_target.

(** X17. A push on a key whose oldest waiter is a BRPOPLPUSH client with
    target [target], when the target is missing or holds a list and nobody
    else waits for the target: the waiter is unblocked, the value is put at
    the head of the target list (created when missing) and sent to the
    waiter as a bulk reply; no other key changes, so the value is not
    inserted under the pushed key unless that key is the target.  LPUSH /
    RPUSH then reply 1 to the pushing client. *)
Theorem push_serves_brpoplpush_waiter
  (c w : nat) (key target : string) (val : sobj) (whr : lwhere)
  (rest : list nat) (rc : redisClient) (ks : list string)
  (st : redisServer) :
  blocking_keys st !! key = Some (w :: rest) →
  clients st !! w = Some rc →
  bpop_keys rc = Some ks →
  bpop_target rc = Some target →
  registeredFor (blocking_keys st) w ks →
  (∀ x, x ∈ waiters (blocking_keys st) target → x = w) →
  (db st !! target = None ∨ ∃ d, db st !! target = Some (OList d)) →
  let ele := tryObjectEncoding val in
  ∃ st1 d',
    (∀ fuel,
       handleClientsWaitingListPush (S (S fuel)) c key ele st
       = Some (true, st1))
    ∧ db st1 = <[target := OList d']> (db st)
    ∧ tlistValues d' = getDecodedObject val :: keyValues st target
    ∧ clients st1 = <[w := unblockedClient rc [RBulk ele]]> (clients st)
    ∧ (∀ k, waiters (blocking_keys st1) k
            = filter (λ x, x ≠ w) (waiters (blocking_keys st) k))
    ∧ (∀ fuel,
         db st !! key = None ∨ (∃ l, db st !! key = Some (OList l)) →
         ∃ st',
           pushGenericCommand (S (S fuel)) c key val whr st = Some st'
           ∧ db st' = db st1
           ∧ clients st' = clients (addReply c (RShared cone) st1)).
Proof.
  intros Hkey Hrc Hks Htarget Hreg Honly Hdst ele.
  destruct (unblocked_state w rc ks st Hrc Hks Hreg)
    as (stu & Hunblock & Hdbu & Hcfu & Hclu & Hbku).
  assert (Hq : waiters (blocking_keys stu) key = filter (λ x, x ≠ w) rest).
  { rewrite Hbku. unfold waiters. rewrite Hkey. simpl.
    by rewrite filter_cons_False by (intros ?; done). }
  assert (Hnone : waiters (blocking_keys stu) target = []).
  { rewrite Hbku.
    induction (waiters (blocking_keys st) target) as [|x l IH]; [done|].
    rewrite (Honly x) by left.
    rewrite filter_cons_False by (intros ?; done).
    apply IH. intros y Hy. apply Honly. by right. }
  assert (Hstep : ∃ d0 st2,
    match db st !! target with
    | Some _ => Some (incrDirty (signalModifiedKey target stu))
    | None => dbAdd target (OList createZiplistObject) stu
    end = Some st2
    ∧ db st2 = <[target := OList d0]> (db st)
    ∧ tlistValues d0 = keyValues st target
    ∧ clients st2 = clients stu
    ∧ blocking_keys st2 = blocking_keys stu
    ∧ conf st2 = conf st).
  { destruct Hdst as [Hn|(d & Hd)].
    - rewrite Hn. unfold dbAdd. rewrite Hdbu, Hn.
      exists createZiplistObject. eexists. split; [done|]. simpl.
      rewrite Hdbu. unfold keyValues. rewrite Hn. by repeat split.
    - rewrite Hd. exists d. eexists. split; [done|]. simpl.
      rewrite Hdbu. unfold keyValues. rewrite Hd.
      split; [symmetry; by apply insert_id|]. by repeat split. }
  destruct Hstep as (d0 & st2 & Hst2 & Hdb2 & Hd0 & Hcl2 & Hbk2 & Hcf2).
  destruct (tlistPush_spec (conf st2) d0 ele REDIS_HEAD)
    as (d1 & Hpush & Hv1 & _).
  set (st3 := storeList target d1 st2).
  set (st1 := addReplyBulk w ele st3).
  assert (Hdeliver : ∀ fuel,
    handleClientsWaitingListPush (S (S fuel)) c key ele st
    = Some (true, st1)).
  { intros fuel.
    change (handleClientsWaitingListPush (S (S fuel)) c key ele st)
      with (match blocking_keys st !! key with
            | None => Some (false, st)
            | Some waiting =>
                waitingLoop (handleClientsWaitingListPush (S fuel)) key ele
                  (length waiting) st
            end).
    rewrite Hkey. simpl length.
    change (waitingLoop (handleClientsWaitingListPush (S fuel)) key ele
              (S (length rest)) st)
      with (match blocking_keys st !! key with
            | Some (receiver :: waiting) =>
                rc ← clients st !! receiver;
                let dstkey := bpop_target rc in
                st ← unblockClientWaitingData receiver st;
                if bool_decide (length (default [] (blocking_keys st !! key))
                                < length (receiver :: waiting)) then
                  match dstkey with
                  | None =>
                      Some (true,
                            addReplyBulk receiver ele
                              (addReplyBulk receiver (Raw key)
                                 (addReplyMultiBulkLen receiver 2 st)))
                  | Some dstkey =>
                      let dstobj := db st !! dstkey in
                      match dstobj with
                      | None | Some (OList _) =>
                          st ← rpoplpushHandlePushWith
                                 (handleClientsWaitingListPush (S fuel))
                                 receiver dstkey dstobj ele st;
                          Some (true, st)
                      | Some _ =>
                          waitingLoop
                            (handleClientsWaitingListPush (S fuel)) key ele
                            (length rest)
                            (addReply receiver (RShared wrongtypeerr) st)
                      end
                  end
                else None
            | _ => None
            end).
    rewrite Hkey, Hrc. simpl. rewrite Hunblock. simpl. rewrite Htarget.
    fold (waiters (blocking_keys stu) key). rewrite Hq.
    rewrite bool_decide_eq_true_2
      by (pose proof (length_filter (λ x, x ≠ w) rest); simpl; lia).
    assert (Hpushed :
      rpoplpushHandlePushWith (handleClientsWaitingListPush (S fuel)) w
        target (db stu !! target) ele stu = Some st1).
    { unfold rpoplpushHandlePushWith.
      rewrite (handle_no_waiter fuel w target ele stu Hnone). simpl.
      rewrite Hdbu, Hst2. simpl.
      unfold pushTo, derefList. rewrite Hdb2, lookup_insert_eq. simpl.
      by rewrite Hpush. }
    rewrite Hdbu in Hpushed |- *.
    destruct Hdst as [Hn|(d & Hd)].
    - rewrite Hn in Hpushed |- *.
      exact (f_equal (λ x : option redisServer,
                        x ≫= λ st0, Some (true, st0)) Hpushed).
    - rewrite Hd in Hpushed |- *.
      exact (f_equal (λ x : option redisServer,
                        x ≫= λ st0, Some (true, st0)) Hpushed). }
  exists st1, d1. split; [exact Hdeliver|].
  split; [simpl; rewrite Hdb2; apply insert_insert_eq|].
  split; [by rewrite Hv1, Hd0; unfold ele;
            rewrite tryObjectEncoding_decoded|].
  split.
  { simpl. rewrite Hcl2, Hclu. apply addReply_unblocked. }
  split; [by simpl; rewrite Hbk2|].
  intros fuel Hdb. unfold pushGenericCommand. fold ele.
  destruct Hdb as [->|(l & ->)]; rewrite Hdeliver; simpl; eauto.
Qed.

Lemma push_serves_brpoplpush_waiter_witness :
  ∃ st',
    rpushCommand 2 9 "k" (Raw "hi") stTargetWaiter = Some st'
    ∧ keyValues st' "t" = ["hi"]
    ∧ db st' !! "k" = None
    ∧ clientReplies 1 st' = [RBulk (Raw "hi")]
    ∧ clientReplies 9 st' = [RShared cone].
Proof.
  assert (Hreg : registeredFor (blocking_keys stTargetWaiter) 1 ["k"]).
  { intros k. replace (blocking_keys stTargetWaiter)
      with (<["k" := [1]]> (∅ : gmap string (list nat)))
      by (vm_compute; reflexivity).
    unfold waiters. destruct (decide (k = "k")) as [->|Hne].
    - reflexivity.
    - rewrite lookup_insert_ne, lookup_empty by done.
      unfold occurrences. by rewrite filter_cons_False. }
  destruct (push_serves_brpoplpush_waiter 9 1 "k" "t" (Raw "hi") REDIS_TAIL
              [] (mkClient 16 (Some ["k"]) 0 (Some "t") []) ["k"]
              stTargetWaiter eq_refl eq_refl eq_refl eq_refl Hreg)
    as (st1 & d' & _ & Hdb1 & Hv & Hcl & _ & Hpush).
  - intros x Hx. vm_compute in Hx. by apply elem_of_nil in Hx.
  - by left.
  - destruct (Hpush 0 (or_introl eq_refl)) as (st' & Hcmd & Hdb & Hcl').
    exists st'. split; [exact Hcmd|].
    unfold keyValues, clientReplies. rewrite Hdb, Hdb1, Hcl'. simpl.
    rewrite Hcl.
    split; [by rewrite lookup_insert_eq|].
    split; [by rewrite lookup_insert_ne|].
    split; vm_compute; reflexivity.
Defined.

(** X18. A push on a key whose oldest waiter is a BRPOPLPUSH client whose
    target holds a value that is not a list, followed in the queue by a
    plain BLPOP / BRPOP waiter: the first waiter is unblocked and sent the
    wrong-type error, and the value goes to the second waiter, which is
    unblocked and sent the two-element reply (key, value).  The keyspace is
    unchanged; both clients leave every queue and the other waiters keep
    their order. *)
Theorem push_skips_waiter_with_bad_target
  (c w1 w2 : nat) (key target : string) (val : sobj) (rest : list nat)
  (rc1 rc2 : redisClient) (ks1 ks2 : list string) (o : robj)
  (st : redisServer) :
  blocking_keys st !! key = Some (w1 :: w2 :: rest) →
  w1 ≠ w2 →
  clients st !! w1 = Some rc1 → bpop_keys rc1 = Some ks1 →
  bpop_target rc1 = Some target →
  registeredFor (blocking_keys st) w1 ks1 →
  db st !! target = Some o → objType o ≠ REDIS_LIST →
  clients st !! w2 = Some rc2 → bpop_keys rc2 = Some ks2 →
  bpop_target rc2 = None →
  registeredFor (blocking_keys st) w2 ks2 →
  let ele := tryObjectEncoding val in
  ∃ st1,
    (∀ fuel,
       handleClientsWaitingListPush (S fuel) c key ele st = Some (true, st1))
    ∧ db st1 = db st
    ∧ clients st1
      = <[w2 := servedClient rc2 key ele]>
          (<[w1 := unblockedClient rc1 [RShared wrongtypeerr]]> (clients st))
    ∧ unblocked_clients st1 = unblocked_clients st ++ [w1; w2]
    ∧ (∀ k, waiters (blocking_keys st1) k
            = filter (λ x, x ≠ w2)
                (filter (λ x, x ≠ w1) (waiters (blocking_keys st) k))).
Proof.
  intros Hkey Hw Hrc1 Hks1 Ht1 Hreg1 Hdst Hty Hrc2 Hks2 Ht2 Hreg2 ele.
  destruct (unblockClientWaitingData_spec w1 rc1 ks1 st Hrc1 Hks1 Hreg1)
    as (bk1 & Hunblock1 & Hbk1).
  set (stu1 := mkServer (db st) bk1
                 (<[w1 := mkClient
                            (Z.lor (Z.land (flags rc1) (Z.lnot REDIS_BLOCKED))
                               REDIS_UNBLOCKED)
                            None (bpop_timeout rc1) None (replies rc1)]>
                    (clients st))
                 (dirty st) (bpop_blocked_clients st - 1)%Z
                 (unblocked_clients st ++ [w1])
                 (signalled st) (conf st) (unixtime st)) in *.
  set (ste := addReply w1 (RShared wrongtypeerr) stu1).
  assert (Hq1 : waiters bk1 key = w2 :: filter (λ x, x ≠ w1) rest).
  { rewrite Hbk1. unfold waiters. rewrite Hkey. simpl.
    rewrite filter_cons_False by (intros ?; done).
    by rewrite filter_cons_True by done. }
  assert (Hkey1 : blocking_keys ste !! key
                  = Some (w2 :: filter (λ x, x ≠ w1) rest)).
  { apply waiters_head. exact Hq1. }
  assert (Hrc2e : clients ste !! w2 = Some rc2).
  { simpl. rewrite lookup_alter_ne by done.
    by rewrite lookup_insert_ne by done. }
  assert (Hreg2e : registeredFor (blocking_keys ste) w2 ks2).
  { intros k. simpl. rewrite Hbk1.
    rewrite occurrences_filter_ne by done. apply Hreg2. }
  destruct (unblockClientWaitingData_spec w2 rc2 ks2 ste Hrc2e Hks2 Hreg2e)
    as (bk2 & Hunblock2 & Hbk2).
  set (stu2 := mkServer (db ste) bk2
                 (<[w2 := mkClient
                            (Z.lor (Z.land (flags rc2) (Z.lnot REDIS_BLOCKED))
                               REDIS_UNBLOCKED)
                            None (bpop_timeout rc2) None (replies rc2)]>
                    (clients ste))
                 (dirty ste) (bpop_blocked_clients ste - 1)%Z
                 (unblocked_clients ste ++ [w2])
                 (signalled ste) (conf ste) (unixtime ste)) in *.
  set (st1 := addReplyBulk w2 ele
                (addReplyBulk w2 (Raw key) (addReplyMultiBulkLen w2 2 stu2))).
  assert (Hq2 : waiters bk2 key
                = filter (λ x, x ≠ w2) (filter (λ x, x ≠ w1) rest)).
  { rewrite Hbk2. unfold waiters. rewrite Hkey1. simpl.
    by rewrite filter_cons_False by (intros ?; done). }
  exists st1. split.
  { intros fuel.
    change (handleClientsWaitingListPush (S fuel) c key ele st)
      with (match blocking_keys st !! key with
            | None => Some (false, st)
            | Some waiting =>
                waitingLoop (handleClientsWaitingListPush fuel) key ele
                  (length waiting) st
            end).
    rewrite Hkey. simpl length.
    rewrite (waitingLoop_step _ key ele _ st w1 (w2 :: rest) rc1 stu1
               Hkey Hrc1 Hunblock1); cycle 1.
    { change (blocking_keys stu1) with bk1. rewrite Hq1.
      pose proof (length_filter (λ x, x ≠ w1) rest). simpl. lia. }
    rewrite Ht1. change (db stu1) with (db st). rewrite Hdst.
    fold ste.
    rewrite (waitingLoop_step _ key ele _ ste w2
               (filter (λ x, x ≠ w1) rest) rc2 stu2
               Hkey1 Hrc2e Hunblock2); cycle 1.
    { change (blocking_keys stu2) with bk2. rewrite Hq2.
      pose proof (length_filter (λ x, x ≠ w2)
                    (filter (λ x, x ≠ w1) rest)). simpl. lia. }
    rewrite Ht2. by destruct o. }
  split; [done|]. split.
  { unfold st1, addReplyBulk, addReplyMultiBulkLen, addReply, setClients,
      stu2, ste, addReply, setClients, stu1. simpl.
    repeat (rewrite alter_insert_eq; simpl).
    unfold servedClient, unblockedClient. by rewrite <- !app_assoc. }
  split; [simpl; by rewrite <- app_assoc|].
  intros k. change (blocking_keys st1) with bk2. rewrite Hbk2. simpl.
  by rewrite Hbk1.
Qed.

Lemma push_skips_waiter_with_bad_target_witness :
  ∃ st1,
    handleClientsWaitingListPush 1 9 "k" (tryObjectEncoding (Raw "hi"))
      stBadTarget = Some (true, st1)
    ∧ db st1 = db stBadTarget
    ∧ clientReplies 1 st1 = [RShared wrongtypeerr]
    ∧ clientReplies 2 st1
      = [RMultiBulkLen 2; RBulk (Raw "k"); RBulk (Raw "hi")].
Proof.
  assert (Hreg : ∀ w, w = 1 ∨ w = 2 →
                      registeredFor (blocking_keys stBadTarget) w ["k"]).
  { intros w Hw k. replace (blocking_keys stBadTarget)
      with (<["k" := [1; 2]]> (∅ : gmap string (list nat)))
      by (vm_compute; reflexivity).
    unfold waiters. destruct (decide (k = "k")) as [->|Hne].
    - rewrite lookup_insert_eq. by destruct Hw as [->| ->].
    - rewrite lookup_insert_ne, lookup_empty by done.
      unfold occurrences. by rewrite filter_cons_False. }
  destruct (push_skips_waiter_with_bad_target 9 1 2 "k" "t" (Raw "hi") []
              (mkClient 16 (Some ["k"]) 0 (Some "t") [])
              (mkClient 16 (Some ["k"]) 0 None [])
              ["k"] ["k"] (OString (Raw "text")) stBadTarget
              eq_refl ltac:(lia) eq_refl eq_refl eq_refl
              (Hreg 1 (or_introl eq_refl))
              eq_refl ltac:(discriminate) eq_refl eq_refl eq_refl
              (Hreg 2 (or_intror eq_refl)))
    as (st1 & Hcmd & Hdb & Hcl & _).
  exists st1. split; [exact (Hcmd 0)|]. split; [exact Hdb|].
  unfold clientReplies. rewrite Hcl.
  split; vm_compute; reflexivity.
Defined.

(** ** The set API: add, find, remove and the iterator *)

Section set_api.

Lemma tsetFindLiteral_spec s l :
  tsetWf s → litWf l →
  tsetFindLiteral s l = bool_decide (litBytes l ∈ tsetContent s).
Proof.
  intros Hs Hl. destruct s as [ints|d]; [|done].
  destruct Hs as [Hnd Hints]. unfold tsetFindLiteral.
  destruct (litGetLongLong l) as [n|] eqn:Hn.
  - destruct (litGetLongLong_Some l n Hl Hn) as [-> Hnr].
    unfold intsetFind. apply bool_decide_ext. symmetry.
    by apply elem_of_intset_content.
  - symmetry. apply bool_decide_eq_false_2.
    simpl. rewrite elem_of_list_to_set, list_elem_of_fmap.
    intros (m & Heq & Hm). rewrite Forall_forall in Hints.
    by apply (litGetLongLong_None l m Hn (Hints m Hm)).
Qed.

Lemma litWf_object o : sobjWf o → litWf (litFromObject o).
Proof. by destruct o. Qed.

Lemma sobjWf_tryObjectEncoding o : sobjWf o → sobjWf (tryObjectEncoding o).
Proof.
  destruct o as [s|n]; [intros _|done]. simpl.
  destruct (string2ll s) as [n|] eqn:Hs; [|done].
  by apply string2ll_Some in Hs as [_ ?].
Qed.

Lemma tsetWf_setTypeCreate o :
  tsetWf (setTypeCreate o) ∧ tsetContent (setTypeCreate o) = ∅.
Proof.
  unfold setTypeCreate.
  destruct (isObjectRepresentableAsLongLong o); simpl; [|done].
  split; [|done]. split; [apply NoDup_nil_2|apply Forall_nil_2].
Qed.

Lemma tsetIterate_intset ints : ∀ fuel i,
  length ints - i < fuel →
  tsetIterate fuel (IterIntset ints i)
  = Some (litFromLongLong <$> drop i ints).
Proof.
  induction fuel as [|fuel IH]; intros i Hfuel; [lia|]. simpl.
  destruct (ints !! i) as [n|] eqn:Hi.
  - pose proof (lookup_lt_Some _ _ _ Hi).
    rewrite IH by lia. simpl. by rewrite (drop_S _ _ _ Hi).
  - apply lookup_ge_None in Hi. by rewrite drop_ge.
Qed.

Lemma tsetIterate_ht : ∀ (es : list string) fuel,
  length es < fuel →
  tsetIterate fuel (let '(de, di) := dictNext es in IterHt de di)
  = Some ((λ e, litFromObject (Raw e)) <$> es).
Proof.
  induction es as [|e es IH]; intros [|fuel] Hfuel; simpl in *;
    try lia; [done|].
  specialize (IH fuel ltac:(lia)).
  destruct (dictNext es) as [de di] eqn:Hnext. by rewrite IH.
Qed.

End set_api.

(** X19. Adding to a well-formed set never fails.  tsetAddLiteral returns 1
    exactly when no member had the bytes of the literal; afterwards every
    literal with these bytes is found, whether it is written as an integer
    or as a string, the other members are as before, and the size grew by
    one exactly when 1 was returned.  Removing the literal then succeeds
    and it is no longer found. *)
Theorem tsetAdd_then_find_remove
  (cf : config) (s : tset) (l : rlit) :
  tsetWf s → litWf l →
  ∃ s1 s2,
    tsetAddLiteral cf s l = Some (s1, negb (tsetFindLiteral s l))
    ∧ tsetWf s1
    ∧ (∀ l', litWf l' →
         tsetFindLiteral s1 l'
         = if bool_decide (litBytes l' = litBytes l) then true
           else tsetFindLiteral s l')
    ∧ tsetSize s1
      = (if tsetFindLiteral s l then tsetSize s else S (tsetSize s))
    ∧ tsetRemoveLiteral s1 l = (s2, true)
    ∧ tsetWf s2
    ∧ tsetFindLiteral s2 l = false.
Proof.
  intros Hs Hl.
  destruct (tsetAddLiteral_spec cf s l Hs Hl) as (s1 & Hadd & Hwf1 & Hc1).
  destruct (tsetRemoveLiteral_spec s1 l Hwf1 Hl) as (s2 & Hrem & Hwf2 & Hc2).
  exists s1, s2.
  rewrite (tsetFindLiteral_spec s l Hs Hl).
  split.
  { rewrite Hadd. do 2 f_equal.
    destruct (decide (litBytes l ∈ tsetContent s)).
    - by rewrite bool_decide_eq_false_2, bool_decide_eq_true_2
        by (done || by intros H; apply H).
    - by rewrite bool_decide_eq_true_2, bool_decide_eq_false_2. }
  split; [done|]. split.
  { intros l' Hl'. rewrite !tsetFindLiteral_spec by done. rewrite Hc1.
    destruct (decide (litBytes l' = litBytes l)) as [Heq|Hneq].
    - rewrite (bool_decide_eq_true_2 (litBytes l' = litBytes l) Heq).
      apply bool_decide_eq_true_2. rewrite Heq. set_solver.
    - rewrite (bool_decide_eq_false_2 (litBytes l' = litBytes l) Hneq).
      apply bool_decide_ext. set_solver. }
  split.
  { rewrite !tsetSize_content by done. rewrite Hc1.
    destruct (decide (litBytes l ∈ tsetContent s)) as [Hin|Hin].
    - rewrite (bool_decide_eq_true_2 _ Hin). f_equal. set_solver.
    - rewrite (bool_decide_eq_false_2 _ Hin).
      rewrite size_union by set_solver. by rewrite size_singleton. }
  split.
  { rewrite Hrem. f_equal. apply bool_decide_eq_true_2.
    rewrite Hc1. set_solver. }
  split; [done|].
  rewrite tsetFindLiteral_spec by done. apply bool_decide_eq_false_2.
  rewrite Hc2. set_solver.
Qed.

Lemma tsetAdd_then_find_remove_witness :
  ∃ s1,
    tsetAddLiteral (mkConfig 128 64 512) (Intset [1; 2]%Z)
      (LitObject (Raw "42"))
    = Some (s1, true)
    ∧ tsetFindLiteral s1 (LitLongLong 42) = true.
Proof.
  assert (Hwf : tsetWf (Intset [1; 2]%Z)).
  { split.
    - repeat (apply NoDup_cons; split;
                [rewrite ?elem_of_cons, elem_of_nil; lia|]).
      apply NoDup_nil_2.
    - repeat (apply Forall_cons; split;
                [unfold isLongLong, LLONG_MIN, LLONG_MAX; lia|]).
      apply Forall_nil_2. }
  assert (Hl : litWf (LitLongLong 42))
    by (simpl; unfold isLongLong, LLONG_MIN, LLONG_MAX; lia).
  destruct (tsetAdd_then_find_remove (mkConfig 128 64 512) (Intset [1; 2]%Z)
              (LitObject (Raw "42")) Hwf I)
    as (s1 & s2 & Hadd & _ & Hfind & _).
  exists s1. split; [exact Hadd|].
  rewrite (Hfind (LitLongLong 42) Hl). reflexivity.
Defined.

(** X20. The encoding after an add.  A set stays an intset exactly when it
    was one, the literal reads as an integer, and, in case the integer was
    new, the set has no more than set_max_intset_entries members
    afterwards; in every other case it is (or becomes) a hash table, with
    the same members: converting keeps every member and the size. *)
Theorem tsetAdd_encoding (cf : config) (s : tset) (l : rlit) :
  tsetWf s → litWf l →
  ∃ s1 added,
    tsetAddLiteral cf s l = Some (s1, added)
    ∧ (tsetEncoding s1 = REDIS_ENCODING_INTSET
       ↔ tsetEncoding s = REDIS_ENCODING_INTSET
         ∧ is_Some (litGetLongLong l)
         ∧ (added = true → tsetSize s1 ≤ set_max_intset_entries cf))
    ∧ (∀ ints, s = Intset ints →
         ∃ d, tsetConvert s REDIS_ENCODING_HT = Some (Hashtable d)
              ∧ tsetContent (Hashtable d) = tsetContent s
              ∧ tsetSize (Hashtable d) = tsetSize s).
Proof.
  intros Hs Hl.
  destruct (tsetAddLiteral_spec cf s l Hs Hl) as (s1 & Hadd & Hwf1 & Hc1).
  exists s1, (bool_decide (litBytes l ∉ tsetContent s)).
  split; [done|]. split.
  - destruct s as [ints|d].
    + unfold tsetAddLiteral in Hadd.
      destruct (litGetLongLong l) as [n|] eqn:Hn.
      * destruct (intsetAdd ints n) as [ints' success] eqn:Hia.
        destruct success.
        -- case_bool_decide as Hmax.
           ++ destruct Hs as [Hnd Hints].
              destruct (tsetConvert (Intset ints') REDIS_ENCODING_HT)
                as [s'|] eqn:Hconv; [|done].
              simpl in Hadd. injection Hadd as <- Hb.
              unfold tsetConvert in Hconv. simpl in Hconv.
              destruct (tsetConvertLoop _ _) as [d'|]; [|done].
              injection Hconv as <-. simpl.
              split; [done|]. intros (_ & _ & Hle).
              rewrite <- Hb in Hle. specialize (Hle eq_refl).
              simpl in Hle.
              assert (Hsz : size d' = intsetLen ints'); [|lia].
              simpl in Hc1. rewrite Hc1.
              symmetry in Hb. apply bool_decide_eq_true in Hb.
              rewrite size_union by set_solver. rewrite size_singleton.
              pose proof (tsetSize_content (Intset ints) (conj Hnd Hints))
                as Hsz.
              simpl in Hsz. rewrite <- Hsz.
              unfold intsetAdd in Hia.
              destruct (intsetFind ints n); [done|]. injection Hia as <-.
              unfold intsetLen. by rewrite intsetInsert_perm.
           ++ injection Hadd as <- Hb. simpl.
              split; [|done]. intros _. split; [done|].
              split; [by eexists|]. intros _. lia.
        -- injection Hadd as <- Hb. simpl.
           split; [|done]. intros _. split; [done|].
           split; [by eexists|]. rewrite <- Hb. done.
      * destruct (tsetConvert (Intset ints) REDIS_ENCODING_HT)
          as [[|d']|]; simpl in Hadd; try done.
        destruct (dictAdd d' (litGetObject l)); [|done].
        injection Hadd as <- _. simpl.
        split; [done|]. by intros (_ & [? ?] & _).
    + simpl in Hadd. destruct (dictAdd d (litGetObject l));
        injection Hadd as <- _; simpl; (split; [done|]); by intros [? _].
  - intros ints ->. rewrite tsetConvert_wf by done.
    eexists. split; [done|]. split; [done|].
    change (tsetSize (Hashtable (tsetContent (Intset ints))))
      with (size (tsetContent (Intset ints))).
    by rewrite tsetSize_content.
Qed.

Lemma tsetAdd_encoding_witness :
  ∃ s1 added,
    tsetAddLiteral (mkConfig 128 64 2) (Intset [1; 2]%Z) (LitLongLong 3)
    = Some (s1, added)
    ∧ tsetEncoding s1 ≠ REDIS_ENCODING_INTSET.
Proof.
  assert (Hwf : tsetWf (Intset [1; 2]%Z)).
  { split.
    - repeat (apply NoDup_cons; split;
                [rewrite ?elem_of_cons, elem_of_nil; lia|]).
      apply NoDup_nil_2.
    - repeat (apply Forall_cons; split;
                [unfold isLongLong, LLONG_MIN, LLONG_MAX; lia|]).
      apply Forall_nil_2. }
  assert (Hl : litWf (LitLongLong 3))
    by (simpl; unfold isLongLong, LLONG_MIN, LLONG_MAX; lia).
  destruct (tsetAdd_encoding (mkConfig 128 64 2) (Intset [1; 2]%Z)
              (LitLongLong 3) Hwf Hl) as (s1 & added & Hadd & Henc & _).
  exists s1, added. split; [exact Hadd|].
  intros Hi. apply Henc in Hi as (_ & _ & Hle).
  vm_compute in Hadd. injection Hadd as <- <-.
  specialize (Hle eq_refl). vm_compute in Hle. lia.
Defined.

(** X21. The set iterator visits every member once and then returns 0:
    with more calls of tsetNext allowed than the set has members, the loop
    [while (tsetNext(...))] produces exactly the literals of the set; for a
    well-formed set these are its members, without repetition. *)
Theorem tsetNext_visits_all (s : tset) (n : nat) :
  tsetIterate (S (tsetSize s + n)) (tsetInitIterator s)
  = Some (tsetLiterals s)
  ∧ (tsetWf s →
     NoDup (litBytes <$> tsetLiterals s)
     ∧ ∀ x, x ∈ litBytes <$> tsetLiterals s ↔ x ∈ tsetContent s).
Proof.
  split.
  - destruct s as [ints|d]; simpl.
    + unfold intsetLen.
      pose proof (tsetIterate_intset ints (S (length ints + n)) 0) as H.
      rewrite drop_0 in H. apply H. lia.
    + apply (tsetIterate_ht (elements d) (S (size d + n))).
      unfold size, set_size. simpl. lia.
  - intros Hwf. destruct (tsetLiterals_wf s Hwf) as (_ & Hc & Hnd).
    split; [done|]. intros x. rewrite <- Hc. by rewrite elem_of_list_to_set.
Qed.

(** ** SADD, SREM, SISMEMBER, SCARD *)

Section set_commands.

Lemma keyContent_insert key s (st : redisServer) m :
  db st = <[key := OSet s]> m → keyContent st key = tsetContent s.
Proof. intros H. unfold keyContent. by rewrite H, lookup_insert_eq. Qed.

Lemma setSource_content st key :
  setSource st key →
  ∃ s0, tsetWf s0 ∧ tsetContent s0 = keyContent st key
        ∧ (db st !! key = None ∨ db st !! key = Some (OSet s0)).
Proof.
  unfold keyContent. intros [Hn|(s & Hs & Hwf)].
  - rewrite Hn. exists createIntsetObject.
    split; [split; [apply NoDup_nil_2|apply Forall_nil_2]|].
    split; [done|by left].
  - rewrite Hs. exists s. split; [done|]. split; [done|by right].
Qed.

End set_commands.

(** X22. SADD on a key that is missing or holds a well-formed set never
    fails.  Afterwards the key holds a well-formed set whose members are
    the old members and the value; the reply is 1 and the dirty counter is
    incremented when the value was new, the reply is 0 and the counter
    unchanged when it was a member already.  No other key changes.
    SISMEMBER on the key then replies 1 for every argument with the bytes
    of the value. *)
Theorem sadd_adds_member
  (c : nat) (key : string) (val : sobj) (st : redisServer) :
  setSource st key → sobjWf val →
  let v := getDecodedObject val in
  let known := bool_decide (v ∈ keyContent st key) in
  ∃ st' s',
    saddCommand c key val st = Some st'
    ∧ db st' = <[key := OSet s']> (db st)
    ∧ tsetWf s'
    ∧ tsetContent s' = {[v]} ∪ keyContent st key
    ∧ clients st'
      = clients (addReply c (RShared (if known then czero else cone)) st)
    ∧ dirty st' = (dirty st + (if known then 0 else 1))%Z
    ∧ (∀ c' val',
         sobjWf val' → getDecodedObject val' = v →
         sismemberCommand c' key val' st'
         = addReply c' (RShared cone) st').
Proof.
  intros Hsrc Hval v known.
  pose proof (sobjWf_tryObjectEncoding val Hval) as Hele.
  pose proof (tryObjectEncoding_decoded val) as Hdec.
  set (ele := tryObjectEncoding val) in *.
  assert (Hrun : ∃ s0 st0,
    tsetWf s0 ∧ tsetContent s0 = keyContent st key
    ∧ saddCommand c key val st = saddStore c key ele st0
    ∧ db st0 = <[key := OSet s0]> (db st)
    ∧ clients st0 = clients st ∧ dirty st0 = dirty st
    ∧ conf st0 = conf st).
  { unfold saddCommand, keyContent. fold ele.
    destruct Hsrc as [Hn|(s & Hs & Hwf)].
    - rewrite Hn. unfold dbAdd. rewrite Hn. simpl.
      destruct (tsetWf_setTypeCreate ele) as [Hwf0 Hc0].
      eexists _, _. split; [exact Hwf0|]. split; [exact Hc0|].
      split; [done|]. by repeat split.
    - rewrite Hs. exists s, st. split; [done|]. split; [done|].
      split; [done|]. split; [symmetry; by apply insert_id|].
      by repeat split. }
  destruct Hrun as (s0 & st0 & Hwf0 & Hc0 & -> & Hdb0 & Hcl0 & Hd0 & Hcf0).
  destruct (tsetAddLiteral_spec (conf st0) s0 (litFromObject ele) Hwf0
              (litWf_object ele Hele)) as (s1 & Hadd & Hwf1 & Hc1).
  change (litBytes (litFromObject ele)) with (getDecodedObject ele)
    in Hadd, Hc1.
  rewrite Hdec, Hc0 in Hadd, Hc1. fold v in Hadd, Hc1.
  assert (Hnot : bool_decide (v ∉ keyContent st key) = negb known).
  { subst known. destruct (decide (v ∈ keyContent st key)).
    - by rewrite bool_decide_eq_false_2, bool_decide_eq_true_2
        by (done || by intros H; apply H).
    - by rewrite bool_decide_eq_true_2, bool_decide_eq_false_2. }
  rewrite Hnot in Hadd.
  assert (Hres : ∃ st',
    saddStore c key ele st0 = Some st'
    ∧ db st' = <[key := OSet s1]> (db st)
    ∧ clients st'
      = clients (addReply c (RShared (if known then czero else cone)) st)
    ∧ dirty st' = (dirty st + (if known then 0 else 1))%Z).
  { unfold saddStore, derefSet, tsetAddObject.
    rewrite Hdb0, lookup_insert_eq. simpl. rewrite Hadd. simpl.
    destruct known; simpl; eexists; (split; [done|]); simpl;
      rewrite Hdb0, insert_insert_eq, Hcl0, Hd0; repeat split; lia. }
  destruct Hres as (st' & Hcmd & Hdb' & Hcl' & Hd').
  exists st', s1. split; [done|]. split; [done|]. split; [done|].
  split; [done|]. split; [done|]. split; [done|].
  intros c' val' Hval' Hbytes. unfold sismemberCommand, tsetFindObject.
  rewrite Hdb', lookup_insert_eq.
  rewrite tsetFindLiteral_spec by (done || by apply litWf_object).
  change (litBytes (litFromObject val')) with (getDecodedObject val').
  rewrite Hbytes, Hc1. rewrite bool_decide_eq_true_2; [done|set_solver].
Qed.

Lemma sadd_adds_member_witness :
  ∃ st' s',
    saddCommand 1 "a" (Raw "hello") stSets = Some st'
    ∧ db st' = <["a" := OSet s']> (db stSets)
    ∧ tsetContent s' = {["hello"]} ∪ keyContent stSets "a"
    ∧ sismemberCommand 1 "a" (Raw "hello") st'
      = addReply 1 (RShared cone) st'.
Proof.
  assert (Hsrc : setSource stSets "a").
  { right. exists (Intset [1; 2; 3]%Z). split; [reflexivity|]. split.
    - repeat (apply NoDup_cons; split;
                [rewrite ?elem_of_cons, elem_of_nil; lia|]).
      apply NoDup_nil_2.
    - repeat (apply Forall_cons; split;
                [unfold isLongLong, LLONG_MIN, LLONG_MAX; lia|]).
      apply Forall_nil_2. }
  destruct (sadd_adds_member 1 "a" (Raw "hello") stSets Hsrc I)
    as (st' & s' & Hcmd & Hdb & _ & Hc & _ & _ & Hfind).
  exists st', s'. split; [exact Hcmd|]. split; [exact Hdb|].
  split; [exact Hc|]. by apply Hfind.
Defined.

(** X23. SREM on a key that is missing or holds a well-formed set: the
    value is no member afterwards and the other members are unchanged.  The
    reply is 1, with the dirty counter incremented, when the value was a
    member, and 0 otherwise.  Removing the last member deletes the key.  No
    other key changes. *)
Theorem srem_removes_member
  (c : nat) (key : string) (val : sobj) (st : redisServer) :
  setSource st key → sobjWf val →
  let v := getDecodedObject val in
  let known := bool_decide (v ∈ keyContent st key) in
  let st' := sremCommand c key val st in
  keyContent st' key = keyContent st key ∖ {[v]}
  ∧ setSource st' key
  ∧ clients st'
    = clients (addReply c (RShared (if known then cone else czero)) st)
  ∧ dirty st' = (dirty st + (if known then 1 else 0))%Z
  ∧ (known = true → keyContent st' key = ∅ → db st' !! key = None)
  ∧ (∀ k, k ≠ key → db st' !! k = db st !! k).
Proof.
  intros Hsrc Hval v known st'.
  pose proof (sobjWf_tryObjectEncoding val Hval) as Hele.
  pose proof (tryObjectEncoding_decoded val) as Hdec.
  subst st'. unfold sremCommand.
  destruct Hsrc as [Hn|(s & Hs & Hwf)].
  - assert (Hk : keyContent st key = ∅) by (unfold keyContent; by rewrite Hn).
    subst known. rewrite Hn, Hk.
    rewrite bool_decide_eq_false_2 by set_solver.
    unfold keyContent. simpl. rewrite Hn.
    split; [set_solver|]. split; [by left|]. split; [done|].
    split; [lia|]. by split.
  - assert (Hk : keyContent st key = tsetContent s)
      by (unfold keyContent; by rewrite Hs).
    rewrite Hs. unfold tsetRemoveObject.
    destruct (tsetRemoveLiteral_spec s (litFromObject (tryObjectEncoding val))
                Hwf (litWf_object _ Hele)) as (s1 & Hrem & Hwf1 & Hc1).
    change (litBytes (litFromObject (tryObjectEncoding val)))
      with (getDecodedObject (tryObjectEncoding val)) in Hrem, Hc1.
    rewrite Hdec in Hrem, Hc1. fold v in Hrem, Hc1.
    rewrite Hrem. subst known. rewrite Hk.
    destruct (decide (v ∈ tsetContent s)) as [Hin|Hnotin].
    + rewrite (bool_decide_eq_true_2 _ Hin).
      assert (Hz : tsetSize s1 = 0 ↔ tsetContent s1 = ∅).
      { rewrite tsetSize_content by done. split.
        - intros H0. by apply leibniz_equiv, size_empty_inv.
        - intros ->. apply size_empty. }
      unfold keyContent.
      destruct (decide (tsetSize s1 = 0)) as [Hzero|Hnz].
      * rewrite (bool_decide_eq_true_2 _ Hzero). simpl.
        rewrite lookup_delete_eq.
        split; [symmetry; rewrite <- Hc1; by apply Hz|].
        split; [left; simpl; by rewrite lookup_delete_eq|].
        split; [done|]. split; [done|].
        split; [done|]. intros k Hne.
        by rewrite lookup_delete_ne, lookup_insert_ne.
      * rewrite (bool_decide_eq_false_2 _ Hnz). simpl.
        rewrite lookup_insert_eq.
        split; [done|].
        split; [right; exists s1; simpl; by rewrite lookup_insert_eq|].
        split; [done|]. split; [done|].
        split; [intros _ Hempty; by apply Hz in Hempty|].
        intros k Hne. by rewrite lookup_insert_ne.
    + rewrite (bool_decide_eq_false_2 _ Hnotin).
      unfold keyContent. simpl. rewrite Hs.
      split; [set_solver|].
      split; [right; exists s; simpl; by rewrite Hs|].
      split; [done|]. split; [lia|]. by split.
Qed.

Lemma srem_removes_member_witness :
  keyContent (sremCommand 1 "s" (Raw "1") stOneSet) "s" = ∅
  ∧ db (sremCommand 1 "s" (Raw "1") stOneSet) !! "s" = None.
Proof.
  assert (Hsrc : setSource stOneSet "s").
  { right. exists (Intset [1%Z]). split; [reflexivity|]. split.
    - apply NoDup_cons. split; [apply not_elem_of_nil|apply NoDup_nil_2].
    - apply Forall_cons. split; [|apply Forall_nil_2].
      unfold isLongLong, LLONG_MIN, LLONG_MAX. lia. }
  destruct (srem_removes_member 1 "s" (Raw "1") stOneSet Hsrc I)
    as (Hc & _ & _ & _ & Hdel & _).
  assert (He : keyContent (sremCommand 1 "s" (Raw "1") stOneSet) "s" = ∅).
  { rewrite Hc. apply set_eq. intros x.
    rewrite elem_of_difference, elem_of_singleton.
    unfold keyContent. simpl. rewrite lookup_insert_eq. simpl.
    rewrite elem_of_union, elem_of_singleton. set_solver. }
  split; [exact He|]. apply Hdel; [|exact He].
  apply bool_decide_eq_true_2. unfold keyContent. simpl.
  rewrite lookup_insert_eq. simpl. set_solver.
Defined.

(** X24. SISMEMBER and SCARD on a key that is missing or holds a
    well-formed set only add a reply.  SISMEMBER replies 1 exactly when
    some member has the bytes of the argument (0 for a missing key); SCARD
    replies the number of members, and 0 for a missing key. *)
Theorem sismember_scard_reply
  (c : nat) (key : string) (val : sobj) (st : redisServer) :
  setSource st key → sobjWf val →
  sismemberCommand c key val st
  = addReply c
      (RShared (if bool_decide (getDecodedObject val ∈ keyContent st key)
                then cone else czero)) st
  ∧ scardCommand c key st
    = match db st !! key with
      | None => addReply c (RShared czero) st
      | Some _ =>
          addReplyLongLong c (Z.of_nat (size (keyContent st key))) st
      end.
Proof.
  intros Hsrc Hval. unfold sismemberCommand, scardCommand, keyContent.
  destruct Hsrc as [->|(s & -> & Hwf)].
  - by rewrite bool_decide_eq_false_2 by set_solver.
  - unfold tsetFindObject.
    rewrite tsetFindLiteral_spec by (done || by apply litWf_object).
    change (litBytes (litFromObject val)) with (getDecodedObject val).
    rewrite tsetSize_content by done.
    by destruct (bool_decide _).
Qed.

Lemma sismember_scard_reply_witness :
  sismemberCommand 1 "a" (Raw "2") stSets
  = addReply 1 (RShared cone) stSets
  ∧ scardCommand 1 "a" stSets = addReplyLongLong 1 3 stSets.
Proof.
  assert (Hsrc : setSource stSets "a").
  { right. exists (Intset [1; 2; 3]%Z). split; [reflexivity|]. split.
    - repeat (apply NoDup_cons; split;
                [rewrite ?elem_of_cons, elem_of_nil; lia|]).
      apply NoDup_nil_2.
    - repeat (apply Forall_cons; split;
                [unfold isLongLong, LLONG_MIN, LLONG_MAX; lia|]).
      apply Forall_nil_2. }
  destruct (sismember_scard_reply 1 "a" (Raw "2") stSets Hsrc I)
    as [Hmem Hcard].
  split.
  - rewrite Hmem. reflexivity.
  - rewrite Hcard. reflexivity.
Defined.

(** ** SMOVE, SPOP, SRANDMEMBER *)

(** X25. SMOVE src dst value with two different keys, when src holds a
    well-formed set with the value as a member and dst is missing or holds
    a well-formed set: the value is removed from src and is a member of dst
    afterwards, dst being created when it was missing; the other members of
    both sets are unchanged, src is deleted when it gets empty, the reply is
    1 and no other key changes.  The dirty counter grows by 2 when the
    value was new in dst and by 1 otherwise. *)
Theorem smove_moves_member
  (c : nat) (src dst : string) (val : sobj) (s : tset) (st : redisServer) :
  src ≠ dst →
  db st !! src = Some (OSet s) → tsetWf s →
  setSource st dst → sobjWf val →
  getDecodedObject val ∈ tsetContent s →
  let v := getDecodedObject val in
  ∃ st',
    smoveCommand c src dst val st = Some st'
    ∧ keyContent st' src = tsetContent s ∖ {[v]}
    ∧ keyContent st' dst = {[v]} ∪ keyContent st dst
    ∧ (keyContent st' src = ∅ → db st' !! src = None)
    ∧ setSource st' src ∧ setSource st' dst
    ∧ clients st' = clients (addReply c (RShared cone) st)
    ∧ dirty st'
      = (dirty st + 1
         + (if bool_decide (v ∈ keyContent st dst) then 0 else 1))%Z
    ∧ (∀ k, k ≠ src → k ≠ dst → db st' !! k = db st !! k).
Proof.
  intros Hne Hs Hwf Hdst Hval Hin v.
  pose proof (sobjWf_tryObjectEncoding val Hval) as Hele.
  pose proof (tryObjectEncoding_decoded val) as Hdec.
  set (ele := tryObjectEncoding val) in *.
  destruct (tsetRemoveLiteral_spec s (litFromObject ele) Hwf
              (litWf_object _ Hele)) as (s1 & Hrem & Hwf1 & Hc1).
  change (litBytes (litFromObject ele)) with (getDecodedObject ele)
    in Hrem, Hc1.
  rewrite Hdec in Hrem, Hc1. fold v in Hrem, Hc1.
  rewrite (bool_decide_eq_true_2 _ Hin) in Hrem.
  assert (Hz : tsetSize s1 = 0 ↔ tsetContent s1 = ∅).
  { rewrite tsetSize_content by done. split.
    - intros H0. by apply leibniz_equiv, size_empty_inv.
    - intros ->. apply size_empty. }
  set (st2 := if bool_decide (tsetSize s1 = 0)
              then dbDelete src (storeSet src s1 st)
              else storeSet src s1 st).
  assert (Hst2 : keyContent st2 src = tsetContent s1
                 ∧ (keyContent st2 src = ∅ → db st2 !! src = None)
                 ∧ setSource st2 src
                 ∧ (∀ k, k ≠ src → db st2 !! k = db st !! k)
                 ∧ clients st2 = clients st ∧ dirty st2 = dirty st
                 ∧ conf st2 = conf st).
  { subst st2. unfold keyContent, setSource.
    destruct (decide (tsetSize s1 = 0)) as [Hzero|Hnz].
    - rewrite (bool_decide_eq_true_2 _ Hzero). simpl.
      rewrite lookup_delete_eq.
      split; [symmetry; by apply Hz|]. split; [done|]. split; [by left|].
      split; [|done]. intros k Hk.
      by rewrite lookup_delete_ne, lookup_insert_ne.
    - rewrite (bool_decide_eq_false_2 _ Hnz). simpl.
      rewrite lookup_insert_eq.
      split; [done|]. split; [intros He; by apply Hz in He|].
      split; [right; by exists s1|].
      split; [|done]. intros k Hk. by rewrite lookup_insert_ne. }
  destruct Hst2 as (Hsrc2 & Hdel2 & Hss2 & Hoth2 & Hcl2 & Hd2 & Hcf2).
  assert (Hrun : ∃ d0 st4,
    tsetWf d0 ∧ tsetContent d0 = keyContent st dst
    ∧ smoveCommand c src dst val st
      = ('(d', added) ← tsetAddObject (conf st4) d0 ele;
         let st5 := storeSet dst d' st4 in
         let st6 := if (added : bool) then incrDirty st5 else st5 in
         Some (addReply c (RShared cone) st6))
    ∧ db st4 = <[dst := OSet d0]> (db st2)
    ∧ clients st4 = clients st ∧ dirty st4 = (dirty st + 1)%Z
    ∧ conf st4 = conf st).
  { unfold smoveCommand, tsetRemoveObject, keyContent. fold ele.
    rewrite Hs, Hrem. rewrite (bool_decide_eq_false_2 _ Hne).
    fold st2. cbv zeta.
    destruct Hdst as [Hn|(d & Hd & Hdwf)].
    - rewrite Hn. unfold dbAdd. simpl. rewrite Hoth2, Hn by done. simpl.
      unfold derefSet. simpl. rewrite lookup_insert_eq. simpl.
      destruct (tsetWf_setTypeCreate ele) as [Hwf0 Hc0].
      exists (setTypeCreate ele),
        (setDb (<[dst := OSet (setTypeCreate ele)]>)
           (incrDirty (signalModifiedKey dst (signalModifiedKey src st2)))).
      split; [exact Hwf0|]. split; [exact Hc0|].
      split; [done|]. simpl. rewrite Hcl2, Hd2, Hcf2. by repeat split.
    - rewrite Hd. unfold derefSet. simpl. rewrite Hoth2, Hd by done. simpl.
      exists d,
        (incrDirty (signalModifiedKey dst (signalModifiedKey src st2))).
      split; [done|]. split; [done|].
      split; [done|]. simpl. rewrite Hcl2, Hd2, Hcf2.
      split; [symmetry; apply insert_id; by rewrite Hoth2|].
      by repeat split. }
  destruct Hrun as (d0 & st4 & Hwf0 & Hc0 & -> & Hdb4 & Hcl4 & Hd4 & Hcf4).
  destruct (tsetAddLiteral_spec (conf st4) d0 (litFromObject ele) Hwf0
              (litWf_object ele Hele)) as (d1 & Hadd & Hdwf1 & Hdc1).
  change (litBytes (litFromObject ele)) with (getDecodedObject ele)
    in Hadd, Hdc1.
  rewrite Hdec, Hc0 in Hadd, Hdc1. fold v in Hadd, Hdc1.
  assert (Hdb : ∀ st5, db st5 = <[dst := OSet d1]> (db st4) →
    keyContent st5 src = tsetContent s ∖ {[v]}
    ∧ keyContent st5 dst = {[v]} ∪ keyContent st dst
    ∧ (keyContent st5 src = ∅ → db st5 !! src = None)
    ∧ setSource st5 src ∧ setSource st5 dst
    ∧ (∀ k, k ≠ src → k ≠ dst → db st5 !! k = db st !! k)).
  { intros st5 H5. unfold keyContent, setSource in *.
    rewrite H5, lookup_insert_eq, lookup_insert_ne by done.
    rewrite Hdb4, lookup_insert_ne by done.
    split; [by rewrite Hsrc2|]. split; [done|]. split; [done|].
    split; [done|]. split; [right; by exists d1|].
    intros k Hk1 Hk2. rewrite lookup_insert_ne by done.
    rewrite lookup_insert_ne by done. by apply Hoth2. }
  destruct (Hdb (storeSet dst d1 st4) eq_refl)
    as (H1 & H2 & H3 & H4 & H5 & H6).
  unfold tsetAddObject. rewrite Hadd.
  destruct (decide (v ∈ keyContent st dst)) as [Hk|Hk].
  - rewrite (bool_decide_eq_true_2 _ Hk).
    rewrite bool_decide_eq_false_2 by (intros H; by apply H).
    eexists. split; [done|].
    split; [exact H1|]. split; [exact H2|]. split; [exact H3|].
    split; [exact H4|]. split; [exact H5|]. simpl.
    rewrite Hcl4, Hd4. split; [done|]. split; [lia|exact H6].
  - rewrite (bool_decide_eq_false_2 _ Hk).
    rewrite (bool_decide_eq_true_2 _ Hk).
    eexists. split; [done|].
    split; [exact H1|]. split; [exact H2|]. split; [exact H3|].
    split; [exact H4|]. split; [exact H5|]. simpl.
    rewrite Hcl4, Hd4. split; [done|]. split; [lia|exact H6].
Qed.

Lemma smove_moves_member_witness :
  ∃ st',
    smoveCommand 1 "a" "h" (Raw "3") stSets = Some st'
    ∧ keyContent st' "a" = tsetContent (Intset [1; 2; 3]%Z) ∖ {["3"]}
    ∧ keyContent st' "h" = {["3"]} ∪ keyContent stSets "h".
Proof.
  assert (Hwf : tsetWf (Intset [1; 2; 3]%Z)).
  { split.
    - repeat (apply NoDup_cons; split;
                [rewrite ?elem_of_cons, elem_of_nil; lia|]).
      apply NoDup_nil_2.
    - repeat (apply Forall_cons; split;
                [unfold isLongLong, LLONG_MIN, LLONG_MAX; lia|]).
      apply Forall_nil_2. }
  assert (Hdst : setSource stSets "h").
  { right. exists (Hashtable {["2"; "x"]}). split; [reflexivity|exact I]. }
  assert (Hin : getDecodedObject (Raw "3")
                ∈ tsetContent (Intset [1; 2; 3]%Z)).
  { simpl. set_solver. }
  destruct (smove_moves_member 1 "a" "h" (Raw "3") (Intset [1; 2; 3]%Z)
              stSets ltac:(discriminate) eq_refl Hwf Hdst I Hin)
    as (st' & Hcmd & Hsrc & Hd & _).
  exists st'. split; [exact Hcmd|]. split; [exact Hsrc|exact Hd].
Defined.

Section random_member.

Lemma tsetRandomElement_member s r :
  tsetSize s ≠ 0 →
  ∃ lit, tsetRandomElement s r = Some lit ∧ lit ∈ tsetLiterals s.
Proof.
  destruct s as [ints|d]; simpl; intros Hsize;
    rewrite bool_decide_eq_false_2 by done.
  - unfold intsetLen in *.
    destruct (lookup_lt_is_Some_2 ints (r mod length ints)) as [n Hn].
    { apply Nat.mod_upper_bound. done. }
    rewrite Hn. simpl. eexists. split; [done|].
    apply list_elem_of_fmap. exists n. split; [done|].
    by eapply list_elem_of_lookup_2.
  - destruct (lookup_lt_is_Some_2 (elements d) (r mod size d))
      as [e He].
    { apply Nat.mod_upper_bound. done. }
    rewrite He. simpl. eexists. split; [done|].
    apply list_elem_of_fmap. exists e. split; [done|].
    by eapply list_elem_of_lookup_2.
Qed.

Lemma tsetLiterals_member s lit :
  tsetWf s → lit ∈ tsetLiterals s →
  litWf lit ∧ litBytes lit ∈ tsetContent s.
Proof.
  intros Hwf Hin. destruct (tsetLiterals_wf s Hwf) as (Hall & Hset & _).
  split; [by eapply Forall_forall in Hall|].
  rewrite <- Hset. apply elem_of_list_to_set, list_elem_of_fmap.
  by exists lit.
Qed.

End random_member.

(** X26. SPOP on a key holding a well-formed set with at least one member,
    sent under a four-letter command name: the bulk reply is a member of
    the set, exactly that member is removed, the key is deleted when the
    set gets empty, the dirty counter is incremented, no other key changes,
    and the arguments left for replication are SREM, the key and the popped
    member.  SRANDMEMBER with the same draw replies the same member and
    only adds the reply. *)
Theorem spop_removes_replied_member
  (c : nat) (argv0 key : string) (r : nat) (s : tset) (st : redisServer) :
  db st !! key = Some (OSet s) → tsetWf s → tsetSize s ≠ 0 →
  String.length argv0 = 4 →
  ∃ st' lit,
    spopCommand c argv0 key r st
    = Some (st', Some [Raw "SREM"; Raw key; litGetObject lit])
    ∧ litBytes lit ∈ tsetContent s
    ∧ keyContent st' key = tsetContent s ∖ {[litBytes lit]}
    ∧ (keyContent st' key = ∅ → db st' !! key = None)
    ∧ setSource st' key
    ∧ clients st' = clients (addReplyBulk c (litGetObject lit) st)
    ∧ dirty st' = (dirty st + 1)%Z
    ∧ (∀ k, k ≠ key → db st' !! k = db st !! k)
    ∧ srandmemberCommand c key r st
      = Some (addReply c (RBulkLiteral lit) st).
Proof.
  intros Hs Hwf Hsize Hlen.
  destruct (tsetRandomElement_member s r Hsize) as (lit & Hrand & Hin).
  destruct (tsetLiterals_member s lit Hwf Hin) as [Hlit Hmem].
  destruct (tsetRemoveLiteral_spec s lit Hwf Hlit)
    as (s1 & Hrem & Hwf1 & Hc1).
  rewrite (bool_decide_eq_true_2 _ Hmem) in Hrem.
  assert (Hz : tsetSize s1 = 0 ↔ tsetContent s1 = ∅).
  { rewrite tsetSize_content by done. split.
    - intros H0. by apply leibniz_equiv, size_empty_inv.
    - intros ->. apply size_empty. }
  unfold spopCommand, srandmemberCommand. rewrite Hs, Hrand. simpl.
  rewrite Hrem, (bool_decide_eq_true_2 _ Hlen).
  eexists _, lit. split; [done|]. split; [done|].
  unfold keyContent, setSource.
  destruct (decide (tsetSize s1 = 0)) as [Hzero|Hnz].
  - rewrite (bool_decide_eq_true_2 _ Hzero). simpl.
    rewrite lookup_delete_eq.
    split; [symmetry; rewrite <- Hc1; by apply Hz|]. split; [done|].
    split; [by left|]. split; [done|]. split; [done|]. split; [|done].
    intros k Hk. by rewrite lookup_delete_ne, lookup_insert_ne.
  - rewrite (bool_decide_eq_false_2 _ Hnz). simpl.
    rewrite lookup_insert_eq.
    split; [done|]. split; [intros He; by apply Hz in He|].
    split; [right; by exists s1|]. split; [done|]. split; [done|].
    split; [|done]. intros k Hk. by rewrite lookup_insert_ne.
Qed.

Lemma spop_removes_replied_member_witness :
  ∃ st' lit,
    spopCommand 1 "SPOP" "a" 7 stSets
    = Some (st', Some [Raw "SREM"; Raw "a"; litGetObject lit])
    ∧ litBytes lit ∈ tsetContent (Intset [1; 2; 3]%Z)
    ∧ keyContent st' "a" = tsetContent (Intset [1; 2; 3]%Z) ∖ {[litBytes lit]}.
Proof.
  assert (Hwf : tsetWf (Intset [1; 2; 3]%Z)).
  { split.
    - repeat (apply NoDup_cons; split;
                [rewrite ?elem_of_cons, elem_of_nil; lia|]).
      apply NoDup_nil_2.
    - repeat (apply Forall_cons; split;
                [unfold isLongLong, LLONG_MIN, LLONG_MAX; lia|]).
      apply Forall_nil_2. }
  destruct (spop_removes_replied_member 1 "SPOP" "a" 7
              (Intset [1; 2; 3]%Z) stSets eq_refl Hwf
              ltac:(simpl; unfold intsetLen; simpl; lia) eq_refl)
    as (st' & lit & Hcmd & Hin & Hc & _).
  exists st', lit. split; [exact Hcmd|]. split; [exact Hin|exact Hc].
Defined.

(** ** SINTER, SUNION and the stored results *)

Section inter.

Lemma sinterPred_spec others lit :
  Forall tsetWf others → litWf lit →
  forallb (λ s, tsetFindLiteral s lit) others = true
  ↔ ∀ s, s ∈ others → litBytes lit ∈ tsetContent s.
Proof.
  intros Hall Hlit. induction Hall as [|s others Hs _ IH]; simpl.
  - split; [|done]. intros _ s Hin. by apply elem_of_nil in Hin.
  - rewrite andb_true_iff, IH, tsetFindLiteral_spec by done.
    rewrite bool_decide_eq_true. split.
    + intros [H1 H2] s' [->|Hin]%elem_of_cons; [done|by apply H2].
    + intros H. split; [apply H; by left|].
      intros s' Hin. apply H. by right.
Qed.

Lemma sinterReplyLoop_spec others lits :
  Forall tsetWf others → Forall litWf lits →
  ∀ x, x ∈ litBytes <$> sinterReplyLoop others lits
       ↔ x ∈ litBytes <$> lits ∧ ∀ s, s ∈ others → x ∈ tsetContent s.
Proof.
  intros Hothers Hlits x. unfold sinterReplyLoop.
  rewrite !list_elem_of_fmap. split.
  - intros (lit & -> & [Hp Hin]%list_elem_of_filter).
    split; [by exists lit|].
    apply sinterPred_spec; [done| |done].
    by eapply Forall_forall in Hlits.
  - intros [(lit & -> & Hin) Hall]. exists lit. split; [done|].
    apply list_elem_of_filter. split; [|done].
    apply sinterPred_spec; [done| |done].
    by eapply Forall_forall in Hlits.
Qed.

Lemma sinterReplyLoop_NoDup others lits :
  NoDup (litBytes <$> lits) →
  NoDup (litBytes <$> sinterReplyLoop others lits).
Proof.
  intros Hnd. eapply sublist_NoDup; [exact Hnd|].
  apply fmap_sublist, sublist_filter.
Qed.

Lemma sinterStoreLoop_spec cf others lits : ∀ dstset,
  Forall litWf lits → Forall tsetWf others → tsetWf dstset →
  ∃ r, sinterStoreLoop cf others lits dstset = Some r ∧ tsetWf r
       ∧ tsetContent r
         = tsetContent dstset
           ∪ list_to_set (litBytes <$> sinterReplyLoop others lits).
Proof.
  unfold sinterReplyLoop.
  induction lits as [|ele lits IH]; intros dstset Hlits Hothers Hwf;
    cbn [sinterStoreLoop].
  - exists dstset. split; [done|]. split; [done|]. set_solver.
  - apply Forall_cons in Hlits as [Hele Hlits].
    destruct (forallb _ others) eqn:Hp.
    + rewrite filter_cons_True by done.
      destruct (tsetAddLiteral_spec cf dstset ele Hwf Hele)
        as (d1 & -> & Hwf1 & Hc1). simpl.
      destruct (IH d1 Hlits Hothers Hwf1) as (r & -> & Hr & Hc).
      exists r. split; [done|]. split; [done|].
      rewrite Hc, Hc1. set_solver.
    + rewrite filter_cons_False by (by rewrite Hp).
      by apply IH.
Qed.

Lemma sinterLookup_sets st keys :
  Forall (setKey st) keys →
  ∃ sets, sinterLookup (db st) keys = SinterSets sets
          ∧ Forall tsetWf sets
          ∧ tsetContent <$> sets = keyContent st <$> keys.
Proof.
  induction 1 as [|k keys (s & Hs & Hwf) _ (sets & IH1 & IH2 & IH3)].
  - by exists [].
  - exists (s :: sets).
    split; [simpl; by rewrite Hs, IH1|]. split; [by apply Forall_cons|].
    rewrite !fmap_cons, IH3. f_equal. unfold keyContent. by rewrite Hs.
Qed.

Lemma sinterLookup_missing st keys :
  Forall (setSource st) keys →
  (∃ k, k ∈ keys ∧ db st !! k = None) →
  sinterLookup (db st) keys = SinterMissing.
Proof.
  induction 1 as [|k keys Hk _ IH]; intros (k' & Hin & Hnone).
  - by apply elem_of_nil in Hin.
  - simpl. destruct Hk as [->|(s & Hs & _)]; [done|]. rewrite Hs.
    rewrite IH; [done|]. exists k'. split; [|done].
    apply elem_of_cons in Hin as [->|Hin]; [congruence|done].
Qed.

Lemma setSource_cases st keys :
  Forall (setSource st) keys →
  (∃ k, k ∈ keys ∧ db st !! k = None) ∨ Forall (setKey st) keys.
Proof.
  induction 1 as [|k keys Hk _ IH]; [by right|].
  destruct Hk as [Hn|Hs].
  - left. exists k. split; [by left|done].
  - destruct IH as [(k' & Hin & Hn)|IH].
    + left. exists k'. split; [by right|done].
    + right. by apply Forall_cons.
Qed.

Lemma sinter_members st keys :
  keys ≠ [] → Forall (setKey st) keys →
  ∃ sets smallest others,
    sinterLookup (db st) keys = SinterSets sets
    ∧ sortSetsByCardinality sets = smallest :: others
    ∧ Forall litWf (tsetLiterals smallest)
    ∧ Forall tsetWf others
    ∧ NoDup (litBytes <$> sinterReplyLoop others (tsetLiterals smallest))
    ∧ ∀ x, x ∈ litBytes <$> sinterReplyLoop others (tsetLiterals smallest)
           ↔ ∀ k, k ∈ keys → x ∈ keyContent st k.
Proof.
  intros Hne Hkeys.
  destruct (sinterLookup_sets st keys Hkeys) as (sets & Hl & Hwf & Hc).
  pose proof (merge_sort_Permutation cardinalityLe sets) as Hperm.
  fold (sortSetsByCardinality sets) in Hperm.
  destruct (sortSetsByCardinality sets) as [|smallest others] eqn:Hsort.
  { apply Permutation_nil_l in Hperm. subst sets.
    by destruct keys. }
  assert (Hwf' : Forall tsetWf (smallest :: others)) by by rewrite Hperm.
  apply Forall_cons in Hwf' as [Hsm Hoth].
  destruct (tsetLiterals_wf smallest Hsm) as (Hlits & Hset & Hnd).
  exists sets, smallest, others. split; [done|]. split; [done|].
  split; [done|]. split; [done|].
  split; [by apply sinterReplyLoop_NoDup|].
  intros x. rewrite sinterReplyLoop_spec by done.
  rewrite <- (elem_of_list_to_set (C := gset string)), Hset.
  transitivity (∀ s, s ∈ smallest :: others → x ∈ tsetContent s).
  { split.
    - intros [H1 H2] s [->|Hin]%elem_of_cons; [done|by apply H2].
    - intros H. split; [apply H; by left|].
      intros s Hin. apply H. by right. }
  transitivity (∀ X, X ∈ tsetContent <$> sets → x ∈ X).
  { split.
    - intros H X (s & -> & Hin)%list_elem_of_fmap. apply H.
      by rewrite Hperm.
    - intros H s Hin. apply H, list_elem_of_fmap. exists s.
      split; [done|]. by rewrite <- Hperm. }
  rewrite Hc. split.
  - intros H k Hin. apply H, list_elem_of_fmap. by exists k.
  - intros H X (k & -> & Hin)%list_elem_of_fmap. by apply H.
Qed.

Lemma storeResult_content c dst result st :
  tsetWf result →
  ∃ st',
    storeResult c dst result st = Some st'
    ∧ keyContent st' dst = tsetContent result
    ∧ (keyContent st' dst = ∅ → db st' !! dst = None)
    ∧ setSource st' dst
    ∧ clients st'
      = clients (addReply c
                   (if bool_decide (tsetContent result = ∅)
                    then RShared czero
                    else RLongLong
                           (Z.of_nat (size (tsetContent result)))) st)
    ∧ (∀ k, k ≠ dst → db st' !! k = db st !! k).
Proof.
  intros Hwf.
  assert (Hz : tsetSize result = 0 ↔ tsetContent result = ∅).
  { rewrite tsetSize_content by done. split.
    - intros H0. by apply leibniz_equiv, size_empty_inv.
    - intros ->. apply size_empty. }
  unfold storeResult, dbAdd, dbDelete, keyContent, setSource. simpl.
  rewrite lookup_delete_eq. simpl.
  destruct (decide (0 < tsetSize result)) as [Hpos|Hzero].
  - rewrite (bool_decide_eq_true_2 _ Hpos). simpl.
    eexists. split; [done|]. simpl. rewrite lookup_insert_eq.
    rewrite bool_decide_eq_false_2 by (intros He; apply Hz in He; lia).
    rewrite <- tsetSize_content by done.
    split; [done|]. split; [intros He; apply Hz in He; lia|].
    split; [right; by exists result|]. split; [done|].
    intros k Hk. by rewrite lookup_insert_ne, lookup_delete_ne.
  - rewrite (bool_decide_eq_false_2 _ Hzero). simpl.
    eexists. split; [done|]. simpl. rewrite lookup_delete_eq.
    assert (He : tsetContent result = ∅) by (apply Hz; lia).
    rewrite He, bool_decide_eq_true_2 by done.
    split; [done|]. split; [done|]. split; [by left|]. split; [done|].
    intros k Hk. by rewrite lookup_delete_ne.
Qed.

End inter.

(** X27. SINTER over one or more keys, each missing or holding a
    well-formed set: when some key is missing the reply is the empty
    multi-bulk; otherwise it is a multi-bulk whose header counts its bulks
    and whose bulks are, without repetition, exactly the values that are
    members of every one of the sets, whatever order the sets are sorted
    in.  Nothing but the reply changes. *)
Theorem sinter_reply (c : nat) (keys : list string) (st : redisServer) :
  keys ≠ [] → Forall (setSource st) keys →
  ((∃ k, k ∈ keys ∧ db st !! k = None) →
   sinterCommand c keys st = Some (addReply c (RShared emptymultibulk) st))
  ∧ ((∀ k, k ∈ keys → db st !! k ≠ None) →
     ∃ members : list rlit,
       sinterCommand c keys st
       = Some (addReplies c
                 (RMultiBulkLen (Z.of_nat (length members))
                  :: (RBulkLiteral <$> members)) st)
       ∧ NoDup (litBytes <$> members)
       ∧ ∀ x, x ∈ litBytes <$> members
              ↔ ∀ k, k ∈ keys → x ∈ keyContent st k).
Proof.
  intros Hne Hsrc. unfold sinterCommand, sinterGenericCommand. split.
  - intros Hmiss. by rewrite (sinterLookup_missing st keys Hsrc Hmiss).
  - intros Hall.
    destruct (setSource_cases st keys Hsrc) as [(k & Hin & Hn)|Hkeys];
      [by destruct (Hall k Hin)|].
    destruct (sinter_members st keys Hne Hkeys)
      as (sets & smallest & others & -> & -> & _ & _ & Hnd & Hmem).
    by eexists.
Qed.

Lemma sinter_reply_witness :
  ∃ members : list rlit,
    sinterCommand 1 ["a"; "h"] stSets
    = Some (addReplies 1
              (RMultiBulkLen (Z.of_nat (length members))
               :: (RBulkLiteral <$> members)) stSets)
    ∧ ∀ x, x ∈ litBytes <$> members
           ↔ ∀ k, k ∈ ["a"; "h"] → x ∈ keyContent stSets k.
Proof.
  assert (Hsrc : Forall (setSource stSets) ["a"; "h"]).
  { apply Forall_cons. split.
    - right. exists (Intset [1; 2; 3]%Z). split; [reflexivity|].
      split.
      + repeat (apply NoDup_cons; split;
                  [rewrite ?elem_of_cons, elem_of_nil; lia|]).
        apply NoDup_nil_2.
      + repeat (apply Forall_cons; split;
                  [unfold isLongLong, LLONG_MIN, LLONG_MAX; lia|]).
        apply Forall_nil_2.
    - apply Forall_cons. split; [|apply Forall_nil_2].
      right. exists (Hashtable {["2"; "x"]}). by split. }
  destruct (sinter_reply 1 ["a"; "h"] stSets ltac:(discriminate) Hsrc)
    as [_ Hall].
  destruct Hall as (members & Hcmd & _ & Hmem).
  { intros k [->|[->|Hin%elem_of_nil]%elem_of_cons]%elem_of_cons;
      [discriminate|discriminate|done]. }
  exists members. split; [exact Hcmd|exact Hmem].
Defined.

(** X28. SUNION over keys that each are missing or hold a well-formed set
    replies a multi-bulk whose header counts its bulks and whose bulks
    are, without repetition, exactly the values that are members of at
    least one of the sets; a missing key contributes nothing.  Nothing but
    the reply changes. *)
Theorem sunion_reply (c : nat) (keys : list string) (st : redisServer) :
  Forall (setSource st) keys →
  ∃ members : list rlit,
    sunionCommand c keys st
    = Some (addReplies c
              (RMultiBulkLen (Z.of_nat (length members))
               :: (RBulkLiteral <$> members)) st)
    ∧ NoDup (litBytes <$> members)
    ∧ ∀ x, x ∈ litBytes <$> members
           ↔ ∃ k, k ∈ keys ∧ x ∈ keyContent st k.
Proof.
  intros Hsrc.
  destruct (sunionDiffLookup_sources st keys Hsrc)
    as (Hlookup & Hwf & Hcontent).
  destruct (sunionDiffSources_spec (conf st) REDIS_OP_UNION _
              ltac:(done) Hwf) as (dstset & Hrun & Hdwf & Hdc).
  cbv iota in Hdc. rewrite Hcontent in Hdc.
  destruct (tsetLiterals_wf dstset Hdwf) as (_ & Hlits & Hnd).
  exists (tsetLiterals dstset). split; [|split; [done|]].
  - unfold sunionCommand, sunionDiffGenericCommand.
    rewrite Hlookup, Hrun. simpl. do 3 f_equal.
    rewrite <- (length_fmap litBytes).
    rewrite <- (size_list_to_set (C := gset string)) by done.
    by rewrite Hlits.
  - intros x. rewrite <- (elem_of_list_to_set (C := gset string)).
    rewrite Hlits, Hdc, elem_of_union_list. split.
    + intros (X & (k & -> & Hk)%list_elem_of_fmap & HxX). by exists k.
    + intros (k & Hk & Hx). exists (keyContent st k). split; [|done].
      apply list_elem_of_fmap. by exists k.
Qed.

Lemma sunion_reply_witness :
  ∃ members : list rlit,
    sunionCommand 1 ["a"; "missing"; "h"] stSets
    = Some (addReplies 1
              (RMultiBulkLen (Z.of_nat (length members))
               :: (RBulkLiteral <$> members)) stSets)
    ∧ ∀ x, x ∈ litBytes <$> members
           ↔ ∃ k, k ∈ ["a"; "missing"; "h"] ∧ x ∈ keyContent stSets k.
Proof.
  assert (Hsrc : Forall (setSource stSets) ["a"; "missing"; "h"]).
  { apply Forall_cons. split.
    - right. exists (Intset [1; 2; 3]%Z). split; [reflexivity|].
      split.
      + repeat (apply NoDup_cons; split;
                  [rewrite ?elem_of_cons, elem_of_nil; lia|]).
        apply NoDup_nil_2.
      + repeat (apply Forall_cons; split;
                  [unfold isLongLong, LLONG_MIN, LLONG_MAX; lia|]).
        apply Forall_nil_2.
    - apply Forall_cons. split; [by left|].
      apply Forall_cons. split; [|apply Forall_nil_2].
      right. exists (Hashtable {["2"; "x"]}). by split. }
  destruct (sunion_reply 1 ["a"; "missing"; "h"] stSets Hsrc)
    as (members & Hcmd & _ & Hmem).
  exists members. split; [exact Hcmd|exact Hmem].
Defined.

(** X29. SINTERSTORE, SUNIONSTORE and SDIFFSTORE over source keys that each
    are missing or hold a well-formed set never fail.  Afterwards the
    destination holds exactly the intersection, the union, or the members
    of the first source found in no other source; it is a well-formed set,
    and the key is absent when that result is empty.  The reply is the
    number of members of the result.  The sources are read before the
    destination is replaced, so the destination may be one of them.  No
    other key changes. *)
Theorem store_commands_store_result
  (cmd : storeCommand) (c : nat) (dst k0 : string) (ks : list string)
  (st : redisServer) :
  Forall (setSource st) (k0 :: ks) →
  ∃ st',
    runStoreCommand cmd c dst (k0 :: ks) st = Some st'
    ∧ (∀ x, x ∈ keyContent st' dst ↔ storeMember cmd st k0 ks x)
    ∧ (keyContent st' dst = ∅ → db st' !! dst = None)
    ∧ setSource st' dst
    ∧ clients st'
      = clients (addReply c
                   (if bool_decide (keyContent st' dst = ∅)
                    then RShared czero
                    else RLongLong
                           (Z.of_nat (size (keyContent st' dst)))) st)
    ∧ (∀ k, k ≠ dst → db st' !! k = db st !! k).
Proof.
  intros Hsrc.
  assert (Hunion : ∀ op, op ≠ REDIS_OP_INTER →
    ∃ dstset,
      sunionDiffGenericCommand c (k0 :: ks) (Some dst) op st
      = storeResult c dst dstset st
      ∧ tsetWf dstset
      ∧ tsetContent dstset
        = match op with
          | REDIS_OP_DIFF =>
              keyContent st k0 ∖ ⋃ (keyContent st <$> ks)
          | _ => ⋃ (keyContent st <$> k0 :: ks)
          end).
  { intros op Hop.
    destruct (sunionDiffLookup_sources st (k0 :: ks) Hsrc)
      as (Hlookup & Hwf & Hcontent).
    destruct (sunionDiffSources_spec (conf st) op _ Hop Hwf)
      as (dstset & Hrun & Hdwf & Hdc).
    exists dstset. unfold sunionDiffGenericCommand.
    rewrite Hlookup, Hrun. split; [done|]. split; [done|].
    destruct op; [| |done].
    - cbv iota in Hdc. by rewrite Hcontent in Hdc.
    - rewrite fmap_cons in Hdc. cbv iota in Hdc.
      by rewrite sourceContent_derefs, sourceContent_deref in Hdc. }
  assert (Hfinish : ∀ result (P : string → Prop),
    tsetWf result → (∀ x, x ∈ tsetContent result ↔ P x) →
    ∃ st',
      storeResult c dst result st = Some st'
      ∧ (∀ x, x ∈ keyContent st' dst ↔ P x)
      ∧ (keyContent st' dst = ∅ → db st' !! dst = None)
      ∧ setSource st' dst
      ∧ clients st'
        = clients (addReply c
                     (if bool_decide (keyContent st' dst = ∅)
                      then RShared czero
                      else RLongLong
                             (Z.of_nat (size (keyContent st' dst)))) st)
      ∧ (∀ k, k ≠ dst → db st' !! k = db st !! k)).
  { intros result P Hwf HP.
    destruct (storeResult_content c dst result st Hwf)
      as (st' & Hcmd & Hc & Hdel & Hs & Hcl & Hoth).
    exists st'. rewrite Hc. split; [done|]. split; [done|].
    split; [by rewrite <- Hc|]. by repeat split. }
  destruct cmd; simpl.
  - (* SINTERSTORE *)
    unfold sinterstoreCommand, sinterGenericCommand.
    destruct (setSource_cases st (k0 :: ks) Hsrc)
      as [Hmiss|Hkeys].
    + rewrite (sinterLookup_missing st _ Hsrc Hmiss).
      assert (Hempty : ∀ x, ¬ ∀ k, k ∈ k0 :: ks → x ∈ keyContent st k).
      { intros x Hx. destruct Hmiss as (k & Hin & Hn).
        specialize (Hx k Hin). unfold keyContent in Hx.
        rewrite Hn in Hx. by apply not_elem_of_empty in Hx. }
      eexists. split; [done|]. unfold keyContent, setSource.
      destruct (db st !! dst) as [o|] eqn:Hd; simpl;
        rewrite ?lookup_delete_eq, ?Hd;
        rewrite bool_decide_eq_true_2 by done;
        (split; [intros x; split;
                   [by intros ?%not_elem_of_empty|by intros ?%Hempty]|]);
        (split; [done|]); (split; [by left|]); (split; [done|]).
      * intros k Hk. by rewrite lookup_delete_ne.
      * done.
    + destruct (sinter_members st (k0 :: ks) ltac:(done) Hkeys)
        as (sets & smallest & others & -> & -> & Hlits & Hoth & _ & Hmem).
      destruct (sinterStoreLoop_spec (conf st) others
                  (tsetLiterals smallest) createIntsetObject Hlits Hoth)
        as (r & -> & Hr & Hc).
      { split; [apply NoDup_nil_2|apply Forall_nil_2]. }
      simpl. apply Hfinish; [done|]. intros x. rewrite Hc, <- Hmem.
      rewrite elem_of_union, elem_of_list_to_set. simpl.
      split; [by intros [?%not_elem_of_empty|?]|by right].
  - (* SUNIONSTORE *)
    destruct (Hunion REDIS_OP_UNION ltac:(done))
      as (dstset & Hcmd & Hwf & Hc).
    unfold sunionstoreCommand. rewrite Hcmd.
    apply Hfinish; [done|]. intros x. rewrite Hc, elem_of_union_list. split.
    + intros (X & (k & -> & Hk)%list_elem_of_fmap & HxX). by exists k.
    + intros (k & Hk & Hx). exists (keyContent st k). split; [|done].
      apply list_elem_of_fmap. by exists k.
  - (* SDIFFSTORE *)
    destruct (Hunion REDIS_OP_DIFF ltac:(done))
      as (dstset & Hcmd & Hwf & Hc).
    unfold sdiffstoreCommand. rewrite Hcmd.
    apply Hfinish; [done|]. intros x.
    rewrite Hc, elem_of_difference, elem_of_union_list. split.
    + intros [Hx Hnot]. split; [done|]. intros k Hk Hxk. apply Hnot.
      exists (keyContent st k). split; [|done].
      apply list_elem_of_fmap. by exists k.
    + intros [Hx Hnot]. split; [done|].
      intros (X & (k & -> & Hk)%list_elem_of_fmap & HxX).
      by apply (Hnot k).
Qed.

Lemma store_commands_store_result_witness :
  ∃ st',
    runStoreCommand SINTERSTORE 1 "a" ["a"; "h"] stSets = Some st'
    ∧ ∀ x, x ∈ keyContent st' "a"
           ↔ ∀ k, k ∈ ["a"; "h"] → x ∈ keyContent stSets k.
Proof.
  assert (Hsrc : Forall (setSource stSets) ["a"; "h"]).
  { apply Forall_cons. split.
    - right. exists (Intset [1; 2; 3]%Z). split; [reflexivity|].
      split.
      + repeat (apply NoDup_cons; split;
                  [rewrite ?elem_of_cons, elem_of_nil; lia|]).
        apply NoDup_nil_2.
      + repeat (apply Forall_cons; split;
                  [unfold isLongLong, LLONG_MIN, LLONG_MAX; lia|]).
        apply Forall_nil_2.
    - apply Forall_cons. split; [|apply Forall_nil_2].
      right. exists (Hashtable {["2"; "x"]}). by split. }
  destruct (store_commands_store_result SINTERSTORE 1 "a" "a" ["h"]
              stSets Hsrc) as (st' & Hcmd & Hmem & _).
  exists st'. split; [exact Hcmd|exact Hmem].
Defined.

(** ** LPUSH and RPUSH without waiters, LLEN, LPOP and RPOP *)

(** X30. LPUSH or RPUSH onto a key nobody is blocked on, the key missing or
    holding a list: the value is added at the head or the tail, the list
    being created when the key was missing; the reply is the new length,
    the dirty counter is incremented and no other key changes.  LLEN then
    replies that length, and the pop from the same end replies the value
    and leaves the elements the list had before, deleting the key when the
    list is empty again. *)
Theorem push_without_waiters
  (fuel c : nat) (key : string) (val : sobj) (whr : lwhere)
  (st : redisServer) :
  blocking_keys st !! key = None →
  (db st !! key = None ∨ ∃ l, db st !! key = Some (OList l)) →
  let v := getDecodedObject val in
  let n := Z.of_nat (S (length (keyValues st key))) in
  ∃ st',
    pushGenericCommand (S fuel) c key val whr st = Some st'
    ∧ keyValues st' key
      = match whr with
        | REDIS_HEAD => v :: keyValues st key
        | REDIS_TAIL => keyValues st key ++ [v]
        end
    ∧ clients st' = clients (addReplyLongLong c n st)
    ∧ dirty st' = (dirty st + 1)%Z
    ∧ (∀ k, k ≠ key → db st' !! k = db st !! k)
    ∧ llenCommand c key st' = addReplyLongLong c n st'
    ∧ ∃ value,
        getDecodedObject value = v
        ∧ clients (popGenericCommand c key whr st')
          = clients (addReplyBulk c value st')
        ∧ keyValues (popGenericCommand c key whr st') key
          = keyValues st key
        ∧ (keyValues st key = [] →
           db (popGenericCommand c key whr st') !! key = None).
Proof.
  intros Hbk Hkey v n.
  pose proof (tryObjectEncoding_decoded val) as Hdec.
  set (ele := tryObjectEncoding val) in *.
  assert (Hrun : ∃ l0 st1,
    pushGenericCommand (S fuel) c key val whr st
    = pushGenericStore c key ele whr st1
    ∧ db st1 = <[key := OList l0]> (db st)
    ∧ tlistValues l0 = keyValues st key
    ∧ clients st1 = clients st ∧ dirty st1 = dirty st
    ∧ conf st1 = conf st).
  { unfold pushGenericCommand, keyValues. fold ele.
    destruct Hkey as [Hn|(l & Hl)].
    - rewrite Hn. simpl. rewrite Hbk. simpl. unfold dbAdd. rewrite Hn.
      simpl. exists createZiplistObject. eexists. split; [done|].
      by repeat split.
    - rewrite Hl. simpl. rewrite Hbk. simpl.
      exists l, st. split; [done|].
      split; [symmetry; by apply insert_id|]. by repeat split. }
  destruct Hrun as (l0 & st1 & -> & Hdb1 & Hv0 & Hcl1 & Hd1 & Hcf1).
  destruct (tlistPush_spec (conf st1) l0 ele whr)
    as (l1 & Hpush & Hv1 & Hlen1 & _).
  rewrite Hdec, Hv0 in Hv1. fold v in Hv1.
  assert (Hn : Z.of_nat (tlistLength l1) = n).
  { subst n. by rewrite Hlen1, <- tlistValues_length, Hv0. }
  unfold pushGenericStore, pushTo, derefList.
  rewrite Hdb1, lookup_insert_eq. simpl. rewrite Hpush. simpl.
  rewrite lookup_insert_eq. simpl. rewrite Hn.
  eexists. split; [done|].
  unfold keyValues at 1. simpl. rewrite lookup_insert_eq.
  split; [done|]. rewrite Hcl1, Hd1. split; [done|]. split; [done|].
  split; [intros k Hk; rewrite Hdb1; by rewrite !lookup_insert_ne|].
  split; [unfold llenCommand; simpl; by rewrite lookup_insert_eq, Hn|].
  destruct (tlistPop_spec l1 whr ltac:(lia)) as (l2 & value & Hpop & Hv2 & Hl2).
  assert (Hback : getDecodedObject value = v
                  ∧ tlistValues l2 = keyValues st key).
  { rewrite Hv1 in Hv2. destruct whr.
    - by injection Hv2 as -> ->.
    - by apply app_inj_tail in Hv2 as [-> ->]. }
  destruct Hback as [Hval Hv3]. exists value. split; [done|].
  unfold popGenericCommand, keyValues at 1. simpl.
  rewrite lookup_insert_eq, Hpop.
  assert (Hz : tlistLength l2 = 0 ↔ keyValues st key = []).
  { rewrite <- Hv3, <- tlistValues_length. apply length_zero_iff_nil. }
  destruct (decide (tlistLength l2 = 0)) as [Hzero|Hnz].
  - rewrite (bool_decide_eq_true_2 _ Hzero). simpl.
    rewrite lookup_delete_eq, Hcl1. split; [done|].
    split; [symmetry; by apply Hz|done].
  - rewrite (bool_decide_eq_false_2 _ Hnz). simpl.
    rewrite lookup_insert_eq, Hcl1. split; [done|]. split; [done|].
    intros Hnil. by apply Hz in Hnil.
Qed.

Lemma push_without_waiters_witness :
  ∃ st',
    pushGenericCommand 1 1 "dst" (Raw "y") REDIS_TAIL stTwoLists = Some st'
    ∧ keyValues st' "dst" = keyValues stTwoLists "dst" ++ ["y"]
    ∧ llenCommand 1 "dst" st' = addReplyLongLong 1 2 st'.
Proof.
  destruct (push_without_waiters 0 1 "dst" (Raw "y") REDIS_TAIL stTwoLists
              eq_refl
              (or_intror (ex_intro _ (Ziplist [ZStr "x"]) eq_refl)))
    as (st' & Hcmd & Hv & _ & _ & _ & Hlen & _).
  exists st'. split; [exact Hcmd|]. split; [exact Hv|exact Hlen].
Defined.
